(** * ehco relay: the multiplexed-websocket transport (internal/relay/mwss.go)

    A shallow embedding of the client session pool ([mwssTransporter.Dial]),
    of the server intake queue ([MWSSServer.mux], [MWSSServer.Accept]) and of
    the accept loop of [RunLocalMWSSServer], with the properties the
    specification states about them.

    Go values are modelled as follows.
    - A pointer is a natural number, [nil] is 0; objects live in finite maps
      from addresses to contents and are allocated at a fresh address.
    - A slice is a triple (backing array, len, cap); the backing array is a
      heap object, so two slices over one array see each other's writes.
    - An [int] is a [Z]; the only arithmetic on it here is a comparison and
      a doubling that stays far below 2^63.
    - What the network and the libraries answer (url.Parse, net.DialTimeout,
      the websocket handshake, smux) is an input of the call. *)

From Stdlib Require Import ZArith Lia.
From stdpp Require Import base option list gmap strings.

(** ** Errors *)

(** A Go [error] value.  [err_temporary] is the result of the test
    [ne, ok := e.(net.Error); ok && ne.Temporary()]. *)
Record error := Error { err_code : nat; err_temporary : bool }.

(** ** The stream multiplexer (github.com/xtaci/smux), at its interface *)

Module Smux.

(** The observable state of a [*smux.Session]: whether it has been closed
    and how many streams it holds. *)
Record Session := MkSession { die : bool; streams : Z }.

Definition ErrClosedPipe : error := Error 0 false.

Definition IsClosed (s : Session) : bool := die s.

(** A closed session reports no stream. *)
Definition NumStreams (s : Session) : Z :=
  if IsClosed s then 0%Z else streams s.

(** [Close]: the first call closes the session and then its connection,
    and returns what the [Close] of the connection returns
    ([conn_close]); a later call changes nothing and returns
    [io.ErrClosedPipe]. *)
Record closing := MkClosing {
  close_result : option error;  (* the error [Close] returns *)
  closes_conn : bool;           (* this call closes the connection *)
  after_close : Session
}.

Definition Close (conn_close : option error) (s : Session) : closing :=
  if IsClosed s
  then {| close_result := Some ErrClosedPipe; closes_conn := false;
          after_close := s |}
  else {| close_result := conn_close; closes_conn := true;
          after_close := {| die := true; streams := streams s |} |}.

(** [OpenStream] fails on a closed session, and may fail on an open one
    ([fault], e.g. the underlying connection broke); otherwise the session
    holds one more stream. *)
Definition OpenStream (fault : option error) (s : Session) : error + Session :=
  if IsClosed s then inl ErrClosedPipe
  else match fault with
       | Some e => inl e
       | None => inr {| die := false; streams := (streams s + 1)%Z |}
       end.

(** A session just returned by [smux.Client] or [smux.Server]. *)
Definition fresh : Session := {| die := false; streams := 0 |}.

End Smux.

(** ** Pointers and stream connections *)

Definition ptr := nat.
Definition nil : ptr := 0.

(** [&muxStreamConn{Conn: conn, stream: stream}]: the connection of the
    session, and the stream, identified by the session that carries it and
    its rank among that session's streams. *)
Record muxStreamConn := MkStreamConn {
  Conn : ptr;
  stream_owner : ptr;
  stream_rank : Z
}.

(** ** The client session pool *)

Module Pool.

(** [type muxSession struct { conn; session; maxStreamCnt }].  The field
    [session] is a pointer that may be nil; each wrapper owns its
    multiplexer session, which is therefore stored in place. *)
Record muxSession := MkMuxSession {
  conn : ptr;
  session : option Smux.Session;
  maxStreamCnt : Z
}.

(** A slice header. *)
Record slice := MkSlice { base : ptr; len : nat; cap : nat }.

Definition nil_slice : slice := MkSlice nil 0 0.

(** The transporter ([sessions map[string][]*muxSession]) with the part of
    the Go heap it points into. *)
Record World := MkWorld {
  sessions : gmap string slice;
  arrays : gmap ptr (list ptr);
  objs : gmap ptr muxSession;
  closed_conns : list ptr;
  brk : ptr
}.

(** [NewMWSSTransporter()] on an empty heap. *)
Definition NewMWSSTransporter : World :=
  {| sessions := ∅; arrays := ∅; objs := ∅; closed_conns := []; brk := 1 |}.

(** What the outside answers during one call of [Dial]. *)
Record Env := MkEnv {
  parse_err : option error;   (* url.Parse(addr) *)
  dial_err : option error;    (* net.DialTimeout("tcp", u.Host, WsDeadline) *)
  ws_err : option error;      (* websocket.Dialer.Dial *)
  smux_err : option error;    (* smux.Client *)
  open_err : option error;    (* a fault of OpenStream on an open session *)
  close_err : option error    (* conn.Close() inside the session's Close *)
}.

Definition all_good : Env := MkEnv None None None None None None.

(** *** A state monad with errors and panics *)

Inductive outcome (A : Type) :=
| Ret (a : A)
| Fail (e : error)
| Panic.
Arguments Ret {A} a.
Arguments Fail {A} e.
Arguments Panic {A}.

Definition M (A : Type) : Type := World → outcome A * World.

Definition ret {A} (a : A) : M A := λ w, (Ret a, w).
Definition fail {A} (e : error) : M A := λ w, (Fail e, w).
Definition panic {A} : M A := λ w, (Panic, w).
Definition bind {A B} (m : M A) (k : A → M B) : M B :=
  λ w, match m w with
       | (Ret a, w') => k a w'
       | (Fail e, w') => (Fail e, w')
       | (Panic, w') => (Panic, w')
       end.
Definition get : M World := λ w, (Ret w, w).

Notation "'let*' x ':=' m 'in' k" := (bind m (λ x, k))
  (at level 10, x pattern, m at level 100, k at level 200).
Notation "'do' m 'in' k" := (bind m (λ _, k))
  (at level 10, m at level 100, k at level 200).

(** [check o]: a Go call that returns only an error. *)
Definition check (o : option error) : M unit :=
  match o with Some e => fail e | None => ret tt end.

(** *** Heap accesses *)

(** Dereferencing a [*muxSession]; a nil pointer panics. *)
Definition deref (p : ptr) : M muxSession :=
  λ w, match objs w !! p with
       | Some o => (Ret o, w)
       | None => (Panic, w)
       end.

(** The elementary updates of the world. *)
Definition write_obj (p : ptr) (o : muxSession) (w : World) : World :=
  {| sessions := sessions w; arrays := arrays w;
     objs := <[p := o]> (objs w);
     closed_conns := closed_conns w; brk := brk w |}.

Definition write_array (p : ptr) (a : list ptr) (w : World) : World :=
  {| sessions := sessions w; arrays := <[p := a]> (arrays w);
     objs := objs w; closed_conns := closed_conns w; brk := brk w |}.

Definition bump (w : World) : World :=
  {| sessions := sessions w; arrays := arrays w; objs := objs w;
     closed_conns := closed_conns w; brk := S (brk w) |}.

Definition note_closed (c : ptr) (w : World) : World :=
  {| sessions := sessions w; arrays := arrays w; objs := objs w;
     closed_conns := c :: closed_conns w; brk := brk w |}.

Definition write_map (addr : string) (sl : slice) (w : World) : World :=
  {| sessions := <[addr := sl]> (sessions w); arrays := arrays w;
     objs := objs w; closed_conns := closed_conns w; brk := brk w |}.

Definition set_obj (p : ptr) (o : muxSession) : M unit :=
  λ w, (Ret tt, write_obj p o w).

(** The address of a new object. *)
Definition new_addr : M ptr := λ w, (Ret (brk w), bump w).

Definition set_array (p : ptr) (a : list ptr) : M unit :=
  λ w, (Ret tt, write_array p a w).

(** [c.Close()] on a connection. *)
Definition close_conn (c : ptr) : M unit := λ w, (Ret tt, note_closed c w).

(** [tr.sessions[addr] = sl]. *)
Definition map_store (addr : string) (sl : slice) : M unit :=
  λ w, (Ret tt, write_map addr sl w).

(** The backing array of a slice; the nil slice has none. *)
Definition backing (w : World) (sl : slice) : list ptr :=
  default [] (arrays w !! base sl).

(** The elements [sl[0], ..., sl[len-1]]. *)
Definition elems (w : World) (sl : slice) : list ptr :=
  take (len sl) (backing w sl).

(** [sl[i]]; out of range panics. *)
Definition index (sl : slice) (i : nat) : M ptr :=
  λ w, match elems w sl !! i with
       | Some x => (Ret x, w)
       | None => (Panic, w)
       end.

(** [sl[i] = x]: a write into the backing array. *)
Definition index_set (sl : slice) (i : nat) (x : ptr) : M unit :=
  λ w, if decide (i < len sl)
       then set_array (base sl) (<[i := x]> (backing w sl)) w
       else (Panic, w).

(** [sl[:n]] for [n ≤ len sl]. *)
Definition reslice (sl : slice) (n : nat) : slice :=
  {| base := base sl; len := n; cap := cap sl |}.

Section Dial.

(** The constant [MaxMWSSStreamCnt], declared in another file of the
    package. *)
Variable MaxMWSSStreamCnt : Z.

(** The capacity the runtime picks when [append] must reallocate; the
    new array has room for the element whatever this function says. *)
Variable growcap : nat → nat.

(** [append(sl, x)]: in place when the capacity allows, into a fresh
    array otherwise. *)
Definition append (sl : slice) (x : ptr) : M slice :=
  if decide (len sl < cap sl) then
    let* w := get in
    do set_array (base sl) (<[len sl := x]> (backing w sl)) in
    ret {| base := base sl; len := S (len sl); cap := cap sl |}
  else
    let* w := get in
    let newcap := max (S (len sl)) (growcap (cap sl)) in
    let* p := new_addr in
    do set_array p (elems w sl ++ x :: replicate (newcap - S (len sl)) nil) in
    ret {| base := p; len := S (len sl); cap := newcap |}.

(** *** Methods of [*muxSession] (lines 39-74) *)

Definition muxSession_IsClosed (p : ptr) : M bool :=
  let* o := deref p in
  match session o with
  | None => ret true
  | Some s => ret (Smux.IsClosed s)
  end.

Definition muxSession_NumStreams (p : ptr) : M Z :=
  let* o := deref p in
  match session o with
  | Some s => ret (Smux.NumStreams s)
  | None => ret 0%Z
  end.

(** [Close]: [session.session.Close()], which closes the connection of
    the session the first time; the result is the error returned. *)
Definition muxSession_Close (conn_close : option error) (p : ptr)
  : M (option error) :=
  let* o := deref p in
  match session o with
  | None => ret None
  | Some s =>
      let c := Smux.Close conn_close s in
      do set_obj p {| conn := conn o; session := Some (Smux.after_close c);
                      maxStreamCnt := maxStreamCnt o |} in
      do (if Smux.closes_conn c then close_conn (conn o) else ret tt) in
      ret (Smux.close_result c)
  end.

(** [GetConn]: [session.session.OpenStream()], which panics on a nil
    multiplexer handle. *)
Definition muxSession_GetConn (fault : option error) (p : ptr)
  : M muxStreamConn :=
  let* o := deref p in
  match session o with
  | None => panic
  | Some s =>
      match Smux.OpenStream fault s with
      | inl e => fail e
      | inr s' =>
          do set_obj p {| conn := conn o; session := Some s';
                          maxStreamCnt := maxStreamCnt o |} in
          ret {| Conn := conn o; stream_owner := p;
                 stream_rank := Smux.streams s' |}
      end
  end.

(** *** [Dial], lines 87-149 *)

(** Lines 95-103: the loop that looks for a session with room.  It
    returns the variables [session] and [ok]. *)
Fixpoint scan (l : list ptr) (ok : bool) : M (ptr * bool) :=
  match l with
  | [] => ret (nil, ok)
  | s :: rest =>
      let* o := deref s in
      match session o with
      | None => panic
      | Some m =>
          if (Smux.NumStreams m >=? maxStreamCnt o)%Z
          then scan rest false
          else ret (s, true)
      end
  end.

(** Lines 109-115: the index of the first element equal to [session],
    [None] standing for -1. *)
Fixpoint find_idx (session : ptr) (l : list ptr) (idx : nat) : option nat :=
  match l with
  | [] => None
  | s :: rest =>
      if decide (s = session) then Some idx
      else find_idx session rest (S idx)
  end.

(** Lines 106-120: a closed candidate is swapped out of the slice. *)
Definition evict (sl : slice) (session : ptr) (ok : bool)
  : M (slice * bool) :=
  if decide (session = nil) then ret (sl, ok) else
  let* closed := muxSession_IsClosed session in
  if closed then
    let* w := get in
    match find_idx session (elems w sl) 0 with
    | Some closedIdx =>
        let* last := index sl (len sl - 1) in
        do index_set sl closedIdx last in
        ret (reslice sl (len sl - 1), false)
    | None => ret (sl, false)
    end
  else ret (sl, ok).

(** Lines 151-175. *)
Definition initSession (env : Env) (c : ptr) : M ptr :=
  do check (parse_err env) in
  do check (ws_err env) in
  do check (smux_err env) in
  let* p := new_addr in
  do set_obj p {| conn := c; session := Some Smux.fresh;
                  maxStreamCnt := MaxMWSSStreamCnt |} in
  ret p.

(** [initSession] followed by the [conn.Close()] of line 136 when it
    fails. *)
Definition initSession_or_close (env : Env) (c : ptr) : M ptr :=
  λ w, match initSession env c w with
       | (Fail e, w') => (do close_conn c in fail e) w'
       | r => r
       end.

(** Lines 123-140: a new session when none was found. *)
Definition create (env : Env) (sl : slice) (session : ptr) (ok : bool)
  : M (slice * ptr) :=
  if ok then ret (sl, session) else
  do check (parse_err env) in
  do check (dial_err env) in
  let* c := new_addr in
  let* s := initSession_or_close env c in
  let* sl' := append sl s in
  ret (sl', s).

(** Lines 142-146: [GetConn], closing the session when it fails. *)
Definition GetConn_or_close (env : Env) (session : ptr) : M muxStreamConn :=
  λ w, match muxSession_GetConn (open_err env) session w with
       | (Fail e, w') =>
           (do muxSession_Close (close_err env) session in fail e) w'
       | r => r
       end.

(** Everything before line 142: the session a stream will be asked
    from, and the local slice [sessions]. *)
Definition choose (env : Env) (addr : string) : M (slice * ptr) :=
  let* w := get in
  let sl0 := default nil_slice (sessions w !! addr) in
  let ok0 := bool_decide (is_Some (sessions w !! addr)) in
  let* (session, ok) := scan (elems w sl0) ok0 in
  let* (sl1, ok) := evict sl0 session ok in
  create env sl1 session ok.

Definition Dial (env : Env) (addr : string) : M muxStreamConn :=
  let* (sl, session) := choose env addr in
  let* cc := GetConn_or_close env session in
  do map_store addr sl in
  ret cc.

(** *** What happens between two calls *)

(** The multiplexer of the session at [p] closes (the peer or the
    transport went away, and the session closes itself). *)
Definition session_dies (p : ptr) (w : World) : World :=
  (muxSession_Close None p w).2.

(** A caller closes a stream of the session at [p]. *)
Definition stream_closes (p : ptr) (w : World) : World :=
  match objs w !! p with
  | Some o =>
      match session o with
      | Some s =>
          if Smux.IsClosed s || (Smux.streams s <=? 0)%Z then w
          else write_obj p {| conn := conn o;
                              session := Some {| Smux.die := false;
                                                 Smux.streams := (Smux.streams s - 1)%Z |};
                              maxStreamCnt := maxStreamCnt o |} w
      | None => w
      end
  | None => w
  end.

Inductive step : World → World → Prop :=
| step_Dial env addr w : step w (Dial env addr w).2
| step_dies p w : step w (session_dies p w)
| step_stream p w : step w (stream_closes p w).

(** The states of the pool a program can be in. *)
Definition reachable (w : World) : Prop := rtc step NewMWSSTransporter w.

End Dial.

(** *** What a world shows *)

(** The collection the pool holds for [addr]. *)
Definition collection (w : World) (addr : string) : list ptr :=
  elems w (default nil_slice (sessions w !! addr)).

(** What the multiplexer of the session at [p] reports. *)
Definition closed_at (w : World) (p : ptr) : bool :=
  match objs w !! p with
  | Some o => match session o with
              | Some s => Smux.IsClosed s
              | None => true
              end
  | None => true
  end.

Definition streams_at (w : World) (p : ptr) : Z :=
  match objs w !! p with
  | Some o => match session o with
              | Some s => Smux.NumStreams s
              | None => 0%Z
              end
  | None => 0%Z
  end.

(** *** Properties of a world *)

(** [p] points to a session wrapper whose multiplexer handle is set. *)
Definition live (w : World) (p : ptr) : Prop :=
  ∃ o m, objs w !! p = Some o ∧ session o = Some m.

(** The configured maximum of the session at [p]. *)
Definition limit_at (w : World) (p : ptr) : Z :=
  match objs w !! p with
  | Some o => maxStreamCnt o
  | None => 0%Z
  end.

(** The test of line 96, negated. *)
Definition has_room (w : World) (p : ptr) : bool :=
  (streams_at w p <? limit_at w p)%Z.

(** The first session of a collection that has room. *)
Definition first_with_room (w : World) (l : list ptr) : option ptr :=
  List.find (has_room w) l.

(** The session the specification says the scan selects: the first one
    that is not closed and has room. *)
Definition first_usable (w : World) (l : list ptr) : option ptr :=
  List.find (λ p, negb (closed_at w p) && has_room w p) l.

(** A slice header that fits the heap: the backing array is as long as
    the capacity, and the elements are live sessions. *)
Definition slice_ok (w : World) (sl : slice) : Prop :=
  len sl ≤ cap sl ∧ cap sl ≤ length (backing w sl)
  ∧ Forall (live w) (elems w sl).

(** The invariant of the pool. *)
Record wf (w : World) : Prop := MkWf {
  wf_brk : 0 < brk w;
  wf_objs_nil : objs w !! nil = None;
  wf_arrays_nil : arrays w !! nil = None;
  wf_objs_fresh : ∀ p, brk w ≤ p → objs w !! p = None;
  wf_arrays_fresh : ∀ p, brk w ≤ p → arrays w !! p = None;
  wf_slices : ∀ addr sl, sessions w !! addr = Some sl →
              0 < len sl ∧ slice_ok w sl;
  wf_sep : ∀ a1 a2 sl1 sl2,
             sessions w !! a1 = Some sl1 → sessions w !! a2 = Some sl2 →
             base sl1 = base sl2 → a1 = a2
}.

(** The variables [session] and [ok] after the loop of lines 95-103, when
    every session of [l] is live. *)
Definition scan_result (w : World) (l : list ptr) (ok : bool) : ptr * bool :=
  match first_with_room w l with
  | Some s => (s, true)
  | None => (nil, match l with [] => ok | _ => false end)
  end.

(** The collection after the swap of lines 117-118: the entry [i] is
    overwritten with the last one, [x], and the slice loses its last
    element. *)
Definition swap_out (l : list ptr) (i : nat) (x : ptr) : list ptr :=
  take (length l - 1) (<[i := x]> l).

(** The network answers and the handshakes succeed. *)
Definition creation_ok (env : Env) : Prop :=
  parse_err env = None ∧ dial_err env = None
  ∧ ws_err env = None ∧ smux_err env = None.

(** The updates of the heap [Dial] is made of, with what each needs to
    keep the invariant. *)
Inductive upd1 (w : World) : World → Prop :=
| upd_bump : upd1 w (bump w)
| upd_note c : upd1 w (note_closed c w)
| upd_obj p o :
    p ≠ nil → p < brk w → is_Some (session o) → upd1 w (write_obj p o w)
| upd_write p i x :
    live w x → i < length (default [] (arrays w !! p)) →
    upd1 w (write_array p (<[i := x]> (default [] (arrays w !! p))) w)
| upd_new a : upd1 w (write_array (brk w) a (bump w)).

Definition upd : World → World → Prop := rtc upd1.

Section Calls.

Variable MaxMWSSStreamCnt : Z.
Variable growcap : nat → nat.

(** The world right after [initSession] has built a new wrapper. *)
Definition with_new_session (w : World) : World :=
  write_obj (S (brk w))
    {| conn := brk w; session := Some Smux.fresh;
       maxStreamCnt := MaxMWSSStreamCnt |}
    (bump (bump w)).

(** The world after a call. *)
Definition again (env : Env) (addr : string) (w : World) : World :=
  (Dial MaxMWSSStreamCnt growcap env addr w).2.

(** The pool holds for [addr] the single session [s], open, with [n]
    streams; no other session was touched since [w0]. *)
Definition filled (w0 w : World) (addr : string) (s : ptr) (n : Z) : Prop :=
  wf w ∧ collection w addr = [s] ∧ closed_at w s = false
  ∧ streams_at w s = n ∧ limit_at w s = MaxMWSSStreamCnt
  ∧ ∀ p, p ≠ s → objs w !! p = objs w0 !! p.

(** The pool after [k] calls for an address that [w0] did not know: it
    holds for [addr] sessions created since [w0], all open and without
    repetition; all but the last one are at the maximum, and the last one
    carries the other streams. *)
Definition packed (w0 w : World) (addr : string) (k : nat) : Prop :=
  wf w ∧ ∃ l last,
    collection w addr = l ++ [last] ∧ NoDup (l ++ [last])
    ∧ Forall (λ s, objs w0 !! s = None ∧ closed_at w s = false
                   ∧ limit_at w s = MaxMWSSStreamCnt) (l ++ [last])
    ∧ Forall (λ s, streams_at w s = MaxMWSSStreamCnt) l
    ∧ (1 ≤ streams_at w last ≤ MaxMWSSStreamCnt)%Z
    ∧ Z.of_nat k
      = (Z.of_nat (length l) * MaxMWSSStreamCnt + streams_at w last)%Z
    ∧ ∀ p, p ∉ l ++ [last] → objs w !! p = objs w0 !! p.

End Calls.

End Pool.

(** ** Concrete runs *)

(** The capacity [append] picks for a small slice that is full. *)
Definition growcap_double (c : nat) : nat := 2 * c.

Module Scenario.

Import Pool.

Definition dial (max : Z) (env : Env) (w : World) : World :=
  (Dial max growcap_double env "x" w).2.

(** [net.DialTimeout] fails. *)
Definition no_route : Env :=
  MkEnv None (Some (Error 7 false)) None None None None.

(** [OpenStream] fails. *)
Definition broken_pipe : Env :=
  MkEnv None None None None (Some (Error 9 false)) None.

(** With [MaxMWSSStreamCnt = 1]: one call, a second call; then the stream
    of the first session is closed by its owner and the session itself
    closes. *)
Definition one : World := dial 1 all_good NewMWSSTransporter.
Definition two : World := dial 1 all_good one.
Definition two_first_idle : World := stream_closes 2 two.
Definition two_first_dead : World := session_dies 2 two_first_idle.

(** A call whose TCP dial fails. *)
Definition duplicated : World := dial 1 no_route two_first_dead.

(** The stream of the second session is closed by its owner. *)
Definition second_idle : World := stream_closes 5 two_first_dead.

(** One session, whose stream is closed and which then closes. *)
Definition one_idle : World := stream_closes 2 one.
Definition one_dead : World := session_dies 2 one_idle.

(** With [MaxMWSSStreamCnt = 2]: one call. *)
Definition first2 : World :=
  (Dial 2 growcap_double all_good "x" NewMWSSTransporter).2.

End Scenario.

(** ** Concurrent calls of [Dial] *)

Module Concurrent.

Import Pool.

Section Goroutines.
Variable MaxMWSSStreamCnt : Z.
Variable growcap : nat → nat.
Local Abbreviation Dial := (Dial MaxMWSSStreamCnt growcap).
Local Abbreviation create := (create MaxMWSSStreamCnt growcap).

(** Where a goroutine stands in [Dial]. *)
Inductive pc :=
| AtLock                                           (* line 88 *)
| Scanning                                         (* line 91 *)
| Evicting (sl : slice) (session : ptr) (ok : bool) (* line 106 *)
| Creating (sl : slice) (session : ptr) (ok : bool) (* line 123 *)
| Opening (sl : slice) (session : ptr)             (* line 142 *)
| Storing (sl : slice) (cc : muxStreamConn)        (* line 147 *)
| Leaving (r : outcome muxStreamConn)              (* the deferred Unlock *)
| Finished (r : outcome muxStreamConn).

(** After a statement: on to the next one, or out through the deferred
    [Unlock] with the error or the panic. *)
Definition next {A} (res : outcome A * World) (k : A → pc) : pc * World :=
  match res with
  | (Ret a, w) => (k a, w)
  | (Fail e, w) => (Leaving (Fail e), w)
  | (Panic, w) => (Leaving Panic, w)
  end.

(** One step of a goroutine that holds the lock. *)
Definition advance (env : Env) (addr : string) (p : pc) (w : World)
  : option (pc * World) :=
  match p with
  | Scanning =>
      let sl0 := default nil_slice (sessions w !! addr) in
      let ok0 := bool_decide (is_Some (sessions w !! addr)) in
      Some (next (scan (elems w sl0) ok0 w) (λ '(s, ok), Evicting sl0 s ok))
  | Evicting sl s ok =>
      Some (next (evict sl s ok w) (λ '(sl1, ok1), Creating sl1 s ok1))
  | Creating sl s ok =>
      Some (next (create env sl s ok w) (λ '(sl', s'), Opening sl' s'))
  | Opening sl s =>
      Some (next (GetConn_or_close env s w) (λ cc, Storing sl cc))
  | Storing sl cc => Some (Leaving (Ret cc), write_map addr sl w)
  | AtLock | Leaving _ | Finished _ => None
  end.

Record Config := MkConfig {
  world : World;
  locked : bool;          (* tr.sessionMutex *)
  pcs : list pc
}.

Definition init (n : nat) (w : World) : Config :=
  {| world := w; locked := false; pcs := replicate n AtLock |}.

Section Steps.

(** Goroutine [i] runs [Dial env addr] for [calls !! i = Some (env, addr)]. *)
Variable calls : list (Env * string).

(** A step of the program: some goroutine moves.  [Lock] needs the mutex
    to be free and takes it; the steps between line 91 and line 147 act on
    the shared world; the deferred [Unlock] frees the mutex. *)
Inductive cstep (c : Config) : Config → Prop :=
| c_lock i :
    pcs c !! i = Some AtLock → locked c = false →
    cstep c {| world := world c; locked := true;
               pcs := <[i := Scanning]> (pcs c) |}
| c_run i p env addr p' w' :
    pcs c !! i = Some p → calls !! i = Some (env, addr) →
    advance env addr p (world c) = Some (p', w') →
    cstep c {| world := w'; locked := locked c;
               pcs := <[i := p']> (pcs c) |}
| c_unlock i r :
    pcs c !! i = Some (Leaving r) →
    cstep c {| world := world c; locked := false;
               pcs := <[i := Finished r]> (pcs c) |}.

(** The calls of the goroutines [order], one after the other. *)
Fixpoint serial (order : list nat) (w : World) : World :=
  match order with
  | [] => w
  | i :: rest =>
      match calls !! i with
      | Some (env, addr) => serial rest (Dial env addr w).2
      | None => serial rest w
      end
  end.
End Steps.

(** The goroutine is between [Lock] and [Unlock]. *)
Definition holding (p : pc) : bool :=
  match p with AtLock | Finished _ => false | _ => true end.

Definition is_finished (p : pc) : bool :=
  match p with Finished _ => true | _ => false end.

(** What is left of the call from [p] on, as one computation. *)
Definition rest (env : Env) (addr : string) (p : pc)
  : World → outcome muxStreamConn * World :=
  let tail_open := λ '(sl, s),
    bind (GetConn_or_close env s) (λ cc,
      bind (map_store addr sl) (λ _, ret cc)) in
  let tail_create := λ s '(sl1, ok1),
    bind (create env sl1 s ok1) tail_open in
  match p with
  | Scanning => Dial env addr
  | Evicting sl s ok => bind (evict sl s ok) (tail_create s)
  | Creating sl s ok => bind (create env sl s ok) tail_open
  | Opening sl s => tail_open (sl, s)
  | Storing sl cc => bind (map_store addr sl) (λ _, ret cc)
  | Leaving r => λ w, (r, w)
  | AtLock => Dial env addr
  | Finished r => λ w, (r, w)
  end.

Section Serial.

Variable calls : list (Env * string).
Variable w0 : World.

(** Goroutine [i] got the result [r] in the serial run of [order]. *)
Definition ran (order : list nat) (i : nat) (r : outcome muxStreamConn)
  : Prop :=
  ∃ o1 o2 env addr, order = o1 ++ i :: o2 ∧ calls !! i = Some (env, addr)
    ∧ r = (Dial env addr (serial calls o1 w0)).1.

Definition done_in (c : Config) (order : list nat) : Prop :=
  ∀ j, j ∈ order → ∃ r, pcs c !! j = Some (Finished r) ∧ ran order j r.

(** The invariant of the concurrent runs: [order] lists the
    goroutines that took the lock, in that order; all but perhaps the
    last have returned, and finishing the call of the last one from
    the current world gives what the whole call gives after the
    others. *)
Definition inv (c : Config) (order : list nat) : Prop :=
  NoDup order ∧ length (pcs c) = length calls
  ∧ (∀ i, i ∈ order → i < length calls)
  ∧ (∀ i, i < length calls → i ∉ order → pcs c !! i = Some AtLock)
  ∧ if locked c then
      ∃ o' i env addr p,
        order = o' ++ [i] ∧ calls !! i = Some (env, addr)
        ∧ pcs c !! i = Some p ∧ holding p = true
        ∧ rest env addr p (world c) = Dial env addr (serial calls o' w0)
        ∧ done_in c o'
    else world c = serial calls order w0 ∧ done_in c order.

(** Goroutine [i] takes its next step, if it can. *)
Definition try_step (i : nat) (c : Config) : Config :=
  match pcs c !! i with
  | Some AtLock =>
      if locked c then c
      else {| world := world c; locked := true;
              pcs := <[i := Scanning]> (pcs c) |}
  | Some (Leaving r) =>
      {| world := world c; locked := false;
         pcs := <[i := Finished r]> (pcs c) |}
  | Some p =>
      match calls !! i with
      | Some (env, addr) =>
          match advance env addr p (world c) with
          | Some (p', w') => {| world := w'; locked := locked c;
                                pcs := <[i := p']> (pcs c) |}
          | None => c
          end
      | None => c
      end
  | None => c
  end.

(** The run in which the goroutines are given the processor in the order
    [order]. *)
Definition schedule (order : list nat) (c : Config) : Config :=
  foldl (λ c i, try_step i c) c order.

End Serial.

End Goroutines.

(** Two goroutines race for the address "x" of an empty pool; the second
    one gets the lock first. *)
Definition two_racers : Config :=
  schedule 2 growcap_double (replicate 2 (Pool.all_good, "x"))
    [1; 0; 1; 0; 1; 1; 0; 1; 1; 1; 0; 0; 0; 0; 0; 0; 0; 0]
    (init 2 Pool.NewMWSSTransporter).

(** The same race when a session takes one stream only. *)
Definition two_racers_of_one : Config :=
  schedule 1 growcap_double (replicate 2 (Pool.all_good, "x"))
    [1; 0; 1; 0; 1; 1; 0; 1; 1; 1; 0; 0; 0; 0; 0; 0; 0; 0]
    (init 2 Pool.NewMWSSTransporter).

End Concurrent.

(** ** The server: intake queue and accept loop *)

Module Server.

(** A buffered Go channel: the queued values, oldest first, the capacity
    given to [make], and whether [close] was called. *)
Record chan (A : Type) := MkChan {
  buf : list A;
  capacity : nat;
  closed : bool
}.
Arguments MkChan {A}.
Arguments buf {A}.
Arguments capacity {A}.
Arguments closed {A}.

Definition make {A} (n : nat) : chan A :=
  {| buf := []; capacity := n; closed := false |}.

(** [ch <- v] can proceed when the buffer has room ([None]: it would
    block). *)
Definition try_send {A} (ch : chan A) (v : A) : option (chan A) :=
  if decide (length (buf ch) < capacity ch)
  then Some {| buf := buf ch ++ [v]; capacity := capacity ch;
               closed := closed ch |}
  else None.

(** [<-ch] can proceed when a value is queued, or when the channel is
    closed and drained, in which case it yields the zero value. *)
Definition try_recv {A} (ch : chan A) : option (option A * chan A) :=
  match buf ch with
  | v :: q => Some (Some v, {| buf := q; capacity := capacity ch;
                               closed := closed ch |})
  | [] => if closed ch then Some (None, ch) else None
  end.

Definition close {A} (ch : chan A) : chan A :=
  {| buf := buf ch; capacity := capacity ch; closed := true |}.

(** [type MWSSServer struct]: the two channels. *)
Record MWSSServer := MkServer {
  connChan : chan muxStreamConn;
  errChan : chan error
}.

(** Lines 179-184. *)
Definition new_server : MWSSServer :=
  {| connChan := make 1024; errChan := make 1 |}.

(** *** [mux], lines 264-278 *)

(** The server together with the streams [mux] has closed itself. *)
Record MuxState := MkMuxState {
  srv : MWSSServer;
  dropped : list muxStreamConn
}.

Inductive iter_result :=
| Continue (st : MuxState)   (* next iteration *)
| Stop (st : MuxState)       (* [return] *)
| Blocked.                   (* the goroutine waits on a channel *)

(** A [select] with one send case: the send when it can proceed, else the
    [default] branch when there is one, else the goroutine is parked. *)
Inductive selected (A : Type) :=
| Sent (ch : chan A)
| Default
| Parked.
Arguments Sent {A}.
Arguments Default {A}.
Arguments Parked {A}.

Definition select_send {A} (has_default : bool) (ch : chan A) (v : A)
  : selected A :=
  match try_send ch v with
  | Some ch' => Sent ch'
  | None => if has_default then Default else Parked
  end.

(** One iteration: the answer of [mux.AcceptStream()], then the [select]
    of lines 272-277. *)
Definition mux_iter (st : MuxState) (accepted : error + muxStreamConn)
  : iter_result :=
  match accepted with
  | inl _ => Stop st
  | inr cc =>
      match select_send true (connChan (srv st)) cc with
      | Sent ch => Continue {| srv := {| connChan := ch;
                                         errChan := errChan (srv st) |};
                               dropped := dropped st |}
      | Default => Continue {| srv := srv st; dropped := cc :: dropped st |}
      | Parked => Blocked
      end
  end.

Fixpoint mux_loop (st : MuxState) (evs : list (error + muxStreamConn))
  : iter_result :=
  match evs with
  | [] => Continue st
  | ev :: rest =>
      match mux_iter st ev with
      | Continue st' => mux_loop st' rest
      | r => r
      end
  end.

(** *** [Accept], lines 281-287 *)

(** The [select] takes any branch that can proceed; with none it blocks,
    and then [Accept] has no result. *)
Inductive Accept (s : MWSSServer)
  : option muxStreamConn * option error → MWSSServer → Prop :=
| Accept_conn v ch :
    try_recv (connChan s) = Some (v, ch) →
    Accept s (v, None) {| connChan := ch; errChan := errChan s |}
| Accept_err v ch :
    try_recv (errChan s) = Some (v, ch) →
    Accept s (None, v) {| connChan := connChan s; errChan := ch |}.

(** Lines 202-208: what the goroutine does once [server.Serve] has
    returned [err]. *)
Definition serve_exit (err : option error) (s : MWSSServer)
  : option MWSSServer :=
  match err with
  | Some e =>
      match try_send (errChan s) e with
      | Some ch => Some {| connChan := connChan s; errChan := close ch |}
      | None => None
      end
  | None => Some {| connChan := connChan s; errChan := close (errChan s) |}
  end.

(** *** The accept loop of [RunLocalMWSSServer], lines 210-232 *)

(** [time.Duration] is an int64 count of nanoseconds. *)
Definition wrap64 (z : Z) : Z := ((z + 2 ^ 63) mod 2 ^ 64 - 2 ^ 63)%Z.
Definition Millisecond : Z := 1000000.
Definition Second : Z := 1000000000.

(** Lines 215-222. *)
Definition backoff (tempDelay : Z) : Z :=
  let d := if (tempDelay =? 0)%Z then (5 * Millisecond)%Z
           else wrap64 (tempDelay * 2) in
  if (d >? 1 * Second)%Z then (1 * Second)%Z else d.

Record LoopState := MkLoop {
  tempDelay : Z;
  slept : list Z;                       (* arguments of time.Sleep *)
  handled : list (option muxStreamConn) (* connections given to a handler *)
}.

Definition loop_start : LoopState :=
  {| tempDelay := 0; slept := []; handled := [] |}.

Inductive loop_result :=
| Looping (st : LoopState)
| Returned (e : error) (st : LoopState).

(** One iteration, on the result [(conn, e)] of [s.Accept()]. *)
Definition serve_iter (st : LoopState)
  (r : option muxStreamConn * option error) : loop_result :=
  match r.2 with
  | Some e =>
      if err_temporary e then
        let d := backoff (tempDelay st) in
        Looping {| tempDelay := d; slept := slept st ++ [d];
                   handled := handled st |}
      else Returned e st
  | None =>
      Looping {| tempDelay := 0; slept := slept st;
                 handled := handled st ++ [r.1] |}
  end.

Fixpoint serve_loop (st : LoopState)
  (rs : list (option muxStreamConn * option error)) : loop_result :=
  match rs with
  | [] => Looping st
  | r :: rest =>
      match serve_iter st r with
      | Looping st' => serve_loop st' rest
      | Returned e st' => Returned e st'
      end
  end.

(** [k] transient errors in a row, whatever they are. *)
Definition transient (codes : list nat)
  : list (option muxStreamConn * option error) :=
  map (λ c, (None, Some (Error c true))) codes.

Definition fatal (r : option muxStreamConn * option error) : bool :=
  match r.2 with
  | Some e => negb (err_temporary e)
  | None => false
  end.

(** *** Named states and values *)

(** The intake queue is at capacity. *)
Definition full (st : MuxState) : Prop :=
  length (buf (connChan (srv st))) = capacity (connChan (srv st)).

Definition a_stream (n : Z) : muxStreamConn :=
  {| Conn := 1; stream_owner := 2; stream_rank := n |}.

Definition full_server : MuxState :=
  {| srv := {| connChan := {| buf := replicate 1024 (a_stream 1);
                              capacity := 1024; closed := false |};
               errChan := make 1 |};
     dropped := [] |}.

(** The delay after [k] transient errors in a row. *)
Definition delay (k : nat) : Z := Nat.iter k backoff 0%Z.

Definition econnaborted : error := Error 103 true.
Definition listener_closed : error := Error 1 false.

(** The error channel is closed and its value has been received. *)
Definition drained (s : MWSSServer) : Prop :=
  buf (errChan s) = [] ∧ closed (errChan s) = true.

(** A stream is queued; then [server.Serve] returns; then [Accept]
    receives its error. *)
Definition with_backlog : MWSSServer :=
  {| connChan := {| buf := [a_stream 1]; capacity := 1024; closed := false |};
     errChan := make 1 |}.

Definition stopping_with_backlog : MWSSServer :=
  {| connChan := connChan with_backlog;
     errChan := {| buf := [listener_closed]; capacity := 1; closed := true |} |}.

Definition stopped_with_backlog : MWSSServer :=
  {| connChan := {| buf := [a_stream 1]; capacity := 1024; closed := false |};
     errChan := {| buf := []; capacity := 1; closed := true |} |}.

End Server.

(** ** Further views of the pool *)

Module Bounds.

Import Pool Scenario.

(** No session of the heap is over its maximum, and every maximum is the
    configured one. *)
Definition within_maximum (max : Z) (w : World) : Prop :=
  ∀ p o, objs w !! p = Some o →
    maxStreamCnt o = max
    ∧ ∃ m, session o = Some m ∧ (0 ≤ Smux.streams m ≤ max)%Z.

(** No session counts a negative number of streams. *)
Definition streams_nonneg (w : World) : Prop :=
  ∀ p o m, objs w !! p = Some o → session o = Some m →
    (0 ≤ Smux.streams m)%Z.

(** The errors the outside gave to a call. *)
Definition given_errors (env : Env) : list (option error) :=
  [parse_err env; dial_err env; ws_err env; smux_err env; open_err env].

(** The candidate of the scan, if there is one, is open: lines 106-120 do
    nothing. *)
Definition no_eviction (w : World) (addr : string) : Prop :=
  ∀ s, first_with_room w (collection w addr) = Some s → closed_at w s = false.

(** The websocket handshake is refused. *)
Definition handshake_refused : Env :=
  MkEnv None None (Some (Error 8 false)) None None None.

(** A pool with one full session for "x" and one for "y"
    ([MaxMWSSStreamCnt = 1]). *)
Definition two_addresses : World :=
  (Dial 1 growcap_double all_good "y" one).2.

End Bounds.

(** ** A caller of the pool: [handleTcpOverMWSS] *)

Module Handlers.

Import Pool.

(** The method [Close] of a stream connection, lines 29-31:
    [c.stream.Close()].  The world counts the streams of a session and
    does not tell them apart, so whether this stream is still open is an
    input: the [Close] of an open stream takes it out of its session and
    returns what smux returns for it ([fin]); on a stream that is closed
    already [Close] changes nothing and returns [io.ErrClosedPipe]. *)
Definition muxStreamConn_Close (still_open : bool) (fin : option error)
  (cc : muxStreamConn) : M (option error) :=
  λ w, if still_open
       then (Ret fin, stream_closes (stream_owner cc) w)
       else (Ret (Some Smux.ErrClosedPipe), w).

Section Handler.
Variable MaxMWSSStreamCnt : Z.
Variable growcap : nat → nat.

(** [transport(wsc, c)], a function of another file of the package: it
    copies between the two connections until one of them ends.  What has
    happened to the heap when it returns, and whether the stream of [wsc]
    is still open then, are inputs. *)
Variable transport : muxStreamConn → ptr → World → World * bool.

(** What smux returns for the [Close] of an open stream. *)
Variable fin : option error.

(** Lines 299-310, with [tr] the transporter of the world.  The deferred
    calls run last registered first, on every way out; the result of
    [wsc.Close()] is dropped. *)
Definition handleTcpOverMWSS (env : Env) (RemoteTCPAddr : string) (c : ptr)
  : M unit :=
  λ w,
    let addr := RemoteTCPAddr +:+ "/tcp/" in
    match Dial MaxMWSSStreamCnt growcap env addr w with
    | (Ret wsc, w1) =>
        let '(w2, still_open) := transport wsc c w1 in
        let w3 := (muxStreamConn_Close still_open fin wsc w2).2 in
        (Ret tt, note_closed c w3)
    | (Fail e, w1) => (Fail e, note_closed c w1)
    | (Panic, w1) => (Panic, note_closed c w1)
    end.

End Handler.

(** A [transport] that returns with the heap as it found it and the
    stream open. *)
Definition quiet_transport (cc : muxStreamConn) (c : ptr) (w : World)
  : World * bool := (w, true).

End Handlers.

(** ** Runs of the server *)

Module ServerRuns.

Import Server.

(** The moves of the server side: an iteration of the loop of some
    session, an [Accept] that returns, and the exit of the goroutine of
    lines 202-208, which happens once. *)
Inductive sstep (st : MuxState) : MuxState → Prop :=
| sstep_mux ev st' : mux_iter st ev = Continue st' → sstep st st'
| sstep_accept r s' :
    Accept (srv st) r s' → sstep st {| srv := s'; dropped := dropped st |}
| sstep_exit err s' :
    closed (errChan (srv st)) = false →
    serve_exit err (srv st) = Some s' →
    sstep st {| srv := s'; dropped := dropped st |}.

(** The result of [Accept] carries no error. *)
Definition no_error (r : option muxStreamConn * option error) : bool :=
  match r.2 with None => true | Some _ => false end.

(** The result of [Accept] carries a transient error. *)
Definition transient_error (r : option muxStreamConn * option error) : bool :=
  match r.2 with Some e => err_temporary e | None => false end.

(** The state of the loop, whether it still runs or has returned. *)
Definition final (r : loop_result) : LoopState :=
  match r with Looping st => st | Returned _ st => st end.

(** The results [Accept] gave before the loop returned. *)
Fixpoint consumed (rs : list (option muxStreamConn * option error))
  : list (option muxStreamConn * option error) :=
  match rs with
  | [] => []
  | r :: rest => if fatal r then [] else r :: consumed rest
  end.

(** Neither channel can be received from. *)
Definition idle (s : MWSSServer) : Prop :=
  buf (connChan s) = [] ∧ buf (errChan s) = [] ∧ closed (connChan s) = false
  ∧ closed (errChan s) = false.

(** The queues of a server built by lines 179-184 are within their
    capacities, and the intake queue is open. *)
Definition bounded (st : MuxState) : Prop :=
  capacity (connChan (srv st)) = 1024 ∧ capacity (errChan (srv st)) = 1
  ∧ length (buf (connChan (srv st))) ≤ 1024
  ∧ length (buf (errChan (srv st))) ≤ 1
  ∧ closed (connChan (srv st)) = false.

(** The error of [server.Serve] is queued on the error channel, which is
    closed, and has not been received. *)
Definition pending (e : error) (s : MWSSServer) : Prop :=
  buf (errChan s) = [e] ∧ closed (errChan s) = true.

(** A value the variable [tempDelay] can hold. *)
Definition delay_ok (d : Z) : Prop :=
  d = 0%Z ∨ (5 * Millisecond ≤ d ≤ 1 * Second)%Z.

(** The server as a whole: the queues, the accept loop of
    [RunLocalMWSSServer], and the history of the streams: those
    [AcceptStream] has given to some [mux], and those for which the send
    of line 273 was taken, both oldest first. *)
Record Sys := MkSys {
  mstate : MuxState;
  loop : LoopState;
  running : bool;
  arrived : list muxStreamConn;
  queued : list muxStreamConn
}.

Definition sys_start : Sys :=
  {| mstate := {| srv := new_server; dropped := [] |};
     loop := loop_start; running := true; arrived := []; queued := [] |}.

Definition still_running (r : loop_result) : bool :=
  match r with Looping _ => true | Returned _ _ => false end.

(** The moves of the whole server: an iteration of some [mux] on a
    stream, an iteration of the accept loop while it has not returned, the
    exit of the goroutine of lines 202-208. *)
Inductive sys_step (s : Sys) : Sys → Prop :=
| sys_mux cc st' :
    mux_iter (mstate s) (inr cc) = Continue st' →
    sys_step s
      {| mstate := st'; loop := loop s; running := running s;
         arrived := arrived s ++ [cc];
         queued := match select_send true (connChan (srv (mstate s))) cc with
                   | Sent _ => queued s ++ [cc]
                   | _ => queued s
                   end |}
| sys_accept r srv' :
    running s = true → Accept (srv (mstate s)) r srv' →
    sys_step s
      {| mstate := {| srv := srv'; dropped := dropped (mstate s) |};
         loop := final (serve_iter (loop s) r);
         running := still_running (serve_iter (loop s) r);
         arrived := arrived s; queued := queued s |}
| sys_exit err srv' :
    closed (errChan (srv (mstate s))) = false →
    serve_exit err (srv (mstate s)) = Some srv' →
    sys_step s
      {| mstate := {| srv := srv'; dropped := dropped (mstate s) |};
         loop := loop s; running := running s;
         arrived := arrived s; queued := queued s |}.

(** The connections given to handlers, oldest first. *)
Definition dispatched (l : LoopState) : list muxStreamConn :=
  omap id (handled l).

(** A stream arrives and is handed to a handler. *)
Definition one_arrived : Sys :=
  {| mstate := {| srv := with_backlog; dropped := [] |};
     loop := loop_start; running := true;
     arrived := [a_stream 1]; queued := [a_stream 1] |}.

Definition one_served : Sys :=
  {| mstate := {| srv := new_server; dropped := [] |};
     loop := {| tempDelay := 0; slept := []; handled := [Some (a_stream 1)] |};
     running := true; arrived := [a_stream 1]; queued := [a_stream 1] |}.

End ServerRuns.

(** * Properties *)

(** ** The session pool *)

Module PoolFacts.

Import Pool Scenario.

Lemma bind_Ret {A B} (m : M A) (k : A → M B) w a w1 :
  m w = (Ret a, w1) → bind m k w = k a w1.
Proof. intros H. unfold bind. by rewrite H. Qed.

Lemma bind_Fail {A B} (m : M A) (k : A → M B) w e w1 :
  m w = (Fail e, w1) → bind m k w = (Fail e, w1).
Proof. intros H. unfold bind. by rewrite H. Qed.

Lemma bind_Ret_inv {A B} (m : M A) (k : A → M B) w b w' :
  bind m k w = (Ret b, w') →
  ∃ a w1, m w = (Ret a, w1) ∧ k a w1 = (Ret b, w').
Proof.
  unfold bind. destruct (m w) as [[a|e|] w1]; [eauto|done|done].
Qed.

Lemma live_deref w p :
  live w p → ∃ o m, deref p w = (Ret o, w) ∧ objs w !! p = Some o ∧ session o = Some m.
Proof.
  intros (o & m & Ho & Hm). exists o, m. unfold deref. by rewrite Ho.
Qed.

Lemma live_not_nil w p : objs w !! nil = None → live w p → p ≠ nil.
Proof. intros Hnil (o & m & Ho & _) ->. congruence. Qed.

Lemma has_room_live w p o m :
  objs w !! p = Some o → session o = Some m →
  has_room w p = negb (Smux.NumStreams m >=? maxStreamCnt o)%Z.
Proof.
  intros Ho Hm. unfold has_room, streams_at, limit_at. rewrite Ho, Hm.
  rewrite Z.geb_leb, Z.ltb_antisym. done.
Qed.

Lemma scan_spec w l : ∀ ok,
  Forall (live w) l → scan l ok w = (Ret (scan_result w l ok), w).
Proof.
  induction l as [|s l IH]; intros ok Hl; [done|].
  inversion_clear Hl as [|?? Hs Hl'].
  destruct (live_deref _ _ Hs) as (o & m & Hd & Ho & Hm).
  cbn [scan]. rewrite (bind_Ret _ _ _ _ _ Hd), Hm.
  unfold scan_result, first_with_room. cbn [List.find].
  rewrite (has_room_live _ _ _ _ Ho Hm).
  destruct (Smux.NumStreams m >=? maxStreamCnt o)%Z; cbn [negb]; [|done].
  rewrite (IH false Hl'). unfold scan_result, first_with_room.
  destruct (List.find _ l); [done|]. by destruct l.
Qed.

Lemma find_idx_Some s l : ∀ k i,
  find_idx s l k = Some i →
  k ≤ i ∧ l !! (i - k) = Some s ∧ ∀ j, j < i - k → l !! j ≠ Some s.
Proof.
  induction l as [|x l IH]; intros k i; cbn [find_idx]; [done|].
  case_decide as Hx.
  - intros [= <-]. subst x. replace (k - k) with 0 by lia.
    split; [lia|]. split; [done|]. intros j Hj. lia.
  - intros Hf. destruct (IH _ _ Hf) as (Hk & Hi & Hmin).
    split; [lia|]. replace (i - k) with (S (i - S k)) by lia.
    split; [done|]. intros [|j] Hj; cbn; [congruence|].
    apply Hmin. lia.
Qed.

Lemma find_idx_elem s l : ∀ k, s ∈ l → is_Some (find_idx s l k).
Proof.
  induction l as [|x l IH]; intros k Hin; [by apply elem_of_nil in Hin|].
  cbn [find_idx]. case_decide; [eauto|].
  apply IH. apply elem_of_cons in Hin as [->|]; done.
Qed.

Lemma first_with_room_elem w l s :
  first_with_room w l = Some s → s ∈ l ∧ has_room w s = true.
Proof.
  unfold first_with_room. intros H. apply find_some in H as [Hin Hr].
  split; [by apply list_elem_of_In|done].
Qed.

Lemma slice_ok_length w sl : slice_ok w sl → length (elems w sl) = len sl.
Proof. intros (H1 & H2 & _). unfold elems. rewrite length_take. lia. Qed.

Lemma closed_at_IsClosed w p :
  live w p → muxSession_IsClosed p w = (Ret (closed_at w p), w).
Proof.
  intros (o & m & Ho & Hm). unfold muxSession_IsClosed, bind, deref, closed_at.
  by rewrite Ho, Hm.
Qed.

(** The effect of lines 106-120 when the candidate is closed. *)
Lemma evict_closed w sl s ok :
  slice_ok w sl → live w s → objs w !! nil = None → s ∈ elems w sl → closed_at w s = true →
  ∃ i x, find_idx s (elems w sl) 0 = Some i
         ∧ elems w sl !! (len sl - 1) = Some x
         ∧ i < len sl
         ∧ evict sl s ok w
           = (Ret (reslice sl (len sl - 1), false),
              write_array (base sl) (<[i := x]> (backing w sl)) w).
Proof.
  intros Hok Hs Hnil Hin Hc.
  destruct (find_idx_elem s _ 0 Hin) as [i Hi].
  destruct (find_idx_Some _ _ _ _ Hi) as (_ & Hi' & _).
  rewrite Nat.sub_0_r in Hi'. apply lookup_lt_Some in Hi' as Hlt.
  rewrite (slice_ok_length _ _ Hok) in Hlt.
  destruct (lookup_lt_is_Some_2 (elems w sl) (len sl - 1)) as [x Hx].
  { rewrite (slice_ok_length _ _ Hok). lia. }
  exists i, x. split; [done|]. split; [done|]. split; [done|].
  unfold evict. case_decide as Hn; [by apply live_not_nil in Hs|].
  rewrite (bind_Ret _ _ _ _ _ (closed_at_IsClosed _ _ Hs)), Hc.
  unfold bind at 1. cbn [get]. rewrite Hi.
  unfold bind, index, index_set, set_array. rewrite Hx.
  by rewrite decide_True by done.
Qed.

Lemma evict_open w sl s ok :
  live w s → closed_at w s = false → evict sl s ok w = (Ret (sl, ok), w).
Proof.
  intros Hs Hc. unfold evict. case_decide; [done|].
  by rewrite (bind_Ret _ _ _ _ _ (closed_at_IsClosed _ _ Hs)), Hc.
Qed.

Lemma evict_nil w sl ok : evict sl nil ok w = (Ret (sl, ok), w).
Proof. unfold evict. by rewrite decide_True. Qed.

Lemma Forall_take_insert {A} (P : A → Prop) n i x (l : list A) :
  Forall P (take n l) → P x → Forall P (take n (<[i := x]> l)).
Proof.
  rewrite !Forall_lookup. intros Hl Hx j y Hj.
  apply lookup_take_Some in Hj as [Hj Hlt].
  apply list_lookup_insert_Some in Hj as [(-> & -> & _)|[_ Hj]]; [done|].
  apply (Hl j). apply lookup_take_Some. done.
Qed.

Lemma upd1_live w w' p : upd1 w w' → live w p → live w' p.
Proof.
  intros Hu (o & m & Ho & Hm).
  destruct Hu as [| |q o' _ _ [m' Hm']| |]; try (by exists o, m).
  destruct (decide (q = p)) as [->|Hne].
  - exists o', m'. cbn. by rewrite lookup_insert_eq.
  - exists o, m. cbn. by rewrite lookup_insert_ne.
Qed.

Lemma Forall_live_mono w w' l :
  upd1 w w' → Forall (live w) l → Forall (live w') l.
Proof. intros Hu Hl. eapply Forall_impl; [done|]. intros p. by apply upd1_live. Qed.

Lemma backing_nonempty_lt w sl :
  wf w → 0 < length (backing w sl) → base sl ≠ nil ∧ base sl < brk w.
Proof.
  intros Hwf Hlen. unfold backing in Hlen.
  split.
  - intros Heq. rewrite Heq, (wf_arrays_nil _ Hwf) in Hlen. cbn in Hlen. lia.
  - destruct (decide (base sl < brk w)) as [|Hge]; [done|].
    rewrite (wf_arrays_fresh _ Hwf) in Hlen by lia. cbn in Hlen. lia.
Qed.

Lemma upd1_slice_ok w w' sl :
  wf w → upd1 w w' → slice_ok w sl → slice_ok w' sl.
Proof.
  intros Hwf Hu (H1 & H2 & H3). pose proof (Forall_live_mono _ _ _ Hu H3) as H3'.
  destruct Hu as [| |q o' _ _ _|q i x Hx Hi|a]; try done.
  - (* write into an array *)
    unfold slice_ok, elems, backing in *. cbn [arrays write_array].
    destruct (decide (q = base sl)) as [->|Hne].
    + rewrite lookup_insert_eq. simpl. rewrite length_insert.
      split; [done|]. split; [done|].
      apply Forall_take_insert; [done|].
      by apply (upd1_live w _ x (upd_write w (base sl) i x Hx Hi)).
    + by rewrite lookup_insert_ne.
  - (* a new array *)
    unfold slice_ok, elems, backing in *. cbn [arrays write_array bump].
    destruct (decide (brk w = base sl)) as [Heq|Hne].
    + rewrite Heq, lookup_insert_eq. simpl.
      rewrite <- Heq, (wf_arrays_fresh _ Hwf) in H2 by lia. simpl in H2.
      assert (len sl = 0) as -> by lia. rewrite take_0.
      split; [lia|]. split; [lia|]. constructor.
    + by rewrite lookup_insert_ne.
Qed.

Lemma upd1_sessions w w' : upd1 w w' → sessions w' = sessions w.
Proof. by destruct 1. Qed.

Lemma upd1_brk w w' : upd1 w w' → brk w ≤ brk w'.
Proof. destruct 1; cbn; lia. Qed.

Lemma upd1_wf w w' : wf w → upd1 w w' → wf w'.
Proof.
  intros Hwf Hu.
  assert (∀ addr sl, sessions w' !! addr = Some sl → 0 < len sl ∧ slice_ok w' sl) as Hsl.
  { intros addr sl. rewrite (upd1_sessions _ _ Hu). intros Hs.
    destruct (wf_slices _ Hwf _ _ Hs) as [? ?].
    split; [done|]. by apply (upd1_slice_ok w). }
  assert (∀ a1 a2 sl1 sl2, sessions w' !! a1 = Some sl1 → sessions w' !! a2 = Some sl2 → base sl1 = base sl2 → a1 = a2) as Hsep.
  { rewrite (upd1_sessions _ _ Hu). apply (wf_sep _ Hwf). }
  destruct Hwf as [Hb Hon Han Hof Haf _ _].
  destruct Hu as [| |q o' Hq Hlt _|q i x Hx Hi|a]; constructor; cbn; try done.
  - lia.
  - intros p Hp. apply Hof. lia.
  - intros p Hp. apply Haf. lia.
  - by rewrite lookup_insert_ne.
  - intros p Hp. rewrite lookup_insert_ne by lia. by apply Hof.
  - rewrite lookup_insert_ne; [done|]. intros ->. rewrite Han in Hi. cbn in Hi. lia.
  - intros p Hp. rewrite lookup_insert_ne; [by apply Haf|].
    intros ->. rewrite Haf in Hi by done. cbn in Hi. lia.
  - lia.
  - rewrite lookup_insert_ne; [done|]. unfold nil. lia.
  - intros p Hp. apply Hof. lia.
  - intros p Hp. rewrite lookup_insert_ne by lia. apply Haf. lia.
Qed.

Lemma upd_wf w w' : wf w → upd w w' → wf w'.
Proof. intros Hwf Hu. induction Hu; eauto using upd1_wf. Qed.

Lemma upd_sessions w w' : upd w w' → sessions w' = sessions w.
Proof.
  induction 1 as [|??? H1 ? IH]; [done|]. rewrite IH. by apply upd1_sessions.
Qed.

Lemma upd_brk w w' : upd w w' → brk w ≤ brk w'.
Proof.
  induction 1 as [|??? H1 ? IH]; [done|]. apply upd1_brk in H1. lia.
Qed.

Lemma upd_live w w' p : upd w w' → live w p → live w' p.
Proof. induction 1; eauto using upd1_live. Qed.

Lemma upd_slice_ok w w' sl : wf w → upd w w' → slice_ok w sl → slice_ok w' sl.
Proof.
  intros Hwf Hu. induction Hu; [done|].
  eauto using upd1_slice_ok, upd1_wf.
Qed.

Lemma upd_once w w' : upd1 w w' → upd w w'.
Proof. apply rtc_once. Qed.

Lemma upd_trans w1 w2 w3 : upd w1 w2 → upd w2 w3 → upd w1 w3.
Proof. apply rtc_trans. Qed.

Section DialFacts.
Variable MaxMWSSStreamCnt : Z.
Variable growcap : nat → nat.

Local Abbreviation append := (append growcap).
Local Abbreviation create := (create MaxMWSSStreamCnt growcap).
Local Abbreviation choose := (choose MaxMWSSStreamCnt growcap).
Local Abbreviation Dial := (Dial MaxMWSSStreamCnt growcap).
Local Abbreviation with_new_session := (with_new_session MaxMWSSStreamCnt).
Local Abbreviation reachable := (reachable MaxMWSSStreamCnt growcap).

Lemma append_in_place sl x w :
  len sl < cap sl →
  append sl x w
  = (Ret (MkSlice (base sl) (S (len sl)) (cap sl)),
     write_array (base sl) (<[len sl := x]> (backing w sl)) w).
Proof. intros H. unfold Pool.append. by rewrite decide_True. Qed.

Lemma append_realloc sl x w :
  ¬ len sl < cap sl →
  append sl x w
  = (Ret (MkSlice (brk w) (S (len sl))
            (max (S (len sl)) (growcap (cap sl)))),
     write_array (brk w)
       (elems w sl ++ x :: replicate (max (S (len sl)) (growcap (cap sl)) - S (len sl)) nil)
       (bump w)).
Proof. intros H. unfold Pool.append. by rewrite decide_False. Qed.

Lemma append_spec sl x w :
  wf w → slice_ok w sl → live w x →
  ∃ sl' w1, append sl x w = (Ret sl', w1)
    ∧ upd w w1 ∧ slice_ok w1 sl' ∧ len sl' = S (len sl)
    ∧ (base sl' = base sl ∨ base sl' = brk w)
    ∧ elems w1 sl' = elems w sl ++ [x]
    ∧ objs w1 = objs w.
Proof.
  intros Hwf Hok Hx. pose proof Hok as (H1 & H2 & H3).
  destruct (decide (len sl < cap sl)) as [Hlt|Hge].
  - eexists _, _. split; [by apply append_in_place|].
    assert (upd1 w (write_array (base sl) (<[len sl := x]> (backing w sl)) w)) as Hu.
    { apply upd_write; [done|]. fold (backing w sl). lia. }
    assert (elems (write_array (base sl) (<[len sl:=x]> (backing w sl)) w)
              {| base := base sl; len := S (len sl); cap := cap sl |}
            = elems w sl ++ [x]) as He.
    { unfold elems, backing at 1. cbn. rewrite lookup_insert_eq. simpl.
      rewrite (take_S_r _ _ x) by (apply list_lookup_insert_eq; lia).
      by rewrite take_insert_ge by lia. }
    split; [by apply upd_once|]. split; [|by eauto].
    split; [cbn; lia|]. split.
    { cbn. unfold backing at 1. cbn. rewrite lookup_insert_eq. simpl.
      rewrite length_insert. lia. }
    rewrite He. apply Forall_app. split.
    + by apply (Forall_live_mono w).
    + repeat constructor. by apply (upd1_live w).
  - eexists _, _. split; [by apply append_realloc|].
    set (a := elems w sl ++ _).
    assert (upd1 w (write_array (brk w) a (bump w))) as Hu by apply upd_new.
    assert (length (elems w sl) = len sl) as Hlen by by apply slice_ok_length.
    assert (elems (write_array (brk w) a (bump w))
              {| base := brk w; len := S (len sl);
                 cap := max (S (len sl)) (growcap (cap sl)) |}
            = elems w sl ++ [x]) as He.
    { unfold elems at 1, backing. cbn. rewrite lookup_insert_eq. simpl.
      subst a. rewrite take_app_ge by lia. rewrite Hlen.
      by replace (S (len sl) - len sl) with 1 by lia. }
    split; [by apply upd_once|]. split; [|by eauto].
    split; [cbn; lia|]. split.
    { cbn. unfold backing. cbn. rewrite lookup_insert_eq. simpl.
      subst a. rewrite length_app. cbn. rewrite length_replicate. lia. }
    rewrite He. apply Forall_app. split.
    + by apply (Forall_live_mono w).
    + repeat constructor. by apply (upd1_live w).
Qed.

Lemma create_ok_eq env sl s w :
  creation_ok env →
  create env sl s false w
  = bind (append sl (S (brk w))) (λ sl', ret (sl', S (brk w)))
      (with_new_session w).
Proof.
  intros (Hp & Hd & Hw & Hs). unfold Pool.create, initSession_or_close, initSession.
  rewrite Hp, Hd, Hw, Hs. done.
Qed.

Lemma with_new_session_upd w : upd w (with_new_session w).
Proof.
  unfold Pool.with_new_session.
  eapply rtc_l; [apply upd_bump|]. eapply rtc_l; [apply upd_bump|].
  apply upd_once. apply upd_obj; cbn; [done|lia|eauto].
Qed.

Lemma with_new_session_live w : live (with_new_session w) (S (brk w)).
Proof.
  eexists _, _. unfold Pool.with_new_session. cbn.
  rewrite lookup_insert_eq. done.
Qed.

Lemma create_spec env sl s w r w1 :
  wf w → slice_ok w sl →
  create env sl s false w = (r, w1) →
  upd w w1 ∧
  match r with
  | Panic => False
  | Fail _ => ¬ creation_ok env
  | Ret (sl', s') =>
      creation_ok env ∧ s' = S (brk w) ∧ live w1 s' ∧ slice_ok w1 sl'
      ∧ len sl' = S (len sl)
      ∧ (base sl' = base sl ∨ brk w ≤ base sl')
      ∧ elems w1 sl' = elems w sl ++ [s']
      ∧ objs w1 = objs (with_new_session w)
  end.
Proof.
  intros Hwf Hok.
  destruct (parse_err env) as [e|] eqn:Hp.
  { unfold Pool.create. rewrite Hp. intros [= <- <-].
    split; [done|]. intros (? & _). congruence. }
  destruct (dial_err env) as [e|] eqn:Hd.
  { unfold Pool.create. rewrite Hp, Hd. intros [= <- <-].
    split; [done|]. intros (? & ? & _). congruence. }
  destruct (ws_err env) as [e|] eqn:Hw.
  { unfold Pool.create, initSession_or_close, initSession.
    rewrite Hp, Hd, Hw. intros [= <- <-]. split.
    - eapply rtc_l; [apply upd_bump|]. apply upd_once, upd_note.
    - intros (? & ? & ? & _). congruence. }
  destruct (smux_err env) as [e|] eqn:Hs.
  { unfold Pool.create, initSession_or_close, initSession.
    rewrite Hp, Hd, Hw, Hs. intros [= <- <-]. split.
    - eapply rtc_l; [apply upd_bump|]. apply upd_once, upd_note.
    - intros (? & ? & ? & ?). congruence. }
  assert (creation_ok env) as Hc by done.
  rewrite (create_ok_eq _ _ _ _ Hc).
  pose proof (with_new_session_upd w) as Hu.
  destruct (append_spec sl (S (brk w)) (with_new_session w))
    as (sl' & w2 & Ha & Hu2 & Hok2 & Hlen & Hbase & He & Ho).
  { by apply (upd_wf w). } { by apply (upd_slice_ok w). }
  { apply with_new_session_live. }
  rewrite (bind_Ret _ _ _ _ _ Ha). intros [= <- <-].
  split; [by eapply upd_trans|].
  split; [done|]. split; [done|].
  split; [apply (upd_live _ _ _ Hu2), with_new_session_live|].
  split; [done|]. split; [done|]. split.
  { destruct Hbase as [-> | ->]; [by left|right]. cbn. lia. }
  split; [|done]. rewrite He. done.
Qed.

Lemma obj_addr w p o : wf w → objs w !! p = Some o → p ≠ nil ∧ p < brk w.
Proof.
  intros Hwf Ho. split.
  - intros ->. rewrite (wf_objs_nil _ Hwf) in Ho. done.
  - destruct (decide (p < brk w)) as [|Hge]; [done|].
    rewrite (wf_objs_fresh _ Hwf) in Ho by lia. done.
Qed.

Lemma closed_at_write w p o m :
  session o = Some m → closed_at (write_obj p o w) p = Smux.IsClosed m.
Proof. intros Hm. unfold closed_at. cbn. by rewrite lookup_insert_eq, Hm. Qed.

Lemma streams_at_write w p o m :
  session o = Some m → streams_at (write_obj p o w) p = Smux.NumStreams m.
Proof. intros Hm. unfold streams_at. cbn. by rewrite lookup_insert_eq, Hm. Qed.

Lemma write_obj_id p o w : objs w !! p = Some o → write_obj p o w = w.
Proof.
  intros H. destruct w. unfold write_obj. cbn in *. f_equal. by apply insert_id.
Qed.

(** [Close] on a session that is closed already. *)
Lemma muxSession_Close_closed ce p w o m :
  objs w !! p = Some o → session o = Some m → Smux.IsClosed m = true →
  muxSession_Close ce p w = (Ret (Some Smux.ErrClosedPipe), w).
Proof.
  intros Ho Hm Hd. unfold muxSession_Close, bind, deref. rewrite Ho, Hm.
  unfold Smux.Close. rewrite Hd. cbn. unfold set_obj.
  rewrite write_obj_id; [done|]. rewrite Ho. f_equal.
  destruct o. cbn in *. by subst.
Qed.

(** [Close] on an open session. *)
Lemma muxSession_Close_open ce p w o m :
  objs w !! p = Some o → session o = Some m → Smux.IsClosed m = false →
  muxSession_Close ce p w
  = (Ret ce,
     note_closed (conn o)
       (write_obj p {| conn := conn o;
                       session := Some {| Smux.die := true;
                                          Smux.streams := Smux.streams m |};
                       maxStreamCnt := maxStreamCnt o |} w)).
Proof.
  intros Ho Hm Hd. unfold muxSession_Close, bind, deref. rewrite Ho, Hm.
  unfold Smux.Close. rewrite Hd. reflexivity.
Qed.

(** [Close] changes nothing, or closes an open session and its
    connection. *)
Lemma muxSession_Close_cases ce p w :
  (muxSession_Close ce p w).2 = w
  ∨ ∃ o m, objs w !! p = Some o ∧ session o = Some m
           ∧ Smux.IsClosed m = false
           ∧ muxSession_Close ce p w
             = (Ret ce,
                note_closed (conn o)
                  (write_obj p {| conn := conn o;
                                  session := Some {| Smux.die := true;
                                                     Smux.streams := Smux.streams m |};
                                  maxStreamCnt := maxStreamCnt o |} w)).
Proof.
  destruct (objs w !! p) as [o|] eqn:Ho.
  2:{ left. unfold muxSession_Close, bind, deref. by rewrite Ho. }
  destruct (session o) as [m|] eqn:Hm.
  2:{ left. unfold muxSession_Close, bind, deref. by rewrite Ho, Hm. }
  destruct (Smux.IsClosed m) eqn:Hd.
  - left. by rewrite (muxSession_Close_closed _ _ _ _ _ Ho Hm Hd).
  - right. exists o, m. split; [done|]. split; [done|]. split; [done|].
    by apply muxSession_Close_open.
Qed.

Lemma muxSession_Close_live ce p w :
  live w p → ∃ r w', muxSession_Close ce p w = (Ret r, w').
Proof.
  intros (o & m & Ho & Hm). destruct (Smux.IsClosed m) eqn:Hd.
  - rewrite (muxSession_Close_closed _ _ _ _ _ Ho Hm Hd). eauto.
  - rewrite (muxSession_Close_open _ _ _ _ _ Ho Hm Hd). eauto.
Qed.

Lemma GetConn_spec env s w r w1 :
  wf w → live w s →
  GetConn_or_close env s w = (r, w1) →
  upd w w1 ∧ arrays w1 = arrays w
  ∧ (∀ p, p ≠ s → objs w1 !! p = objs w !! p)
  ∧ limit_at w1 s = limit_at w s ∧
  match r with
  | Panic => False
  | Fail e => closed_at w1 s = true
              ∧ (closed_at w s = true ∨ open_err env = Some e)
  | Ret cc => stream_owner cc = s ∧ closed_at w s = false
              ∧ open_err env = None
              ∧ closed_at w1 s = false
              ∧ streams_at w1 s = (streams_at w s + 1)%Z
              ∧ stream_rank cc = streams_at w1 s
  end.
Proof.
  intros Hwf (o & m & Ho & Hm).
  destruct (obj_addr _ _ _ Hwf Ho) as [Hn Hlt].
  assert (∀ o', maxStreamCnt o' = maxStreamCnt o →
            (∀ p, p ≠ s → objs (write_obj s o' w) !! p = objs w !! p)
            ∧ limit_at (write_obj s o' w) s = limit_at w s) as Hframe.
  { intros o' Hmax. split.
    - intros p Hp. cbn. by rewrite lookup_insert_ne.
    - unfold limit_at. cbn. by rewrite lookup_insert_eq, Ho. }
  unfold GetConn_or_close, muxSession_GetConn. unfold bind at 1, deref.
  rewrite Ho, Hm. unfold closed_at at 2 4, streams_at at 2. rewrite Ho, Hm.
  unfold Smux.OpenStream, Smux.NumStreams.
  destruct (Smux.IsClosed m) eqn:Hd.
  - unfold fail at 1. unfold bind.
    rewrite (muxSession_Close_closed _ _ _ _ _ Ho Hm Hd). intros [= <- <-].
    split; [done|]. split; [done|]. split; [done|]. split; [done|].
    split; [|by left]. unfold closed_at. by rewrite Ho, Hm.
  - destruct (open_err env) as [e|].
    + unfold fail at 1. unfold bind.
      rewrite (muxSession_Close_open _ _ _ _ _ Ho Hm Hd). intros [= <- <-].
      set (o' := {| conn := conn o;
                    session := Some {| Smux.die := true;
                                       Smux.streams := Smux.streams m |};
                    maxStreamCnt := maxStreamCnt o |}).
      split.
      { apply (rtc_l _ _ (write_obj s o' w)); [|apply upd_once, upd_note].
        apply upd_obj; [done|done|subst o'; cbn; eauto]. }
      split; [done|].
      destruct (Hframe o' eq_refl) as [? ?].
      split; [done|]. split; [done|].
      split; [|by right]. unfold closed_at; cbn; by rewrite lookup_insert_eq.
    + destruct m as [d n]. unfold Smux.IsClosed in Hd. cbn in Hd. subst d.
      cbn. intros [= <- <-].
      split; [apply upd_once, upd_obj; eauto|]. split; [done|].
      destruct (Hframe {| conn := conn o; session := Some (Smux.MkSession false (n + 1)); maxStreamCnt := maxStreamCnt o |} eq_refl) as [? ?].
      split; [done|]. split; [done|].
      repeat split; try done;
        unfold closed_at, streams_at; cbn; rewrite ?lookup_insert_eq, ?Ho, ?Hm; done.
Qed.

Lemma take_pred_insert {A} (arr : list A) n i x :
  i < n → n ≤ length arr →
  take (n - 1) (<[i := x]> arr) = take (n - 1) (<[i := x]> (take n arr)).
Proof.
  intros Hi Hn. rewrite <- take_insert_lt by done.
  rewrite take_take. f_equal. lia.
Qed.

Lemma choose_spec env addr w r w1 :
  wf w →
  choose env addr w = (r, w1) →
  let sl0 := default nil_slice (sessions w !! addr) in
  let l := collection w addr in
  upd w w1 ∧
  match r with
  | Panic => False
  | Fail _ => ¬ creation_ok env
  | Ret (sl, s) =>
      live w1 s ∧ slice_ok w1 sl ∧ 0 < len sl
      ∧ (base sl = base sl0 ∨ brk w ≤ base sl)
      ∧ ((first_with_room w l = Some s ∧ closed_at w s = false
          ∧ w1 = w ∧ sl = sl0 ∧ is_Some (sessions w !! addr))
         ∨ (creation_ok env ∧ s = S (brk w)
            ∧ objs w1 = objs (with_new_session w)
            ∧ ((first_with_room w l = None ∧ elems w1 sl = l ++ [s])
               ∨ ∃ s0 i x, first_with_room w l = Some s0
                   ∧ closed_at w s0 = true
                   ∧ find_idx s0 l 0 = Some i
                   ∧ l !! (length l - 1) = Some x
                   ∧ elems w1 sl = swap_out l i x ++ [s])))
  end.
Proof.
  intros Hwf Hch sl0 l.
  assert (slice_ok w sl0 ∧ (is_Some (sessions w !! addr) → 0 < len sl0)) as [Hok0 Hpos].
  { subst sl0. destruct (sessions w !! addr) as [sl|] eqn:Hs; cbn.
    - destruct (wf_slices _ Hwf _ _ Hs). done.
    - split; [|by intros [? ?]]. unfold slice_ok, elems. cbn.
      split; [lia|]. split; [lia|]. constructor. }
  assert (Forall (live w) l) as Hlive by apply Hok0.
  assert (length l = len sl0) as Hlen by by apply slice_ok_length.
  revert Hch. unfold Pool.choose. unfold bind at 1. cbn [get].
  fold sl0. fold (collection w addr). fold l.
  rewrite (bind_Ret _ _ _ _ _ (scan_spec w l _ Hlive)).
  unfold scan_result.
  destruct (first_with_room w l) as [s0|] eqn:Hf.
  - destruct (first_with_room_elem _ _ _ Hf) as [Hin _].
    assert (live w s0) as Hs0.
    { rewrite Forall_forall in Hlive. by apply Hlive. }
    assert (0 < len sl0) as Hpos0.
    { destruct l; [by apply elem_of_nil in Hin|]. cbn in Hlen. lia. }
    destruct (closed_at w s0) eqn:Hc.
    + destruct (evict_closed w sl0 s0 true Hok0 Hs0 (wf_objs_nil _ Hwf) Hin Hc)
        as (i & x & Hi & Hx & Hilt & Hev).
      rewrite (bind_Ret _ _ _ _ _ Hev).
      set (wa := write_array _ _ w).
      assert (l !! (len sl0 - 1) = Some x) as Hx' by done.
      assert (upd1 w wa) as Hu.
      { apply upd_write.
        - rewrite Forall_forall in Hlive. apply Hlive.
          by eapply list_elem_of_lookup_2.
        - fold (backing w sl0). destruct Hok0 as (? & ? & _). lia. }
      assert (slice_ok wa (reslice sl0 (len sl0 - 1))) as Hoka.
      { destruct (upd1_slice_ok _ _ _ Hwf Hu Hok0) as (A1 & A2 & A3).
        split; [cbn; lia|]. split; [done|].
        unfold elems in *. cbn [reslice len base].
        replace (len sl0 - 1) with (min (len sl0 - 1) (len sl0)) by lia.
        rewrite <- take_take. by apply Forall_take. }
      assert (elems wa (reslice sl0 (len sl0 - 1)) = swap_out l i x) as Hela.
      { unfold elems at 1, backing at 1. subst wa. cbn.
        rewrite lookup_insert_eq. simpl. unfold swap_out. rewrite Hlen.
        subst l. unfold collection. fold sl0. unfold elems.
        apply take_pred_insert; [done|]. destruct Hok0 as (? & ? & _). lia. }
      intros Hcr.
      apply create_spec in Hcr as [Hu2 Hr]; [|by apply (upd1_wf w)|done].
      split; [by eapply rtc_l|].
      destruct r as [[sl s]|e|]; [|done|done].
      destruct Hr as (Hcok & -> & Hl1 & Hok1 & Hlen1 & Hb1 & He1 & Ho1).
      split; [done|]. split; [done|]. split; [lia|].
      split; [destruct Hb1 as [Hb1|Hb1]; [by left|by right]|].
      right. split; [done|]. split; [done|]. split; [done|].
      right. exists s0, i, x. rewrite Hlen. rewrite He1, Hela. done.
    + rewrite (bind_Ret _ _ _ _ _ (evict_open w sl0 s0 true Hs0 Hc)).
      unfold Pool.create. intros [= <- <-].
      split; [done|]. split; [done|]. split; [done|]. split; [done|].
      split; [by left|]. left. repeat split; try done.
      destruct (sessions w !! addr) eqn:Hs; [eauto|].
      exfalso. subst sl0. cbn in Hpos0. lia.
  - rewrite (bind_Ret _ _ _ _ _ (evict_nil w sl0 _)).
    assert ((match l with [] => bool_decide (is_Some (sessions w !! addr)) | _ :: _ => false end) = false) as ->.
    { destruct l; [|done]. apply bool_decide_eq_false. intros Hs.
      apply Hpos in Hs. cbn in Hlen. lia. }
    intros Hcr. apply create_spec in Hcr as [Hu2 Hr]; [|done|done].
    split; [done|].
    destruct r as [[sl s]|e|]; [|done|done].
    destruct Hr as (Hcok & -> & Hl1 & Hok1 & Hlen1 & Hb1 & He1 & Ho1).
    split; [done|]. split; [done|]. split; [lia|].
    split; [done|]. right. split; [done|]. split; [done|]. split; [done|].
    left. done.
Qed.

Lemma elems_arrays w w' sl : arrays w' = arrays w → elems w' sl = elems w sl.
Proof. intros H. unfold elems, backing. by rewrite H. Qed.

Lemma closed_at_objs w w' p : objs w' = objs w → closed_at w' p = closed_at w p.
Proof. intros H. unfold closed_at. by rewrite H. Qed.

Lemma streams_at_objs w w' p : objs w' = objs w → streams_at w' p = streams_at w p.
Proof. intros H. unfold streams_at. by rewrite H. Qed.

Lemma slice_in_heap w sl :
  wf w → 0 < len sl → slice_ok w sl → base sl ≠ nil ∧ base sl < brk w.
Proof.
  intros Hwf Hpos (H1 & H2 & _). apply backing_nonempty_lt; [done|lia].
Qed.

Lemma write_map_wf addr sl w :
  wf w → slice_ok w sl → 0 < len sl →
  (∀ a2 sl2, a2 ≠ addr → sessions w !! a2 = Some sl2 → base sl2 ≠ base sl) →
  wf (write_map addr sl w).
Proof.
  intros Hwf Hok Hpos Hsep. destruct Hwf as [Hb Hon Han Hof Haf Hsl Hs].
  constructor; cbn; try done.
  - intros a sl'. destruct (decide (addr = a)) as [<-|Hne].
    + rewrite lookup_insert_eq. intros [= <-]. done.
    + rewrite lookup_insert_ne by done. apply Hsl.
  - intros a1 a2 sl1 sl2.
    destruct (decide (addr = a1)) as [<-|Hne1];
      destruct (decide (addr = a2)) as [<-|Hne2]; [done|..].
    + rewrite lookup_insert_eq, lookup_insert_ne by done.
      intros [= <-] H2 Hbase. exfalso. by eapply (Hsep a2 sl2).
    + rewrite lookup_insert_eq, lookup_insert_ne by done.
      intros H1 [= <-] Hbase. exfalso. by eapply (Hsep a1 sl1).
    + rewrite !lookup_insert_ne by done. apply Hs.
Qed.

Lemma first_with_room_None w l :
  first_with_room w l = None → Forall (λ s, has_room w s = false) l.
Proof.
  unfold first_with_room. intros H. apply Forall_forall. intros s Hs.
  apply list_elem_of_In in Hs. by apply (find_none _ _ H).
Qed.

(** What one call of [Dial] does to a well-formed pool. *)
Lemma Dial_spec env addr w r w' :
  wf w →
  Dial env addr w = (r, w') →
  let l := collection w addr in
  wf w' ∧
  match r with
  | Panic => False
  | Fail e => sessions w' = sessions w
              ∧ (¬ creation_ok env ∨ open_err env = Some e)
  | Ret cc =>
      let s := stream_owner cc in
      closed_at w' s = false ∧ open_err env = None
      ∧ (∀ p, p ≠ s → objs w' !! p = objs w !! p)
      ∧ ((first_with_room w l = Some s ∧ closed_at w s = false
          ∧ collection w' addr = l
          ∧ streams_at w' s = (streams_at w s + 1)%Z
          ∧ limit_at w' s = limit_at w s)
         ∨ (creation_ok env ∧ s = S (brk w) ∧ objs w !! s = None
            ∧ streams_at w' s = 1%Z
            ∧ limit_at w' s = MaxMWSSStreamCnt
            ∧ ((first_with_room w l = None ∧ collection w' addr = l ++ [s])
               ∨ ∃ s0 i x, first_with_room w l = Some s0
                   ∧ closed_at w s0 = true
                   ∧ find_idx s0 l 0 = Some i
                   ∧ l !! (length l - 1) = Some x
                   ∧ collection w' addr = swap_out l i x ++ [s])))
  end.
Proof.
  intros Hwf HD l. unfold Pool.Dial, bind in HD.
  destruct (choose env addr w) as [rc w1] eqn:Hch.
  destruct (choose_spec _ _ _ _ _ Hwf Hch) as [Hu1 Hrc].
  pose proof (upd_wf _ _ Hwf Hu1) as Hwf1.
  destruct rc as [[sl s]|e|]; [|injection HD as <- <-|done].
  2:{ split; [done|]. split; [by apply upd_sessions|by left]. }
  destruct Hrc as (Hlive & Hok & Hpos & Hbase & Hcases).
  destruct (GetConn_or_close env s w1) as [rg w2] eqn:Hg.
  destruct (GetConn_spec _ _ _ _ _ Hwf1 Hlive Hg)
    as (Hu2 & Harr & Hfr & Hlim & Hrg).
  pose proof (upd_wf _ _ Hwf1 Hu2) as Hwf2.
  assert (closed_at w1 s = false) as Hopen.
  { destruct Hcases as [(_ & Hc & -> & _)|(_ & -> & Ho & _)]; [done|].
    rewrite (closed_at_objs _ _ _ Ho). unfold closed_at, Pool.with_new_session.
    cbn. by rewrite lookup_insert_eq. }
  destruct rg as [cc|e|]; [|injection HD as <- <-|done].
  2:{ split; [done|]. split.
      - rewrite (upd_sessions _ _ Hu2). by apply upd_sessions.
      - right. destruct Hrg as [_ [Hc|He]]; [congruence|done]. }
  cbn in HD. injection HD as <- <-.
  destruct Hrg as (Hown & Hc1 & Hoe & Hc2 & Hst & _).
  assert (collection (write_map addr sl w2) addr = elems w1 sl) as Hcol.
  { unfold collection. cbn. rewrite lookup_insert_eq. cbn.
    by apply elems_arrays. }
  split.
  - apply write_map_wf; [done|by apply (upd_slice_ok w1)|done|].
    intros a2 sl2 Hne Hs2.
    rewrite (upd_sessions _ _ Hu2), (upd_sessions _ _ Hu1) in Hs2.
    destruct (wf_slices _ Hwf _ _ Hs2) as [Hp2 Hok2].
    destruct (slice_in_heap _ _ Hwf Hp2 Hok2) as [Hn2 Hlt2].
    destruct Hbase as [Hb|Hb]; [|lia].
    rewrite Hb. destruct (sessions w !! addr) as [sl0|] eqn:Hs0; cbn.
    + intros Heq. apply Hne. by apply (wf_sep _ Hwf _ _ _ _ Hs2 Hs0).
    + done.
  - cbn zeta. rewrite Hown.
    split; [done|]. split; [done|].
    destruct Hcases as [(Hf & Hc & -> & -> & _)|(Hcok & -> & Ho & Hcases)].
    + split; [done|]. left. rewrite Hcol. done.
    + assert (S (brk w) ≠ brk w) as Hne by lia.
      split.
      { intros p Hp. change (objs (write_map addr sl w2)) with (objs w2).
        rewrite Hfr by done. rewrite Ho. unfold Pool.with_new_session. cbn.
        by rewrite lookup_insert_ne. }
      right. split; [done|]. split; [done|].
      split; [apply (wf_objs_fresh _ Hwf); lia|].
      split.
      { change (streams_at (write_map addr sl w2) (S (brk w)))
          with (streams_at w2 (S (brk w))).
        rewrite Hst, (streams_at_objs _ _ _ Ho).
        unfold streams_at, Pool.with_new_session. cbn.
        by rewrite lookup_insert_eq. }
      split.
      { change (limit_at (write_map addr sl w2) (S (brk w)))
          with (limit_at w2 (S (brk w))).
        rewrite Hlim. unfold limit_at. rewrite Ho.
        unfold Pool.with_new_session. cbn. by rewrite lookup_insert_eq. }
      rewrite Hcol. done.
Qed.

(** With a network that answers and a multiplexer that opens streams,
    [Dial] returns a stream. *)
Lemma Dial_good env addr w :
  wf w → creation_ok env → open_err env = None →
  ∃ cc w', Dial env addr w = (Ret cc, w').
Proof.
  intros Hwf Hc Ho. destruct (Dial env addr w) as [r w'] eqn:HD.
  destruct (Dial_spec _ _ _ _ _ Hwf HD) as [_ Hr].
  destruct r as [cc|e|]; [eauto| |done].
  destruct Hr as [_ [Hn|He]]; [done|congruence].
Qed.

Lemma Dial_wf env addr w : wf w → wf (Dial env addr w).2.
Proof.
  intros Hwf. destruct (Dial env addr w) as [r w'] eqn:HD.
  by destruct (Dial_spec _ _ _ _ _ Hwf HD).
Qed.

Lemma session_dies_wf p w : wf w → wf (session_dies p w).
Proof.
  intros Hwf. unfold session_dies.
  destruct (muxSession_Close_cases None p w) as [->|(o & m & Ho & Hm & _ & ->)];
    [done|].
  destruct (obj_addr _ _ _ Hwf Ho). cbn [snd].
  eapply upd1_wf; [|apply upd_note].
  apply (upd1_wf w); [done|]. apply upd_obj; cbn; eauto.
Qed.

Lemma stream_closes_wf p w : wf w → wf (stream_closes p w).
Proof.
  intros Hwf. unfold stream_closes.
  destruct (objs w !! p) as [o|] eqn:Ho; [|done].
  destruct (session o) as [m|] eqn:Hm; [|done].
  destruct (_ || _); [done|].
  destruct (obj_addr _ _ _ Hwf Ho).
  apply (upd1_wf w); [done|]. apply upd_obj; eauto.
Qed.

Lemma NewMWSSTransporter_wf : wf NewMWSSTransporter.
Proof. constructor; cbn; try done. lia. Qed.

Lemma reachable_wf w : reachable w → wf w.
Proof.
  unfold Pool.reachable. revert w. apply rtc_ind_r.
  - apply NewMWSSTransporter_wf.
  - intros w1 w2 _ Hstep IH.
    destruct Hstep; eauto using Dial_wf, session_dies_wf, stream_closes_wf.
Qed.

End DialFacts.

Section Claims.
Variable MaxMWSSStreamCnt : Z.
Variable growcap : nat → nat.
Local Abbreviation Dial := (Dial MaxMWSSStreamCnt growcap).
Local Abbreviation choose := (choose MaxMWSSStreamCnt growcap).

Lemma scan_room l : ∀ ok w s ok' w1,
  scan l ok w = (Ret (s, ok'), w1) → s ≠ nil → has_room w s = true ∧ s ∈ l ∧ w1 = w.
Proof.
  induction l as [|x l IH]; intros ok w s ok' w1; cbn [scan].
  - intros [= <- <- <-]. done.
  - unfold bind, deref. destruct (objs w !! x) as [o|] eqn:Ho; [|done].
    destruct (session o) as [m|] eqn:Hm; [|done].
    destruct (Smux.NumStreams m >=? maxStreamCnt o)%Z eqn:Hfull.
    + intros Hs Hn. destruct (IH _ _ _ _ _ Hs Hn) as (? & ? & ?).
      split; [done|]. split; [by right|done].
    + intros [= <- <- <-] _. rewrite (has_room_live _ _ _ _ Ho Hm), Hfull.
      split; [done|]. split; [by left|done].
Qed.

Lemma collection_live w addr : wf w → Forall (live w) (collection w addr).
Proof.
  intros Hwf. unfold collection.
  destruct (sessions w !! addr) as [sl|] eqn:Hs; cbn.
  - by destruct (wf_slices _ Hwf _ _ Hs) as [_ (_ & _ & ?)].
  - unfold elems. cbn. constructor.
Qed.


(** When every session of the collection is at its maximum, the scan
    selects none and [Dial] appends a session of its own making. *)
Theorem saturated_pool_creates_session env addr w :
  wf w → creation_ok env → open_err env = None →
  Forall (λ s, has_room w s = false) (collection w addr) →
  (∀ ok s ok' w1, scan (collection w addr) ok w = (Ret (s, ok'), w1) → s = nil)
  ∧ ∃ cc w', Dial env addr w = (Ret cc, w')
      ∧ objs w !! stream_owner cc = None
      ∧ collection w' addr = collection w addr ++ [stream_owner cc]
      ∧ streams_at w' (stream_owner cc) = 1%Z
      ∧ ∀ p, p ≠ stream_owner cc → objs w' !! p = objs w !! p.
Proof.
  intros Hwf Hc Ho Hfull. split.
  - intros ok s ok' w1 Hs. destruct (decide (s = nil)) as [|Hn]; [done|].
    destruct (scan_room _ _ _ _ _ _ Hs Hn) as (Hr & Hin & _).
    rewrite Forall_forall in Hfull. rewrite (Hfull _ Hin) in Hr. done.
  - destruct (Dial_good MaxMWSSStreamCnt growcap env addr w Hwf Hc Ho) as (cc & w' & HD).
    exists cc, w'. split; [done|].
    destruct (Dial_spec _ _ _ _ _ _ _ Hwf HD) as [_ (_ & _ & Hfr & Hcases)].
    cbn zeta in Hcases.
    assert (∀ s, first_with_room w (collection w addr) = Some s → False) as Hno.
    { intros s Hs. apply first_with_room_elem in Hs as [Hin Hr].
      rewrite Forall_forall in Hfull. rewrite (Hfull _ Hin) in Hr. done. }
    destruct Hcases as [(Hf & _)|(_ & _ & Hnew & Hst & _ & [[_ Hcol]|(s0 & i & x & Hf & _)])].
    + by apply Hno in Hf.
    + done.
    + by apply Hno in Hf.
Qed.

Lemma find_idx_lt s l i : find_idx s l 0 = Some i → l !! i = Some s ∧ i < length l.
Proof.
  intros H. destruct (find_idx_Some _ _ _ _ H) as (_ & Hi & _).
  rewrite Nat.sub_0_r in Hi. split; [done|]. by eapply lookup_lt_Some.
Qed.

Lemma swap_out_length l i x : length (swap_out l i x) = length l - 1.
Proof. unfold swap_out. rewrite length_take, length_insert. lia. Qed.

Lemma swap_out_removes l i x s :
  NoDup l → l !! i = Some s → l !! (length l - 1) = Some x →
  s ∉ swap_out l i x.
Proof.
  intros Hnd Hi Hx Hin. unfold swap_out in Hin.
  apply elem_of_take in Hin as (j & Hj & Hlt).
  apply list_lookup_insert_Some in Hj as [(-> & -> & _)|[Hne Hj]].
  - pose proof (NoDup_lookup _ _ _ _ Hnd Hi Hx). lia.
  - pose proof (NoDup_lookup _ _ _ _ Hnd Hi Hj). lia.
Qed.

(** Claim C4, as amended.  When a session of the collection of [addr] is
    closed, the next [Dial] for [addr] does not panic and does not return
    a stream of that session.  When that session is the one the scan
    selects and the call returns a stream, the stream comes from a session
    created by the call, which takes a place in the collection while the
    closed one leaves it: the collection keeps its size. *)
Theorem closed_session_is_replaced env addr w s r w' :
  wf w → s ∈ collection w addr → closed_at w s = true →
  Dial env addr w = (r, w') →
  r ≠ Panic
  ∧ (∀ cc, r = Ret cc → stream_owner cc ≠ s)
  ∧ (∀ cc, r = Ret cc → first_with_room w (collection w addr) = Some s →
       length (collection w' addr) = length (collection w addr)
       ∧ stream_owner cc ∈ collection w' addr
       ∧ objs w !! stream_owner cc = None
       ∧ (NoDup (collection w addr) → s ∉ collection w' addr)).
Proof.
  intros Hwf Hin Hc HD.
  destruct (Dial_spec _ _ _ _ _ _ _ Hwf HD) as [_ Hr].
  assert (live w s) as (o & m & Hso & _).
  { pose proof (collection_live w addr Hwf) as Hl.
    rewrite Forall_forall in Hl. by apply Hl. }
  split; [by destruct r|]. split.
  - intros cc ->. destruct Hr as (_ & _ & _ & Hcases). cbn zeta in Hcases.
    destruct Hcases as [(_ & Hopen & _)|(_ & _ & Hnew & _)]; congruence.
  - intros cc -> Hf. destruct Hr as (_ & _ & _ & Hcases). cbn zeta in Hcases.
    destruct Hcases as [(Hf' & Hopen & _)|(_ & _ & Hnew & _ & _ & [[Hf' _]|(s0 & i & x & Hf' & _ & Hi & Hx & Hcol)])];
      [congruence|congruence|].
    assert (s0 = s) as -> by congruence.
    destruct (find_idx_lt _ _ _ Hi) as [Hi' Hlt].
    rewrite Hcol. split.
    { rewrite length_app, swap_out_length. cbn. lia. }
    split; [apply elem_of_app; right; by apply list_elem_of_singleton|].
    split; [done|].
    intros Hnd Hin'. apply elem_of_app in Hin' as [Hin'|Hin'].
    + by apply (swap_out_removes _ _ _ _ Hnd Hi' Hx) in Hin'.
    + apply list_elem_of_singleton in Hin'. congruence.
Qed.

(** Claim C5.  When the session [Dial] has chosen or created is [s] and
    [GetConn] fails on it with [e], [Dial] closes [s] and returns [e]: no
    stream is returned, and the map of the pool is left as it was. *)
Theorem failed_open_closes_session env addr w sl s w1 e w2 :
  wf w →
  choose env addr w = (Ret (sl, s), w1) →
  muxSession_GetConn (open_err env) s w1 = (Fail e, w2) →
  ∃ w', Dial env addr w = (Fail e, w')
        ∧ closed_at w' s = true
        ∧ sessions w' = sessions w.
Proof.
  intros Hwf Hch Hg.
  destruct (choose_spec _ _ _ _ _ _ _ Hwf Hch) as [Hu1 (Hlive & _)].
  pose proof (upd_wf _ _ Hwf Hu1) as Hwf1.
  destruct (GetConn_or_close env s w1) as [rg w'] eqn:Hgc.
  destruct (GetConn_spec _ _ _ _ _ Hwf1 Hlive Hgc) as (Hu2 & _ & _ & _ & Hrg).
  assert (rg = Fail e) as ->.
  { assert (w2 = w1) as ->.
    { destruct Hlive as (o & m & Ho & Hm). revert Hg.
      unfold muxSession_GetConn, bind, deref. rewrite Ho, Hm.
      destruct (Smux.OpenStream _ m); [by intros [= _ <-]|intros [=]]. }
    destruct (muxSession_Close_live (close_err env) s w1 Hlive)
      as (rc & wc & Hc).
    unfold GetConn_or_close in Hgc. rewrite Hg in Hgc.
    unfold bind in Hgc. rewrite Hc in Hgc. by injection Hgc as <- <-. }
  exists w'. split.
  - unfold Pool.Dial. rewrite (bind_Ret _ _ _ _ _ Hch). cbn beta iota.
    by rewrite (bind_Fail _ _ _ _ _ Hgc).
  - split; [apply Hrg|]. rewrite (upd_sessions _ _ Hu2). by apply upd_sessions.
Qed.

(** The other path: the scan selects a closed session and the TCP dial
    fails.  [Dial] returns the error, and the collection the map holds has
    kept its length while its entry [i] now repeats the last one. *)
Lemma failed_dial_after_eviction env addr w s e :
  wf w →
  first_with_room w (collection w addr) = Some s → closed_at w s = true →
  parse_err env = None → dial_err env = Some e →
  ∃ i x w',
    find_idx s (collection w addr) 0 = Some i
    ∧ collection w addr !! (length (collection w addr) - 1) = Some x
    ∧ Dial env addr w = (Fail e, w')
    ∧ collection w' addr = <[i := x]> (collection w addr).
Proof.
  intros Hwf Hf Hc Hp Hd.
  destruct (first_with_room_elem _ _ _ Hf) as [Hin _].
  pose proof (collection_live w addr Hwf) as Hlive.
  assert (live w s) as Hs by (rewrite Forall_forall in Hlive; by apply Hlive).
  destruct (sessions w !! addr) as [sl0|] eqn:Hmap.
  2:{ unfold collection in Hin. rewrite Hmap in Hin. cbn in Hin.
      unfold elems in Hin. cbn in Hin. by apply elem_of_nil in Hin. }
  destruct (wf_slices _ Hwf _ _ Hmap) as [Hpos Hok].
  assert (collection w addr = elems w sl0) as Hcol.
  { unfold collection. by rewrite Hmap. }
  rewrite Hcol in *.
  destruct (evict_closed w sl0 s true Hok Hs (wf_objs_nil _ Hwf) Hin Hc)
    as (i & x & Hi & Hx & Hilt & Hev).
  rewrite (slice_ok_length _ _ Hok).
  exists i, x, (write_array (base sl0) (<[i := x]> (backing w sl0)) w).
  split; [done|]. split; [done|]. split.
  - assert (choose env addr w
            = (Fail e, write_array (base sl0) (<[i := x]> (backing w sl0)) w))
      as Hch.
    { unfold Pool.choose. unfold bind at 1. cbn [get].
      rewrite Hmap. cbn [default].
      rewrite (bind_Ret _ _ _ _ _ (scan_spec w (elems w sl0) _ Hlive)).
      unfold scan_result. rewrite Hf.
      rewrite (bind_Ret _ _ _ _ _ Hev).
      unfold Pool.create. rewrite Hp, Hd. done. }
    unfold Pool.Dial. by rewrite (bind_Fail _ _ _ _ _ Hch).
  - unfold collection. cbn [sessions write_array]. rewrite Hmap. simpl.
    unfold elems at 1, backing at 1. cbn [arrays write_array].
    rewrite lookup_insert_eq. simpl.
    unfold elems. by rewrite take_insert_lt.
Qed.

End Claims.

Section Fill.
Variable MaxMWSSStreamCnt : Z.
Variable growcap : nat → nat.
Local Abbreviation Dial := (Dial MaxMWSSStreamCnt growcap).
Local Abbreviation again := (again MaxMWSSStreamCnt growcap).
Local Abbreviation filled := (filled MaxMWSSStreamCnt).


Lemma first_dial env addr w0 :
  wf w0 → sessions w0 !! addr = None → creation_ok env → open_err env = None →
  ∃ cc, Dial env addr w0 = (Ret cc, again env addr w0)
        ∧ stream_owner cc = S (brk w0)
        ∧ filled w0 (again env addr w0) addr (S (brk w0)) 1.
Proof.
  intros Hwf Hnone Hc Ho.
  destruct (Dial_good MaxMWSSStreamCnt growcap env addr w0 Hwf Hc Ho) as (cc & w' & HD).
  destruct (Dial_spec _ _ _ _ _ _ _ Hwf HD) as [Hwf' (Hcl & _ & Hfr & Hcases)].
  cbn zeta in Hcases.
  assert (collection w0 addr = []) as Hcol.
  { unfold collection. by rewrite Hnone. }
  rewrite Hcol in Hcases. unfold Pool.again. rewrite HD. cbn [snd].
  exists cc. split; [done|].
  destruct Hcases as [(Hf & _)|(_ & Hs & _ & Hst & Hlim & [[_ Hcol']|(s0 & i & x & Hf & _)])];
    [done| |done].
  rewrite Hs in *. split; [done|].
  split; [done|]. split; [done|]. split; [done|]. split; [done|].
  split; [done|]. exact Hfr.
Qed.

Lemma has_room_filled w0 w addr s n :
  filled w0 w addr s n → has_room w s = bool_decide (n < MaxMWSSStreamCnt)%Z.
Proof.
  intros (_ & _ & _ & Hst & Hlim & _). unfold has_room. rewrite Hst, Hlim.
  destruct (Z.ltb_spec n MaxMWSSStreamCnt).
  - by rewrite bool_decide_eq_true_2.
  - rewrite bool_decide_eq_false_2; [done|lia].
Qed.

Lemma next_dial env addr w0 w s n :
  filled w0 w addr s n → (n < MaxMWSSStreamCnt)%Z →
  creation_ok env → open_err env = None →
  ∃ cc, Dial env addr w = (Ret cc, again env addr w)
        ∧ stream_owner cc = s
        ∧ filled w0 (again env addr w) addr s (n + 1).
Proof.
  intros Hfill Hn Hc Ho. pose proof Hfill as (Hwf & Hcol & Hcl & Hst & Hlim & Hfr0).
  destruct (Dial_good MaxMWSSStreamCnt growcap env addr w Hwf Hc Ho) as (cc & w' & HD).
  destruct (Dial_spec _ _ _ _ _ _ _ Hwf HD) as [Hwf' (Hcl' & _ & Hfr & Hcases)].
  cbn zeta in Hcases. rewrite Hcol in Hcases.
  assert (first_with_room w [s] = Some s) as Hf.
  { unfold first_with_room. cbn.
    rewrite (has_room_filled _ _ _ _ _ Hfill), bool_decide_eq_true_2; done. }
  rewrite Hf in Hcases. unfold Pool.again. rewrite HD. cbn [snd].
  exists cc.
  destruct Hcases as [(Hs & _ & Hcol' & Hst' & Hlim')|(_ & _ & _ & _ & _ & [[? _]|(s0 & i & x & Hs0 & Hc0 & _)])];
    [|done|congruence].
  injection Hs as Hs. rewrite <- Hs in *. split; [done|]. split; [done|].
  split; [done|]. split; [done|]. split; [done|].
  split; [by rewrite Hst', Hst|]. split; [by rewrite Hlim'|].
  intros p Hp. rewrite Hfr by done. by apply Hfr0.
Qed.

Lemma overflow_dial env addr w0 w s n :
  filled w0 w addr s n → (MaxMWSSStreamCnt ≤ n)%Z →
  creation_ok env → open_err env = None →
  ∃ cc, Dial env addr w = (Ret cc, again env addr w)
        ∧ stream_owner cc = S (brk w) ∧ objs w !! S (brk w) = None
        ∧ S (brk w) ≠ s
        ∧ collection (again env addr w) addr = [s; S (brk w)]
        ∧ streams_at (again env addr w) (S (brk w)) = 1%Z
        ∧ streams_at (again env addr w) s = n
        ∧ closed_at (again env addr w) (S (brk w)) = false
        ∧ limit_at (again env addr w) (S (brk w)) = MaxMWSSStreamCnt
        ∧ ∀ p, p ≠ S (brk w) → objs (again env addr w) !! p = objs w !! p.
Proof.
  intros Hfill Hn Hc Ho. pose proof Hfill as (Hwf & Hcol & Hcl & Hst & Hlim & Hfr0).
  destruct (Dial_good MaxMWSSStreamCnt growcap env addr w Hwf Hc Ho) as (cc & w' & HD).
  destruct (Dial_spec _ _ _ _ _ _ _ Hwf HD) as [Hwf' (Hcl' & _ & Hfr & Hcases)].
  cbn zeta in Hcases. rewrite Hcol in Hcases.
  assert (first_with_room w [s] = None) as Hf.
  { unfold first_with_room. cbn.
    rewrite (has_room_filled _ _ _ _ _ Hfill), bool_decide_eq_false_2; [done|lia]. }
  rewrite Hf in Hcases. unfold Pool.again. rewrite HD. cbn [snd].
  exists cc.
  destruct Hcases as [(? & _)|(_ & Hs & Hnew & Hst' & Hlim' & [[_ Hcol']|(s0 & i & x & ? & _)])];
    [done| |done].
  rewrite Hs in *.
  assert (S (brk w) ≠ s) as Hne.
  { intros <-. unfold closed_at in Hcl. by rewrite Hnew in Hcl. }
  split; [done|]. split; [done|]. split; [done|]. split; [done|].
  split; [done|]. split; [done|].
  split; [unfold streams_at; rewrite Hfr by done; exact Hst|].
  split; [done|]. split; [done|]. exact Hfr.
Qed.

Lemma iter_dials env addr w0 :
  wf w0 → sessions w0 !! addr = None → creation_ok env → open_err env = None →
  ∀ k, (Z.of_nat k < MaxMWSSStreamCnt)%Z →
    (∃ cc, Dial env addr (Nat.iter k (again env addr) w0)
           = (Ret cc, Nat.iter (S k) (again env addr) w0)
           ∧ stream_owner cc = S (brk w0))
    ∧ filled w0 (Nat.iter (S k) (again env addr) w0) addr (S (brk w0))
        (Z.of_nat (S k)).
Proof.
  intros Hwf Hnone Hc Ho. induction k as [|k IH]; intros Hk.
  - destruct (first_dial env addr w0 Hwf Hnone Hc Ho) as (cc & HD & Hown & Hfill).
    split; [by exists cc|done].
  - destruct IH as [_ Hfill]; [lia|].
    destruct (next_dial env addr w0 _ _ _ Hfill) as (cc & HD & Hown & Hfill');
      [lia|done|done|].
    split; [by exists cc|].
    replace (Z.of_nat (S (S k))) with (Z.of_nat (S k) + 1)%Z by lia. done.
Qed.

End Fill.

Lemma one_wf : wf one.
Proof. apply Dial_wf, NewMWSSTransporter_wf. Qed.





(** The worlds of [Scenario] are states of the pool. *)
Lemma reach_one : reachable 1 growcap_double one.
Proof. eapply rtc_r; [apply rtc_refl|]. apply (step_Dial 1 growcap_double all_good "x"). Qed.
Lemma reach_two : reachable 1 growcap_double two.
Proof. eapply rtc_r; [apply reach_one|]. apply (step_Dial 1 growcap_double all_good "x"). Qed.
Lemma reach_two_first_dead : reachable 1 growcap_double two_first_dead.
Proof.
  eapply rtc_r; [eapply rtc_r; [apply reach_two|apply (step_stream _ _ 2)]|].
  apply step_dies.
Qed.
Lemma reach_duplicated : reachable 1 growcap_double duplicated.
Proof. eapply rtc_r; [apply reach_two_first_dead|]. apply (step_Dial 1 growcap_double no_route "x"). Qed.
Lemma reach_second_idle : reachable 1 growcap_double second_idle.
Proof. eapply rtc_r; [apply reach_two_first_dead|]. apply step_stream. Qed.
Lemma reach_one_dead : reachable 1 growcap_double one_dead.
Proof.
  eapply rtc_r; [eapply rtc_r; [apply reach_one|apply (step_stream _ _ 2)]|].
  apply step_dies.
Qed.




Lemma swap_out_elem l i x y :
  l !! (length l - 1) = Some x → y ∈ swap_out l i x → y ∈ l.
Proof.
  intros Hx Hin. unfold swap_out in Hin.
  apply elem_of_take in Hin as (j & Hj & _).
  apply list_lookup_insert_Some in Hj as [(_ & <- & _)|[_ Hj]];
    by eapply list_elem_of_lookup_2.
Qed.

Lemma swap_out_NoDup l i x :
  NoDup l → l !! (length l - 1) = Some x → NoDup (swap_out l i x).
Proof.
  intros Hnd Hx. apply NoDup_alt. intros j1 j2 y H1 H2. unfold swap_out in *.
  apply lookup_take_Some in H1 as [H1 Hl1].
  apply lookup_take_Some in H2 as [H2 Hl2].
  apply list_lookup_insert_Some in H1 as [(-> & <- & _)|[Hn1 H1]];
    apply list_lookup_insert_Some in H2 as [(-> & E2 & _)|[Hn2 H2]];
    try done.
  - pose proof (NoDup_lookup _ _ _ _ Hnd Hx H2). lia.
  - subst y. pose proof (NoDup_lookup _ _ _ _ Hnd Hx H1). lia.
  - by apply (NoDup_lookup _ _ _ _ Hnd H1 H2).
Qed.

(** A call that returns a stream leaves the collection of its address
    without repetition when it found it so. *)
Lemma Dial_Ret_NoDup max growcap env addr w cc w' :
  wf w → NoDup (collection w addr) →
  Dial max growcap env addr w = (Ret cc, w') →
  NoDup (collection w' addr).
Proof.
  intros Hwf Hnd HD.
  destruct (Dial_spec _ _ _ _ _ _ _ Hwf HD) as [_ (_ & _ & _ & Hcases)].
  cbn zeta in Hcases.
  assert (stream_owner cc ∈ collection w addr → objs w !! stream_owner cc = None → False)
    as Hfresh.
  { intros Hin Hnone. pose proof (collection_live w addr Hwf) as Hl.
    rewrite Forall_forall in Hl. destruct (Hl _ Hin) as (o & m & Ho & _). congruence. }
  destruct Hcases as [(_ & _ & -> & _)|(_ & _ & Hnew & _ & _ & [[_ ->]|(s0 & i & x & _ & _ & _ & Hx & ->)])];
    [done|..].
  - apply NoDup_app. split; [done|]. split; [|apply NoDup_singleton].
    intros y Hy Hy'. apply list_elem_of_singleton in Hy' as ->. by apply Hfresh.
  - apply NoDup_app. split; [by apply swap_out_NoDup|].
    split; [|apply NoDup_singleton].
    intros y Hy Hy'. apply list_elem_of_singleton in Hy' as ->.
    apply Hfresh; [|done]. by eapply swap_out_elem.
Qed.

(** Claim C2.  The pool can reach a state where the collection of an
    address holds the same session twice: the swap of line 117 writes into
    the backing array that the slice of the map shares, and a call that
    then fails to dial returns before line 147 stores the shortened
    slice. *)
Theorem failed_dial_leaves_duplicate :
  reachable 1 growcap_double two_first_dead
  ∧ collection two_first_dead "x" = [2; 5]
  ∧ Dial 1 growcap_double no_route "x" two_first_dead
    = (Fail (Error 7 false), duplicated)
  ∧ reachable 1 growcap_double duplicated
  ∧ collection duplicated "x" = [5; 5]
  ∧ ¬ NoDup (collection duplicated "x").
Proof.
  split; [apply reach_two_first_dead|].
  split; [vm_compute; reflexivity|].
  split; [vm_compute; reflexivity|].
  split; [apply reach_duplicated|].
  assert (collection duplicated "x" = [5; 5]) as He by (vm_compute; reflexivity).
  split; [done|]. rewrite He. intros Hnd.
  apply NoDup_cons in Hnd as [Hnin _]. apply Hnin. by left.
Qed.


(** Claim C4 as stated fails: after the call the collection has the size
    it had, the closed session having been replaced. *)
Lemma eviction_keeps_collection_size :
  ¬ (∀ max growcap env w s r w',
       reachable max growcap w →
       s ∈ collection w "x" → closed_at w s = true →
       Dial max growcap env "x" w = (r, w') →
       length (collection w' "x") + 1 = length (collection w "x")).
Proof.
  intros H.
  specialize (H 1%Z growcap_double all_good one_dead 2
                (Ret {| Conn := 4; stream_owner := 5; stream_rank := 1 |})
                (dial 1 all_good one_dead) reach_one_dead).
  assert (length (collection (dial 1 all_good one_dead) "x") + 1
          = length (collection one_dead "x")) as Habs.
  { apply H.
    - replace (collection one_dead "x") with [2] by (vm_compute; reflexivity). by left.
    - vm_compute; reflexivity.
    - vm_compute; reflexivity. }
  vm_compute in Habs. done.
Qed.

Lemma first2_wf : wf first2.
Proof. apply Dial_wf, NewMWSSTransporter_wf. Qed.

Lemma failed_open_closes_session_witness :
  wf first2
  ∧ choose 2 growcap_double broken_pipe "x" first2
    = (Ret ({| base := 3; len := 1; cap := 1 |}, 2), first2)
  ∧ muxSession_GetConn (open_err broken_pipe) 2 first2 = (Fail (Error 9 false), first2)
  ∧ ∃ w', Dial 2 growcap_double broken_pipe "x" first2 = (Fail (Error 9 false), w')
          ∧ closed_at w' 2 = true
          ∧ sessions w' = sessions first2.
Proof.
  split; [apply first2_wf|].
  assert (choose 2 growcap_double broken_pipe "x" first2
          = (Ret ({| base := 3; len := 1; cap := 1 |}, 2), first2)) as Hch
    by (vm_compute; reflexivity).
  assert (muxSession_GetConn (open_err broken_pipe) 2 first2
          = (Fail (Error 9 false), first2)) as Hg by (vm_compute; reflexivity).
  split; [exact Hch|]. split; [exact Hg|].
  exact (failed_open_closes_session 2 growcap_double broken_pipe "x" first2 _ _ _ _ _
           first2_wf Hch Hg).
Defined.

Lemma one_dead_wf : wf one_dead.
Proof. apply session_dies_wf, stream_closes_wf, one_wf. Qed.

Lemma closed_session_is_replaced_witness :
  wf one_dead ∧ 2 ∈ collection one_dead "x" ∧ closed_at one_dead 2 = true
  ∧ Dial 1 growcap_double all_good "x" one_dead
    = (Ret {| Conn := 4; stream_owner := 5; stream_rank := 1 |},
       dial 1 all_good one_dead)
  ∧ length (collection (dial 1 all_good one_dead) "x")
    = length (collection one_dead "x")
  ∧ 2 ∉ collection (dial 1 all_good one_dead) "x".
Proof.
  assert (2 ∈ collection one_dead "x") as Hin.
  { replace (collection one_dead "x") with [2] by (vm_compute; reflexivity). by left. }
  assert (Dial 1 growcap_double all_good "x" one_dead
    = (Ret {| Conn := 4; stream_owner := 5; stream_rank := 1 |},
       dial 1 all_good one_dead)) as HD by (vm_compute; reflexivity).
  split; [apply one_dead_wf|]. split; [exact Hin|].
  split; [vm_compute; reflexivity|]. split; [exact HD|].
  destruct (closed_session_is_replaced 1 growcap_double all_good "x" one_dead 2 _ _
              one_dead_wf Hin ltac:(vm_compute; reflexivity) HD) as (_ & _ & Hrep).
  destruct (Hrep _ eq_refl ltac:(vm_compute; reflexivity)) as (Hlen & _ & _ & Hnd).
  split; [exact Hlen|]. apply Hnd.
  replace (collection one_dead "x") with [2] by (vm_compute; reflexivity).
  apply NoDup_singleton.
Defined.

(** ** Whatever the maximum

    The runs of [Scenario] take [MaxMWSSStreamCnt] to be 1.  The same
    states are reached for any maximum [N ≥ 1]: [N] calls fill a first
    session, one more creates a second. *)

Section AnyMaximum.

Variable N : nat.
Variable growcap : nat → nat.
Hypothesis N_pos : 0 < N.

Local Abbreviation max := (Z.of_nat N).
Local Abbreviation Dial := (Dial max growcap).
Local Abbreviation again := (again max growcap).
Local Abbreviation reachable := (reachable max growcap).
Local Abbreviation filled := (filled max).

Lemma good : creation_ok all_good.
Proof. by repeat split. Qed.

Lemma reachable_again env addr w : reachable w → reachable (again env addr w).
Proof. intros H. eapply rtc_r; [exact H|]. apply step_Dial. Qed.

Lemma reachable_iter env addr k :
  reachable (Nat.iter k (again env addr) NewMWSSTransporter).
Proof.
  induction k as [|k IH]; [apply rtc_refl|]. cbn. by apply reachable_again.
Qed.

Lemma collection_frame w w' addr :
  sessions w' = sessions w → arrays w' = arrays w →
  collection w' addr = collection w addr.
Proof. intros Hs Ha. unfold collection, elems, backing. by rewrite Hs, Ha. Qed.

(** What the close of a session changes. *)
Lemma session_dies_spec w p :
  live w p →
  sessions (session_dies p w) = sessions w
  ∧ arrays (session_dies p w) = arrays w
  ∧ closed_at (session_dies p w) p = true
  ∧ streams_at (session_dies p w) p = 0%Z
  ∧ limit_at (session_dies p w) p = limit_at w p
  ∧ ∀ q, q ≠ p → objs (session_dies p w) !! q = objs w !! q.
Proof.
  intros (o & m & Ho & Hm). unfold session_dies.
  destruct (Smux.IsClosed m) eqn:Hd.
  - rewrite (muxSession_Close_closed _ _ _ _ _ Ho Hm Hd). cbn [snd].
    unfold closed_at, streams_at, Smux.NumStreams. rewrite Ho, Hm, Hd.
    repeat split; done.
  - rewrite (muxSession_Close_open _ _ _ _ _ Ho Hm Hd). cbn [snd].
    unfold closed_at, streams_at, limit_at. cbn [objs write_obj note_closed].
    rewrite !lookup_insert_eq, Ho. cbn.
    repeat split; try done. intros q Hq. by rewrite lookup_insert_ne.
Qed.

(** What the close of the only stream of an open session changes. *)
Lemma stream_closes_spec w p :
  live w p → closed_at w p = false → streams_at w p = 1%Z →
  sessions (stream_closes p w) = sessions w
  ∧ arrays (stream_closes p w) = arrays w
  ∧ closed_at (stream_closes p w) p = false
  ∧ streams_at (stream_closes p w) p = 0%Z
  ∧ limit_at (stream_closes p w) p = limit_at w p
  ∧ ∀ q, q ≠ p → objs (stream_closes p w) !! q = objs w !! q.
Proof.
  intros (o & m & Ho & Hm) Hc Hst. unfold stream_closes.
  unfold closed_at in Hc. unfold streams_at in Hst. rewrite Ho, Hm in Hc, Hst.
  rewrite Ho, Hm. destruct m as [d n]. unfold Smux.NumStreams in Hst.
  cbn in Hc, Hst. subst d. cbn in Hst. subst n. cbn.
  unfold closed_at, streams_at, limit_at. cbn [objs write_obj].
  rewrite !lookup_insert_eq, Ho. cbn.
  repeat split; try done. intros q Hq. by rewrite lookup_insert_ne.
Qed.

Lemma has_room_idle w p :
  streams_at w p = 0%Z → limit_at w p = max → has_room w p = true.
Proof.
  intros Hs Hl. unfold has_room. rewrite Hs, Hl. apply Z.ltb_lt. lia.
Qed.

Lemma closed_at_frame w w' p :
  objs w' !! p = objs w !! p → closed_at w' p = closed_at w p.
Proof. intros H. unfold closed_at. by rewrite H. Qed.

Lemma streams_at_frame w w' p :
  objs w' !! p = objs w !! p → streams_at w' p = streams_at w p.
Proof. intros H. unfold streams_at. by rewrite H. Qed.

Lemma limit_at_frame w w' p :
  objs w' !! p = objs w !! p → limit_at w' p = limit_at w p.
Proof. intros H. unfold limit_at. by rewrite H. Qed.

(** After [N] calls and one more: a full session [2] and a second one,
    [b], with one stream. *)
Lemma two_sessions :
  ∃ w b, reachable w ∧ wf w ∧ b ≠ 2
    ∧ collection w "x" = [2; b]
    ∧ closed_at w 2 = false ∧ limit_at w 2 = max
    ∧ closed_at w b = false ∧ streams_at w b = 1%Z ∧ limit_at w b = max.
Proof.
  destruct N as [|k] eqn:HN; [lia|]. rewrite <- HN in *.
  destruct (iter_dials max growcap all_good "x" NewMWSSTransporter
              NewMWSSTransporter_wf eq_refl good eq_refl k) as [_ Hfill]; [lia|].
  rewrite <- HN in Hfill. change (S (brk NewMWSSTransporter)) with 2 in Hfill.
  set (wN := Nat.iter N (again all_good "x") NewMWSSTransporter) in *.
  destruct (overflow_dial max growcap all_good "x" _ _ _ _ Hfill)
    as (cc & HD & Hown & Hnew & Hne & Hcol & Hsb & Hs2 & Hcb & Hlb & Hfr);
    [lia|apply good|done|].
  destruct Hfill as (Hwf & _ & Hc2 & _ & Hl2 & _).
  exists (again all_good "x" wN), (S (brk wN)).
  split; [apply reachable_again, reachable_iter|].
  split; [by apply Dial_wf|]. split; [done|]. split; [done|].
  assert (2 ≠ S (brk wN)) as Hne' by done.
  rewrite (closed_at_frame _ _ _ (Hfr 2 Hne')), (limit_at_frame _ _ _ (Hfr 2 Hne')).
  done.
Qed.

(** The same with the first session closed. *)
Lemma two_sessions_first_dead :
  ∃ w b, reachable w ∧ wf w ∧ b ≠ 2
    ∧ collection w "x" = [2; b]
    ∧ closed_at w 2 = true ∧ has_room w 2 = true
    ∧ live w b
    ∧ closed_at w b = false ∧ streams_at w b = 1%Z ∧ limit_at w b = max.
Proof.
  destruct two_sessions
    as (w & b & Hr & Hwf & Hb & Hcol & Hc2 & Hl2 & Hcb & Hsb & Hlb).
  pose proof (collection_live w "x" Hwf) as Hlive. rewrite Hcol in Hlive.
  apply Forall_cons in Hlive as [Hlive2 Hliveb].
  apply Forall_cons in Hliveb as [Hliveb _].
  destruct (session_dies_spec w 2 Hlive2) as (Hs & Ha & Hc & Hst & Hl & Hfr).
  exists (session_dies 2 w), b.
  split; [eapply rtc_r; [exact Hr|apply step_dies]|].
  split; [by apply session_dies_wf|]. split; [done|].
  split; [by rewrite (collection_frame _ _ _ Hs Ha)|].
  split; [done|]. split; [apply has_room_idle; congruence|].
  split. { destruct Hliveb as (o & m & Ho & Hm). exists o, m.
           by rewrite (Hfr b Hb). }
  rewrite (closed_at_frame _ _ _ (Hfr b Hb)), (streams_at_frame _ _ _ (Hfr b Hb)),
    (limit_at_frame _ _ _ (Hfr b Hb)). done.
Qed.

(** Claim C2 fails for every maximum: a state of the pool whose collection
    holds one session twice. *)
Lemma duplicate_for_any_maximum :
  ∃ w b, reachable w ∧ collection w "x" = [b; b].
Proof.
  destruct two_sessions_first_dead
    as (w & b & Hr & Hwf & Hb & Hcol & Hc2 & Hr2 & _).
  assert (first_with_room w (collection w "x") = Some 2) as Hf.
  { rewrite Hcol. unfold first_with_room. cbn. by rewrite Hr2. }
  destruct (failed_dial_after_eviction max growcap no_route "x" w 2 (Error 7 false)
              Hwf Hf Hc2 eq_refl eq_refl) as (i & x & w' & Hi & Hx & HD & Hcol').
  rewrite Hcol in Hi, Hx, Hcol'. cbn in Hi, Hx. rewrite decide_True in Hi by done.
  injection Hi as <-. injection Hx as <-.
  exists w', b. split; [|done].
  replace w' with (again no_route "x" w) by (unfold Pool.again; by rewrite HD).
  by apply reachable_again.
Qed.

(** Claim C1 as stated fails for every maximum: the first session that is
    open and has room is not the one the stream comes from. *)
Lemma usable_session_skipped_for_any_maximum :
  ∃ w s cc w', reachable w
    ∧ first_usable w (collection w "x") = Some s
    ∧ Dial all_good "x" w = (Ret cc, w')
    ∧ stream_owner cc ≠ s.
Proof.
  destruct two_sessions_first_dead
    as (w & b & Hr & Hwf & Hb & Hcol & Hc2 & Hr2 & Hliveb & Hcb & Hsb & Hlb).
  destruct (stream_closes_spec w b Hliveb Hcb Hsb) as (Hs & Ha & Hc & Hst & Hl & Hfr).
  assert (wf (stream_closes b w)) as Hwf1 by by apply stream_closes_wf.
  assert (collection (stream_closes b w) "x" = [2; b]) as Hcol1
    by by rewrite (collection_frame _ _ _ Hs Ha).
  assert (2 ≠ b) as Hb' by done.
  assert (closed_at (stream_closes b w) 2 = true) as Hc21
    by by rewrite (closed_at_frame _ _ _ (Hfr 2 Hb')).
  assert (has_room (stream_closes b w) 2 = true) as Hr21.
  { unfold has_room. rewrite (streams_at_frame _ _ _ (Hfr 2 Hb')),
      (limit_at_frame _ _ _ (Hfr 2 Hb')). exact Hr2. }
  assert (has_room (stream_closes b w) b = true) as Hrb
    by (apply has_room_idle; congruence).
  assert (live (stream_closes b w) b) as Hliveb1.
  { pose proof (collection_live _ "x" Hwf1) as Hl1. rewrite Hcol1 in Hl1.
    apply Forall_cons in Hl1 as [_ Hl1]. by apply Forall_cons in Hl1 as [? _]. }
  destruct (Dial_good max growcap all_good "x" _ Hwf1 good eq_refl) as (cc & w' & HD).
  exists (stream_closes b w), b, cc, w'.
  split; [eapply rtc_r; [exact Hr|apply step_stream]|].
  split. { rewrite Hcol1. unfold first_usable. cbn. by rewrite Hc21, Hc, Hrb. }
  split; [done|].
  destruct (Dial_spec _ _ _ _ _ _ _ Hwf1 HD) as [_ (_ & _ & _ & Hcases)].
  cbn zeta in Hcases. rewrite Hcol1 in Hcases.
  unfold first_with_room in Hcases. cbn in Hcases. rewrite Hr21 in Hcases.
  destruct Hcases as [([= <-] & Hopen & _)|(_ & _ & Hnew & _)]; [congruence|].
  intros Heq. rewrite Heq in Hnew.
  destruct Hliveb1 as (o & m & Ho & _). congruence.
Qed.

(** Claim C4 as stated fails for every maximum: a closed session is
    replaced, and the collection keeps its size. *)
Lemma eviction_keeps_size_for_any_maximum :
  ∃ w s cc w', reachable w
    ∧ s ∈ collection w "x" ∧ closed_at w s = true
    ∧ Dial all_good "x" w = (Ret cc, w')
    ∧ length (collection w' "x") = length (collection w "x").
Proof.
  destruct (first_dial max growcap all_good "x" NewMWSSTransporter
              NewMWSSTransporter_wf eq_refl good eq_refl) as (cc0 & HD0 & _ & Hfill).
  change (S (brk NewMWSSTransporter)) with 2 in Hfill.
  destruct Hfill as (Hwf1 & Hcol1 & _ & _ & Hl1 & _).
  pose proof (collection_live _ "x" Hwf1) as Hlive. rewrite Hcol1 in Hlive.
  apply Forall_cons in Hlive as [Hlive2 _].
  destruct (session_dies_spec _ 2 Hlive2) as (Hs & Ha & Hc & Hst & Hl & Hfr).
  pose proof (session_dies_wf 2 _ Hwf1) as Hwf2.
  pose proof (collection_frame _ _ "x" Hs Ha) as Hcol2. rewrite Hcol1 in Hcol2.
  destruct (Dial_good max growcap all_good "x" _ Hwf2 good eq_refl) as (cc & w' & HD).
  eexists _, 2, cc, w'.
  split. { eapply rtc_r; [|apply step_dies]. apply reachable_again, rtc_refl. }
  split; [rewrite Hcol2; by left|]. split; [done|]. split; [done|].
  destruct (Dial_spec _ _ _ _ _ _ _ Hwf2 HD) as [_ (_ & _ & _ & Hcases)].
  cbn zeta in Hcases. rewrite Hcol2 in *.
  unfold first_with_room in Hcases. cbn in Hcases.
  rewrite has_room_idle in Hcases; [|done|congruence].
  destruct Hcases as [([= <-] & Hopen & _)|(_ & _ & _ & _ & _ & [[? _]|(s0 & i & x & _ & _ & _ & _ & ->)])];
    [congruence|done|].
  done.
Qed.

End AnyMaximum.

(** *** Calls that fill one session after the other *)

Section Pack.
Variable MaxMWSSStreamCnt : Z.
Variable growcap : nat → nat.
Hypothesis max_pos : (1 ≤ MaxMWSSStreamCnt)%Z.
Local Abbreviation Dial := (Dial MaxMWSSStreamCnt growcap).
Local Abbreviation again := (again MaxMWSSStreamCnt growcap).
Local Abbreviation filled := (filled MaxMWSSStreamCnt).
Local Abbreviation packed := (packed MaxMWSSStreamCnt).

Lemma packed_first env addr w0 :
  wf w0 → sessions w0 !! addr = None → creation_ok env → open_err env = None →
  ∃ cc, Dial env addr w0 = (Ret cc, again env addr w0)
        ∧ stream_owner cc ∈ collection (again env addr w0) addr
        ∧ packed w0 (again env addr w0) addr 1.
Proof.
  intros Hwf Hnone Hc Ho.
  destruct (first_dial MaxMWSSStreamCnt growcap env addr w0 Hwf Hnone Hc Ho)
    as (cc & HD & Hown & Hfill).
  destruct Hfill as (Hwf' & Hcol & Hcl & Hst & Hlim & Hfr).
  exists cc. split; [done|]. split; [rewrite Hcol, Hown; by left|].
  split; [done|]. exists [], (S (brk w0)). cbn [app length].
  split; [done|]. split; [apply NoDup_singleton|]. split.
  { repeat constructor; [|done|done]. apply (wf_objs_fresh _ Hwf). lia. }
  split; [constructor|]. split; [lia|]. split; [lia|].
  intros p Hp. apply Hfr. intros ->. apply Hp. by left.
Qed.

Lemma packed_next env addr w0 w k :
  packed w0 w addr k → creation_ok env → open_err env = None →
  ∃ cc, Dial env addr w = (Ret cc, again env addr w)
        ∧ stream_owner cc ∈ collection (again env addr w) addr
        ∧ collection w addr ⊆ collection (again env addr w) addr
        ∧ packed w0 (again env addr w) addr (S k).
Proof.
  intros (Hwf & l & last & Hcol & Hnd & Hall & Hfull & Hn & Hk & Hfr0) Hc Ho.
  destruct (Dial_good MaxMWSSStreamCnt growcap env addr w Hwf Hc Ho)
    as (cc & w' & HD).
  destruct (Dial_spec _ _ _ _ _ _ _ Hwf HD) as [Hwf' (Hcl' & _ & Hfr & Hcases)].
  cbn zeta in Hcases. rewrite Hcol in Hcases.
  unfold Pool.again. rewrite HD. cbn [snd].
  set (s := stream_owner cc) in *.
  assert (∀ p, p ∈ l → has_room w p = false) as Hnoroom.
  { intros p Hp. rewrite Forall_forall in Hfull, Hall.
    destruct (Hall p) as (_ & _ & Hlim); [apply elem_of_app; by left|].
    unfold has_room. rewrite (Hfull p Hp), Hlim. apply Z.ltb_irrefl. }
  assert (Forall (λ p, objs w !! p ≠ None) (l ++ [last])) as Hlive.
  { pose proof (collection_live w addr Hwf) as Hl. rewrite Hcol in Hl.
    eapply Forall_impl; [exact Hl|]. intros p (o & m & -> & _). done. }
  assert (∀ p, p ∈ l ++ [last] → p ≠ s →
            objs w0 !! p = None ∧ closed_at w' p = false
            ∧ limit_at w' p = MaxMWSSStreamCnt
            ∧ streams_at w' p = streams_at w p) as Hold.
  { intros p Hp Hne. rewrite Forall_forall in Hall.
    destruct (Hall p Hp) as (H0 & Hclp & Hlimp).
    pose proof (Hfr p Hne) as Hobj.
    rewrite (closed_at_frame _ _ _ Hobj), (limit_at_frame _ _ _ Hobj),
      (streams_at_frame _ _ _ Hobj). done. }
  exists cc. split; [done|]. fold s.
  destruct Hcases
    as [(Hf & Hcs & Hcol' & Hst' & Hlim')
       |(_ & Hs & Hnew & Hst' & Hlim' & [[Hf Hcol']|(s0 & i & x & Hf & Hc0 & _)])].
  - (* the last session has room *)
    destruct (first_with_room_elem _ _ _ Hf) as [Hin Hroom].
    assert (s = last) as Hs.
    { apply elem_of_app in Hin as [Hin|Hin].
      - rewrite (Hnoroom _ Hin) in Hroom. done.
      - by apply list_elem_of_singleton in Hin. }
    assert (streams_at w last < MaxMWSSStreamCnt)%Z as Hlt.
    { rewrite Forall_forall in Hall.
      destruct (Hall last) as (_ & _ & Hlim); [apply elem_of_app; right; by left|].
      unfold has_room in Hroom. rewrite Hs, Hlim in Hroom.
      by apply Z.ltb_lt in Hroom. }
    rewrite Hcol, Hcol'. split; [rewrite Hs; apply elem_of_app; right; by left|].
    split; [done|]. split; [done|].
    exists l, last. split; [done|]. split; [done|]. split.
    { apply Forall_forall. intros p Hp.
      destruct (decide (p = s)) as [->|Hne].
      - rewrite Forall_forall in Hall. destruct (Hall s Hp) as (H0 & _ & Hl).
        split; [done|]. split; [done|]. by rewrite Hlim'.
      - by destruct (Hold p Hp Hne) as (? & ? & ? & _). }
    split.
    { apply Forall_forall. intros p Hp.
      assert (p ≠ s) as Hne.
      { intros ->. rewrite (Hnoroom _ Hp) in Hroom. done. }
      destruct (Hold p) as (_ & _ & _ & ->); [apply elem_of_app; by left|done|].
      rewrite Forall_forall in Hfull. by apply Hfull. }
    rewrite <- Hs, Hst', Hs. split; [lia|]. split; [lia|].
    intros p Hp. rewrite Hfr; [by apply Hfr0|].
    intros ->. apply Hp. rewrite Hs. apply elem_of_app. right. by left.
  - (* every session is full: a new one *)
    assert (streams_at w last = MaxMWSSStreamCnt) as Hlast.
    { apply first_with_room_None in Hf. rewrite Forall_forall in Hf, Hall.
      assert (last ∈ l ++ [last]) as Hin by (apply elem_of_app; right; by left).
      specialize (Hf last Hin). destruct (Hall last Hin) as (_ & _ & Hlim).
      unfold has_room in Hf. rewrite Hlim in Hf. apply Z.ltb_ge in Hf. lia. }
    assert (s ∉ l ++ [last]) as Hnotin.
    { intros Hin. rewrite Forall_forall in Hlive. by apply (Hlive s Hin). }
    rewrite Hcol, Hcol'. split; [apply elem_of_app; right; by left|].
    split; [intros p Hp; apply elem_of_app; by left|].
    split; [done|].
    exists (l ++ [last]), s. split; [done|]. split.
    { apply NoDup_app. split; [done|]. split; [|apply NoDup_singleton].
      intros p Hp Hps. apply list_elem_of_singleton in Hps. by subst. }
    split.
    { apply Forall_app. split.
      - apply Forall_forall. intros p Hp.
        assert (p ≠ s) as Hne by (intros ->; done).
        by destruct (Hold p Hp Hne) as (? & ? & ? & _).
      - repeat constructor; [|done|done].
        rewrite <- (Hfr0 s Hnotin). done. }
    split.
    { apply Forall_forall. intros p Hp.
      assert (p ≠ s) as Hne by (intros ->; done).
      destruct (Hold p Hp Hne) as (_ & _ & _ & ->).
      apply elem_of_app in Hp as [Hp|Hp].
      - rewrite Forall_forall in Hfull. by apply Hfull.
      - apply list_elem_of_singleton in Hp. by subst. }
    rewrite Hst'. split; [lia|]. split.
    { rewrite length_app. cbn [length]. lia. }
    intros p Hp. rewrite Hfr.
    + apply Hfr0. intros Hin. apply Hp. apply elem_of_app. by left.
    + intros ->. apply Hp. apply elem_of_app. right. by left.
  - (* no session of the collection is closed *)
    exfalso. destruct (first_with_room_elem _ _ _ Hf) as [Hin _].
    rewrite Forall_forall in Hall. destruct (Hall s0 Hin) as (_ & Hcl0 & _).
    congruence.
Qed.

Lemma iter_packed env addr w0 :
  wf w0 → sessions w0 !! addr = None → creation_ok env → open_err env = None →
  ∀ k, packed w0 (Nat.iter (S k) (again env addr) w0) addr (S k)
       ∧ ∀ j, j ≤ k →
           ∃ cc, Dial env addr (Nat.iter j (again env addr) w0)
                 = (Ret cc, Nat.iter (S j) (again env addr) w0)
                 ∧ stream_owner cc
                   ∈ collection (Nat.iter (S k) (again env addr) w0) addr.
Proof.
  intros Hwf Hnone Hc Ho. induction k as [|k [IHp IHj]].
  - destruct (packed_first env addr w0 Hwf Hnone Hc Ho) as (cc & HD & Hin & Hp).
    split; [done|]. intros j Hj. replace j with 0 by lia. by exists cc.
  - destruct (packed_next env addr w0 _ _ IHp Hc Ho) as (cc & HD & Hin & Hsub & Hp).
    split; [done|]. intros j Hj.
    destruct (decide (j = S k)) as [->|Hne]; [by exists cc|].
    destruct (IHj j) as (cc' & HD' & Hin'); [lia|].
    exists cc'. split; [done|]. by apply Hsub.
Qed.

(** What a packed pool shows. *)
Lemma packed_shape w0 w addr k :
  packed w0 w addr k →
  Z.of_nat (length (collection w addr))
  = ((Z.of_nat k + MaxMWSSStreamCnt - 1) / MaxMWSSStreamCnt)%Z
  ∧ NoDup (collection w addr)
  ∧ Forall (λ s, objs w0 !! s = None ∧ closed_at w s = false
                 ∧ (1 ≤ streams_at w s ≤ MaxMWSSStreamCnt)%Z)
      (collection w addr)
  ∧ ∀ p, p ∉ collection w addr → objs w !! p = objs w0 !! p.
Proof.
  intros (Hwf & l & last & Hcol & Hnd & Hall & Hfull & Hn & Hk & Hfr0).
  rewrite Hcol. split; [|split; [done|split; [|done]]].
  - rewrite length_app. cbn [length]. rewrite Hk.
    apply (Z.div_unique_pos _ _ _ (streams_at w last - 1)); [lia|]. lia.
  - apply Forall_forall. intros p Hp. rewrite Forall_forall in Hall, Hfull.
    destruct (Hall p Hp) as (H0 & Hcl & _). split; [done|]. split; [done|].
    apply elem_of_app in Hp as [Hp|Hp].
    + rewrite (Hfull p Hp). lia.
    + apply list_elem_of_singleton in Hp. by subst.
Qed.

End Pack.

End PoolFacts.

(** ** More on the session pool *)

Module PoolExtras.

Import Pool Scenario PoolFacts Bounds Handlers.

Section Frames.
Variable MaxMWSSStreamCnt : Z.
Variable growcap : nat → nat.
Local Abbreviation append := (append growcap).
Local Abbreviation create := (create MaxMWSSStreamCnt growcap).
Local Abbreviation choose := (choose MaxMWSSStreamCnt growcap).
Local Abbreviation Dial := (Dial MaxMWSSStreamCnt growcap).
Local Abbreviation with_new_session := (with_new_session MaxMWSSStreamCnt).
Local Abbreviation reachable := (reachable MaxMWSSStreamCnt growcap).

(** What [append] leaves as it is: the objects, and the elements of every
    slice of the heap that does not reach past the end of [sl]. *)
Lemma append_frame sl x w sl' w1 :
  append sl x w = (Ret sl', w1) →
  objs w1 = objs w ∧ closed_conns w1 = closed_conns w
  ∧ sessions w1 = sessions w
  ∧ ∀ sl2, base sl2 < brk w → (base sl2 = base sl → len sl2 ≤ len sl) →
           elems w1 sl2 = elems w sl2.
Proof.
  destruct (decide (len sl < cap sl)) as [Hlt|Hge].
  - rewrite append_in_place by done. intros [= <- <-].
    split; [done|]. split; [done|]. split; [done|].
    intros sl2 _ Hlen. unfold elems, backing. cbn.
    destruct (decide (base sl = base sl2)) as [Heq|Hne].
    + rewrite Heq, lookup_insert_eq. simpl. rewrite <- Heq.
      apply take_insert_ge. symmetry in Heq. apply Hlen in Heq. lia.
    + by rewrite lookup_insert_ne.
  - rewrite append_realloc by done. intros [= <- <-].
    split; [done|]. split; [done|]. split; [done|].
    intros sl2 Hb _. unfold elems, backing. cbn.
    rewrite lookup_insert_ne by lia. done.
Qed.

(** Lines 123-140 on a world [w]. *)
Lemma create_frame env sl s ok w r w1 :
  create env sl s ok w = (r, w1) →
  sessions w1 = sessions w
  ∧ (∀ sl2, base sl2 < brk w → (base sl2 = base sl → len sl2 ≤ len sl) →
            elems w1 sl2 = elems w sl2)
  ∧ (closed_conns w1 = closed_conns w
     ∨ (closed_conns w1 = brk w :: closed_conns w
        ∧ ∃ e, r = Fail e ∧ parse_err env = None ∧ dial_err env = None
               ∧ (ws_err env = Some e
                  ∨ (ws_err env = None ∧ smux_err env = Some e))))
  ∧ match r with
    | Fail e => objs w1 = objs w
                ∧ Some e ∈ [parse_err env; dial_err env; ws_err env; smux_err env]
    | Ret _ => objs w1 = objs w ∨ objs w1 = objs (with_new_session w)
    | Panic => False
    end.
Proof.
  destruct ok.
  { unfold Pool.create. intros [= <- <-]. split; [done|]. split; [done|].
    split; [by left|by left]. }
  destruct (parse_err env) as [e|] eqn:Hp.
  { unfold Pool.create. rewrite Hp. intros [= <- <-].
    split; [done|]. split; [done|]. split; [by left|]. split; [done|].
    apply list_elem_of_In; cbn; tauto. }
  destruct (dial_err env) as [e|] eqn:Hd.
  { unfold Pool.create. rewrite Hp, Hd. intros [= <- <-].
    split; [done|]. split; [done|]. split; [by left|]. split; [done|].
    apply list_elem_of_In; cbn; tauto. }
  destruct (ws_err env) as [e|] eqn:Hw.
  { unfold Pool.create, initSession_or_close, initSession.
    rewrite Hp, Hd, Hw. intros [= <- <-].
    split; [done|]. split; [done|]. split.
    - right. split; [done|]. exists e.
      split; [done|]. split; [done|]. split; [done|]. by left.
    - split; [done|]. apply list_elem_of_In; cbn; tauto. }
  destruct (smux_err env) as [e|] eqn:Hs.
  { unfold Pool.create, initSession_or_close, initSession.
    rewrite Hp, Hd, Hw, Hs. intros [= <- <-].
    split; [done|]. split; [done|]. split.
    - right. split; [done|]. exists e.
      split; [done|]. split; [done|]. split; [done|]. by right.
    - split; [done|]. apply list_elem_of_In; cbn; tauto. }
  assert (creation_ok env) as Hc by done.
  rewrite (create_ok_eq _ _ _ _ _ _ Hc).
  unfold bind. destruct (append sl (S (brk w)) (with_new_session w))
    as [[sl'|e|] w2] eqn:Ha.
  2,3: exfalso; revert Ha; unfold Pool.append; case_decide; done.
  intros [= <- <-].
  destruct (append_frame _ _ _ _ _ Ha) as (Ho & Hcl & Hse & Hel).
  split; [done|]. split.
  { intros sl2 Hb Hlen. rewrite Hel; [done|cbn; lia|done]. }
  split; [by left|]. right. done.
Qed.

(** Everything before line 142, on a well-formed pool. *)
Lemma choose_frame env addr w r w1 :
  wf w → choose env addr w = (r, w1) →
  sessions w1 = sessions w
  ∧ (∀ sl2, base sl2 < brk w →
        base sl2 ≠ base (default nil_slice (sessions w !! addr))
        ∨ (no_eviction w addr
           ∧ len sl2 ≤ len (default nil_slice (sessions w !! addr))) →
        elems w1 sl2 = elems w sl2)
  ∧ (closed_conns w1 = closed_conns w
     ∨ (closed_conns w1 = brk w :: closed_conns w
        ∧ ∃ e, r = Fail e ∧ parse_err env = None ∧ dial_err env = None
               ∧ (ws_err env = Some e
                  ∨ (ws_err env = None ∧ smux_err env = Some e))))
  ∧ match r with
    | Fail e => objs w1 = objs w
                ∧ Some e ∈ [parse_err env; dial_err env; ws_err env; smux_err env]
    | Ret _ => objs w1 = objs w ∨ objs w1 = objs (with_new_session w)
    | Panic => False
    end.
Proof.
  intros Hwf Hch. set (sl0 := default nil_slice (sessions w !! addr)).
  set (l := collection w addr).
  assert (slice_ok w sl0) as Hok0.
  { subst sl0. destruct (sessions w !! addr) as [sl|] eqn:Hs; cbn.
    - by destruct (wf_slices _ Hwf _ _ Hs).
    - unfold slice_ok, elems. cbn. split; [lia|]. split; [lia|]. constructor. }
  assert (Forall (live w) l) as Hlive by apply Hok0.
  revert Hch. unfold Pool.choose. unfold bind at 1. cbn [get].
  fold sl0. fold (collection w addr). fold l.
  rewrite (bind_Ret _ _ _ _ _ (scan_spec w l _ Hlive)).
  unfold scan_result.
  destruct (first_with_room w l) as [s0|] eqn:Hf.
  - destruct (first_with_room_elem _ _ _ Hf) as [Hin _].
    assert (live w s0) as Hs0.
    { rewrite Forall_forall in Hlive. by apply Hlive. }
    destruct (closed_at w s0) eqn:Hc.
    + destruct (evict_closed w sl0 s0 true Hok0 Hs0 (wf_objs_nil _ Hwf) Hin Hc)
        as (i & x & Hi & Hx & Hilt & Hev).
      rewrite (bind_Ret _ _ _ _ _ Hev).
      set (wa := write_array _ _ w). intros Hcr.
      destruct (create_frame _ _ _ _ _ _ _ Hcr) as (Hse & Hel & Hcl & Hr).
      split; [done|]. split; [|split; [done|done]].
      intros sl2 Hb [Hne|[Hno _]].
      * rewrite Hel; [|done|intros Heq; by destruct Hne].
        unfold elems, backing. subst wa. cbn. by rewrite lookup_insert_ne.
      * specialize (Hno _ Hf). congruence.
    + rewrite (bind_Ret _ _ _ _ _ (evict_open w sl0 s0 true Hs0 Hc)).
      intros Hcr.
      destruct (create_frame _ _ _ _ _ _ _ Hcr) as (Hse & Hel & Hcl & Hr).
      split; [done|]. split; [|split; [done|done]].
      intros sl2 Hb [Hne|[_ Hlen]]; apply Hel; try done.
  - rewrite (bind_Ret _ _ _ _ _ (evict_nil w sl0 _)).
    intros Hcr.
    destruct (create_frame _ _ _ _ _ _ _ Hcr) as (Hse & Hel & Hcl & Hr).
    split; [done|]. split; [|split; [done|done]].
    intros sl2 Hb [Hne|[_ Hlen]]; apply Hel; try done.
Qed.

(** Lines 142-146 write one object; when [OpenStream] fails they close
    the connection of the session. *)
Lemma GetConn_frame env s w r w2 :
  GetConn_or_close env s w = (r, w2) →
  sessions w2 = sessions w ∧ arrays w2 = arrays w ∧ brk w2 = brk w
  ∧ (closed_conns w2 = closed_conns w
     ∨ ∃ o e, objs w !! s = Some o ∧ closed_at w s = false
              ∧ open_err env = Some e ∧ r = Fail e
              ∧ closed_conns w2 = conn o :: closed_conns w).
Proof.
  unfold GetConn_or_close.
  destruct (muxSession_GetConn (open_err env) s w) as [rg wg] eqn:Hg.
  revert Hg. unfold muxSession_GetConn, bind, deref.
  destruct (objs w !! s) as [o|] eqn:Ho.
  2:{ intros [= <- <-] [= <- <-]. by eauto. }
  destruct (session o) as [m|] eqn:Hm.
  2:{ intros [= <- <-] [= <- <-]. by eauto. }
  unfold Smux.OpenStream. destruct (Smux.IsClosed m) eqn:Hd.
  - intros [= <- <-].
    rewrite (muxSession_Close_closed _ _ _ _ _ Ho Hm Hd).
    intros [= <- <-]. by eauto.
  - destruct (open_err env) as [e|] eqn:He.
    + intros [= <- <-].
      rewrite (muxSession_Close_open _ _ _ _ _ Ho Hm Hd).
      intros [= <- <-]. cbn.
      split; [done|]. split; [done|]. split; [done|]. right.
      exists o, e. split; [done|]. split; [|done].
      unfold closed_at. by rewrite Ho, Hm.
    + intros [= <- <-] [= <- <-]. cbn. by eauto.
Qed.

(** Lines 142-146 create no session object. *)
Lemma GetConn_size env s w :
  size (objs (GetConn_or_close env s w).2) = size (objs w).
Proof.
  unfold GetConn_or_close.
  destruct (muxSession_GetConn (open_err env) s w) as [rg wg] eqn:Hg.
  revert Hg. unfold muxSession_GetConn, bind, deref.
  destruct (objs w !! s) as [o|] eqn:Ho; [|by intros [= <- <-]].
  destruct (session o) as [m|] eqn:Hm; [|by intros [= <- <-]].
  unfold Smux.OpenStream. destruct (Smux.IsClosed m) eqn:Hd.
  - intros [= <- <-].
    by rewrite (muxSession_Close_closed _ _ _ _ _ Ho Hm Hd).
  - destruct (open_err env) as [e|] eqn:He.
    + intros [= <- <-]. rewrite (muxSession_Close_open _ _ _ _ _ Ho Hm Hd).
      cbn. by rewrite map_size_insert_Some.
    + intros [= <- <-]. cbn. by rewrite map_size_insert_Some.
Qed.

(** A call of [Dial] creates at most one session object. *)
Lemma Dial_objs_size env addr w :
  wf w → size (objs (Dial env addr w).2) ≤ S (size (objs w)).
Proof.
  intros Hwf. unfold Pool.Dial, bind.
  destruct (choose env addr w) as [rc w1] eqn:Hch.
  destruct (choose_frame _ _ _ _ _ Hwf Hch) as (_ & _ & _ & Hr).
  assert (size (objs w1) ≤ S (size (objs w))) as H1.
  { assert (objs w1 = objs w ∨ objs w1 = objs (with_new_session w)) as [->| ->].
    { destruct rc as [[sl s]|e|]; [done|left; by destruct Hr|done]. }
    - lia.
    - unfold Pool.with_new_session. cbn.
      rewrite map_size_insert_None; [done|].
      apply (wf_objs_fresh _ Hwf). lia. }
  destruct rc as [[sl s]|e|]; [|done|done].
  pose proof (GetConn_size env s w1) as H2.
  destruct (GetConn_or_close env s w1) as [[cc|e|] w2]; cbn in *; lia.
Qed.

(** What a call of [Dial] leaves as it is, whatever it returns. *)
Lemma Dial_frame env addr w r w' :
  wf w → Dial env addr w = (r, w') →
  (∀ a, a ≠ addr → sessions w' !! a = sessions w !! a)
  ∧ (∀ sl2, base sl2 < brk w →
        base sl2 ≠ base (default nil_slice (sessions w !! addr))
        ∨ (no_eviction w addr
           ∧ len sl2 ≤ len (default nil_slice (sessions w !! addr))) →
        elems w' sl2 = elems w sl2)
  ∧ (closed_conns w' = closed_conns w
     ∨ (closed_conns w' = brk w :: closed_conns w
        ∧ ∃ e, r = Fail e ∧ parse_err env = None ∧ dial_err env = None
               ∧ (ws_err env = Some e
                  ∨ (ws_err env = None ∧ smux_err env = Some e))
               ∧ objs w' = objs w)
     ∨ (∃ e s c, r = Fail e ∧ open_err env = Some e
                 ∧ closed_conns w' = c :: closed_conns w
                 ∧ closed_at w' s = true
                 ∧ ((∃ o, objs w !! s = Some o ∧ conn o = c
                          ∧ closed_at w s = false)
                    ∨ (objs w !! s = None ∧ c = brk w))))
  ∧ match r with
    | Fail e => sessions w' = sessions w ∧ Some e ∈ given_errors env
    | Ret _ => True
    | Panic => False
    end.
Proof.
  intros Hwf HD. unfold Pool.Dial, bind in HD.
  destruct (choose env addr w) as [rc w1] eqn:Hch.
  destruct (choose_spec _ _ _ _ _ _ _ Hwf Hch) as [Hu1 Hrc].
  destruct (choose_frame _ _ _ _ _ Hwf Hch) as (Hse & Hel & Hcl & Hr).
  pose proof (upd_wf _ _ Hwf Hu1) as Hwf1.
  destruct rc as [[sl s]|e|]; [|injection HD as <- <-|done].
  2:{ split; [by rewrite Hse|]. split; [done|]. split.
      - destruct Hcl as [Hcl|(Hcl & e' & He' & ? & ? & ? )]; [by left|right; left].
        split; [done|]. exists e'. destruct Hr as [Ho _].
        injection He' as He'. rewrite He'.
        split; [done|]. split; [done|]. split; [done|]. split; [done|done].
      - destruct Hr as [_ Hin]. split; [done|].
        unfold given_errors. apply list_elem_of_In in Hin.
        apply list_elem_of_In. cbn in *. tauto. }
  destruct Hrc as (Hlive & Hok & Hpos & Hbase & Hcases).
  destruct (GetConn_or_close env s w1) as [rg w2] eqn:Hg.
  destruct (GetConn_frame _ _ _ _ _ Hg) as (Gs & Ga & Gb & Gc).
  destruct (GetConn_spec _ _ _ _ _ Hwf1 Hlive Hg) as (_ & _ & _ & _ & Hrg).
  assert (closed_at w1 s = false) as Hopen.
  { destruct Hcases as [(_ & Hc & -> & _)|(_ & -> & Ho & _)]; [done|].
    rewrite (closed_at_objs _ _ _ Ho). unfold closed_at, Pool.with_new_session.
    cbn. by rewrite lookup_insert_eq. }
  assert (closed_conns w1 = closed_conns w) as Hcl1.
  { destruct Hcl as [Hcl|(_ & e' & He' & _)]; [done|done]. }
  assert (∀ sl2, elems w2 sl2 = elems w1 sl2) as He2.
  { intros sl2. by apply elems_arrays. }
  destruct rg as [cc|e|]; [|injection HD as <- <-|done].
  2:{ split; [by rewrite Gs, Hse|]. split.
      { intros sl2 Hb Hc. rewrite He2. by apply Hel. }
      destruct Hrg as [Hc2 [Hc|He]]; [congruence|].
      split.
      { destruct Gc as [Gc|(o & e' & Ho & _ & He' & _ & Gc)];
          [left; by rewrite Gc|right; right].
        exists e, s, (conn o). split; [done|]. split; [done|].
        split; [by rewrite Gc, Hcl1|]. split; [done|].
        destruct Hcases as [(_ & Hc & -> & _)|(_ & -> & Hobj & _)].
        - left. by exists o.
        - right. split; [apply (wf_objs_fresh _ Hwf); lia|].
          rewrite Hobj in Ho. unfold Pool.with_new_session in Ho. cbn in Ho.
          rewrite lookup_insert_eq in Ho. by injection Ho as <-. }
      split; [by rewrite Gs|].
      unfold given_errors. rewrite He. apply list_elem_of_In. cbn. tauto. }
  cbn in HD. injection HD as <- <-.
  assert (closed_conns w2 = closed_conns w) as Hcl2.
  { destruct Gc as [Gc|(o & e' & _ & _ & _ & Hf & _)]; [by rewrite Gc|done]. }
  split.
  { intros a Ha. cbn. rewrite lookup_insert_ne by done. by rewrite Gs, Hse. }
  split.
  { intros sl2 Hb Hc. change (elems (write_map addr sl w2) sl2) with (elems w2 sl2).
    rewrite He2. by apply Hel. }
  split; [by left|done].
Qed.

(** The slice of another address lies in the heap, on an array of its
    own. *)
Lemma other_slice_apart w addr a sl2 :
  wf w → a ≠ addr → sessions w !! a = Some sl2 →
  base sl2 < brk w
  ∧ base sl2 ≠ base (default nil_slice (sessions w !! addr)).
Proof.
  intros Hwf Ha Hs2.
  destruct (wf_slices _ Hwf _ _ Hs2) as [Hp2 Hok2].
  destruct (slice_in_heap _ _ Hwf Hp2 Hok2) as [Hn2 Hlt2].
  split; [done|].
  destruct (sessions w !! addr) as [sl0|] eqn:Hs0; cbn; [|done].
  intros Heq. apply Ha. by apply (wf_sep _ Hwf _ _ _ _ Hs2 Hs0).
Qed.

(** Property X2.  A call of [Dial] for one address, whatever it returns,
    leaves the entry of the map and the collection of every other address
    as they were: slices of different addresses share no backing array. *)
Theorem Dial_leaves_other_addresses env addr w r w' a :
  wf w → Dial env addr w = (r, w') → a ≠ addr →
  sessions w' !! a = sessions w !! a ∧ collection w' a = collection w a.
Proof.
  intros Hwf HD Ha.
  destruct (Dial_frame _ _ _ _ _ Hwf HD) as (Hse & Hel & _).
  split; [by apply Hse|].
  unfold collection. rewrite (Hse _ Ha).
  destruct (sessions w !! a) as [sl2|] eqn:Hs2; cbn; [|done].
  destruct (other_slice_apart _ _ _ _ Hwf Ha Hs2) as [Hlt Hne].
  apply Hel; [done|by left].
Qed.

(** Property X3.  A call of [Dial] that fails without having swapped out
    a closed candidate (lines 106-120 did nothing) leaves the map and the
    collection of every address as they were; an [append] it may have done
    before failing wrote past the stored length only. *)
Theorem failed_dial_without_eviction_keeps_pool env addr w e w' :
  wf w → no_eviction w addr → Dial env addr w = (Fail e, w') →
  sessions w' = sessions w ∧ ∀ a, collection w' a = collection w a.
Proof.
  intros Hwf Hno HD.
  destruct (Dial_frame _ _ _ _ _ Hwf HD) as (_ & Hel & _ & Hse & _).
  split; [done|]. intros a. unfold collection. rewrite Hse.
  destruct (decide (a = addr)) as [->|Ha].
  - apply Hel; [|by right].
    destruct (sessions w !! addr) as [sl0|] eqn:Hs0; cbn.
    + destruct (wf_slices _ Hwf _ _ Hs0) as [Hp Hok].
      by destruct (slice_in_heap _ _ Hwf Hp Hok).
    + apply (wf_brk _ Hwf).
  - destruct (sessions w !! a) as [sl2|] eqn:Hs2; cbn; [|done].
    destruct (other_slice_apart _ _ _ _ Hwf Ha Hs2) as [Hlt Hne].
    apply Hel; [done|by left].
Qed.

(** Property X6.  A call of [Dial] closes at most one connection, and
    only when it fails: the connection it has just dialled at line 128
    when [initSession] fails (line 136), the call then having created no
    session; or, when [OpenStream] fails, the connection of the session
    the stream was asked from, which [session.Close()] (line 144) closes
    together with the session, and which is the connection just dialled
    when that session is new.  A call that returns a stream closes no
    connection. *)
Theorem Dial_closes_at_most_one_connection env addr w r w' :
  wf w → Dial env addr w = (r, w') →
  (∀ cc, r = Ret cc → closed_conns w' = closed_conns w)
  ∧ (closed_conns w' = closed_conns w
     ∨ (closed_conns w' = brk w :: closed_conns w
        ∧ ∃ e, r = Fail e ∧ parse_err env = None ∧ dial_err env = None
               ∧ (ws_err env = Some e
                  ∨ (ws_err env = None ∧ smux_err env = Some e))
               ∧ objs w' = objs w)
     ∨ (∃ e s c, r = Fail e ∧ open_err env = Some e
                 ∧ closed_conns w' = c :: closed_conns w
                 ∧ closed_at w' s = true
                 ∧ ((∃ o, objs w !! s = Some o ∧ conn o = c
                          ∧ closed_at w s = false)
                    ∨ (objs w !! s = None ∧ c = brk w)))).
Proof.
  intros Hwf HD. destruct (Dial_frame _ _ _ _ _ Hwf HD) as (_ & _ & Hcl & _).
  split; [|exact Hcl].
  intros cc ->.
  destruct Hcl as [Hcl|[(_ & e & He & _)|(e & s & c & He & _)]];
    [exact Hcl|discriminate He|discriminate He].
Qed.

(** Property X1.  In every state of the pool a program can reach, a call
    of [Dial] does not panic: the dereferences of lines 96, 106 and 142
    find a session and the index of line 117 is in range.  When the call
    returns an error, it is one that [url.Parse], [net.DialTimeout], the
    websocket handshake, [smux.Client] or [OpenStream] gave during the
    call. *)
Theorem Dial_never_panics env addr w r w' :
  reachable w → Dial env addr w = (r, w') →
  r ≠ Panic ∧ ∀ e, r = Fail e → Some e ∈ given_errors env.
Proof.
  intros Hre HD. apply reachable_wf in Hre.
  destruct (Dial_frame _ _ _ _ _ Hre HD) as (_ & _ & _ & Hr).
  destruct r as [cc|e|]; [|split; [done|]|done].
  - split; [done|]. intros e [=].
  - intros e' [= <-]. by destruct Hr.
Qed.

Lemma swap_out_Permutation {A} (l : list A) i x :
  i < length l → l !! (length l - 1) = Some x →
  take (length l - 1) (<[i := x]> l) ≡ₚ delete i l.
Proof.
  intros Hi Hx.
  assert (∃ l', l = l' ++ [x]) as [l' ->].
  { exists (take (length l - 1) l).
    pose proof (take_drop_middle l (length l - 1) x Hx) as H.
    rewrite drop_ge in H by lia. done. }
  clear Hx. rewrite length_app in *. cbn [length] in *.
  replace (length l' + 1 - 1) with (length l') by lia.
  destruct (decide (i = length l')) as [->|Hne].
  - rewrite insert_app_r_alt by lia. rewrite Nat.sub_diag. cbn.
    rewrite take_app_length. rewrite delete_take_drop.
    rewrite take_app_length. rewrite drop_ge by (rewrite length_app; cbn; lia).
    by rewrite app_nil_r.
  - rewrite insert_app_l by lia.
    rewrite take_app_length' by (rewrite length_insert; lia).
    rewrite delete_take_drop.
    rewrite take_app_le by lia. rewrite drop_app_le by lia.
    rewrite insert_take_drop by lia.
    rewrite app_assoc. rewrite <- Permutation_cons_append.
    by rewrite Permutation_middle.
Qed.

(** Property X4.  When the candidate of the scan is closed and the call
    returns a stream, the stored collection is, up to order, the old one
    without the first occurrence of the candidate and with the session
    the call created, which is new: every other session is kept. *)
Theorem eviction_drops_one_occurrence env addr w s0 cc w' :
  wf w → first_with_room w (collection w addr) = Some s0 →
  closed_at w s0 = true →
  Dial env addr w = (Ret cc, w') →
  ∃ i, collection w addr !! i = Some s0
       ∧ (∀ j, j < i → collection w addr !! j ≠ Some s0)
       ∧ objs w !! stream_owner cc = None
       ∧ collection w' addr ≡ₚ delete i (collection w addr) ++ [stream_owner cc].
Proof.
  intros Hwf Hf Hc HD.
  destruct (Dial_spec _ _ _ _ _ _ _ Hwf HD) as [_ (_ & _ & _ & Hcases)].
  destruct Hcases as [(Hf' & Hc' & _)|(_ & _ & Hfresh & _ & _ & [[Hf' _]|Hev])].
  - rewrite Hf in Hf'. injection Hf' as Hf'. congruence.
  - congruence.
  - destruct Hev as (s1 & i & x & Hf' & _ & Hi & Hx & Hcol).
    rewrite Hf in Hf'. injection Hf' as <-.
    destruct (find_idx_Some _ _ _ _ Hi) as (_ & Hi' & Hmin).
    rewrite Nat.sub_0_r in Hi', Hmin.
    exists i. split; [done|]. split; [done|]. split; [done|].
    rewrite Hcol. f_equiv. unfold swap_out.
    apply swap_out_Permutation; [|done]. by apply lookup_lt_Some in Hi'.
Qed.

(** Property X5.  When the scan finds an open session with room, [Dial]
    returns a stream of that session whatever [url.Parse], the TCP dial
    and the handshakes would answer: lines 123-140 are skipped.  The call
    adds one stream to that session and changes nothing else: no
    allocation, no write to an array, no connection closed, the same
    map. *)
Theorem reuse_needs_no_network env addr w s :
  wf w → first_with_room w (collection w addr) = Some s →
  closed_at w s = false → open_err env = None →
  ∃ cc w', Dial env addr w = (Ret cc, w')
    ∧ stream_owner cc = s
    ∧ streams_at w' s = (streams_at w s + 1)%Z
    ∧ (∀ p, p ≠ s → objs w' !! p = objs w !! p)
    ∧ sessions w' = sessions w ∧ arrays w' = arrays w
    ∧ closed_conns w' = closed_conns w ∧ brk w' = brk w.
Proof.
  intros Hwf Hf Hc Ho.
  set (sl0 := default nil_slice (sessions w !! addr)).
  assert (Forall (live w) (collection w addr)) as Hlive by by apply collection_live.
  destruct (first_with_room_elem _ _ _ Hf) as [Hin _].
  assert (live w s) as Hs.
  { rewrite Forall_forall in Hlive. by apply Hlive. }
  assert (sessions w !! addr = Some sl0) as Hs0.
  { subst sl0. unfold collection in Hin.
    destruct (sessions w !! addr) as [sl|]; [done|].
    cbn in Hin. unfold elems in Hin. cbn in Hin. by apply elem_of_nil in Hin. }
  assert (choose env addr w = (Ret (sl0, s), w)) as Hch.
  { unfold Pool.choose. unfold bind at 1. cbn [get].
    fold sl0. fold (collection w addr).
    rewrite (bind_Ret _ _ _ _ _ (scan_spec w _ _ Hlive)).
    unfold scan_result. rewrite Hf.
    rewrite (bind_Ret _ _ _ _ _ (evict_open w sl0 s true Hs Hc)).
    done. }
  destruct (GetConn_or_close env s w) as [rg w2] eqn:Hg.
  destruct (GetConn_frame _ _ _ _ _ Hg) as (Gs & Ga & Gb & Gc).
  destruct (GetConn_spec _ _ _ _ _ Hwf Hs Hg) as (_ & _ & Hfr & _ & Hrg).
  destruct rg as [cc|e|]; [|destruct Hrg as [_ [?|?]]; congruence|done].
  destruct Hrg as (Hown & _ & _ & _ & Hst & _).
  assert (closed_conns w2 = closed_conns w) as Gc'.
  { destruct Gc as [Gc|(? & ? & _ & _ & _ & [=] & _)]; exact Gc. }
  exists cc, (write_map addr sl0 w2).
  split.
  { unfold Pool.Dial. rewrite (bind_Ret _ _ _ _ _ Hch).
    by rewrite (bind_Ret _ _ _ _ _ Hg). }
  split; [done|]. split; [done|]. split; [done|].
  split; [|done].
  cbn. rewrite Gs. by apply insert_id.
Qed.

Lemma within_maximum_objs w w' :
  objs w' = objs w → within_maximum MaxMWSSStreamCnt w →
  within_maximum MaxMWSSStreamCnt w'.
Proof. unfold within_maximum. by intros ->. Qed.

Lemma within_maximum_write w p o m :
  within_maximum MaxMWSSStreamCnt w →
  maxStreamCnt o = MaxMWSSStreamCnt → session o = Some m →
  (0 ≤ Smux.streams m ≤ MaxMWSSStreamCnt)%Z →
  within_maximum MaxMWSSStreamCnt (write_obj p o w).
Proof.
  intros Hw Hmax Hm Hb q o'. cbn.
  destruct (decide (p = q)) as [->|Hne].
  - rewrite lookup_insert_eq. intros [= <-]. eauto.
  - rewrite lookup_insert_ne by done. apply Hw.
Qed.

Lemma within_maximum_new w :
  (1 ≤ MaxMWSSStreamCnt)%Z → within_maximum MaxMWSSStreamCnt w →
  within_maximum MaxMWSSStreamCnt (with_new_session w).
Proof.
  intros Hmax Hw. unfold Pool.with_new_session.
  apply (within_maximum_write _ _ _ Smux.fresh); [|done|done|cbn; lia].
  by apply (within_maximum_objs w).
Qed.

Lemma muxSession_Close_within ce p w :
  within_maximum MaxMWSSStreamCnt w →
  within_maximum MaxMWSSStreamCnt (muxSession_Close ce p w).2.
Proof.
  intros Hw.
  destruct (muxSession_Close_cases ce p w) as [->|(o & m & Ho & Hm & _ & ->)];
    [done|].
  destruct (Hw _ _ Ho) as (Hmax & m' & Hm' & Hb).
  rewrite Hm in Hm'. injection Hm' as <-. cbn [snd].
  eapply within_maximum_objs; [reflexivity|].
  eapply within_maximum_write; [done|done|done|done].
Qed.

Lemma muxSession_GetConn_within fault s w :
  within_maximum MaxMWSSStreamCnt w →
  (closed_at w s = false → has_room w s = true) →
  within_maximum MaxMWSSStreamCnt (muxSession_GetConn fault s w).2.
Proof.
  intros Hw Hroom. unfold muxSession_GetConn, bind, deref.
  destruct (objs w !! s) as [o|] eqn:Ho; [|done].
  destruct (Hw _ _ Ho) as (Hmax & m & Hm & Hb). rewrite Hm.
  unfold has_room, closed_at, streams_at, limit_at in Hroom.
  rewrite Ho, Hm in Hroom. unfold Smux.NumStreams in Hroom.
  unfold Smux.OpenStream. destruct (Smux.IsClosed m); [done|].
  destruct fault as [e|]; [done|].
  specialize (Hroom eq_refl). apply Z.ltb_lt in Hroom. cbn.
  eapply within_maximum_write; [done|done|done|cbn; lia].
Qed.

(** Lines 142-146 keep the bound when the session, if open, has room. *)
Lemma GetConn_within env s w :
  within_maximum MaxMWSSStreamCnt w →
  (closed_at w s = false → has_room w s = true) →
  within_maximum MaxMWSSStreamCnt (GetConn_or_close env s w).2.
Proof.
  intros Hw Hroom.
  pose proof (muxSession_GetConn_within (open_err env) s w Hw Hroom) as Hg.
  unfold GetConn_or_close.
  destruct (muxSession_GetConn (open_err env) s w) as [[cc|e|] wg];
    cbn [snd] in *; [done| |done].
  pose proof (muxSession_Close_within (close_err env) s wg Hg) as Hc.
  unfold bind. destruct (muxSession_Close (close_err env) s wg) as [[?|?|] wc];
    exact Hc.
Qed.

Lemma Dial_within env addr w :
  (1 ≤ MaxMWSSStreamCnt)%Z → wf w →
  within_maximum MaxMWSSStreamCnt w →
  within_maximum MaxMWSSStreamCnt (Dial env addr w).2.
Proof.
  intros Hmax Hwf Hw. unfold Pool.Dial, bind.
  destruct (choose env addr w) as [rc w1] eqn:Hch.
  destruct (choose_spec _ _ _ _ _ _ _ Hwf Hch) as [_ Hrc].
  destruct (choose_frame _ _ _ _ _ Hwf Hch) as (_ & _ & _ & Hr).
  destruct rc as [[sl s]|e|]; [|destruct Hr as [Ho _]; by apply (within_maximum_objs w)|done].
  destruct Hrc as (Hlive & _ & _ & _ & Hcases).
  assert (within_maximum MaxMWSSStreamCnt w1
          ∧ (closed_at w1 s = false → has_room w1 s = true)) as [Hw1 Hroom].
  { destruct Hcases as [(Hf & _ & -> & _)|(_ & -> & Ho & _)].
    - split; [done|]. intros _. by destruct (first_with_room_elem _ _ _ Hf).
    - split.
      + apply (within_maximum_objs (with_new_session w)); [done|].
        by apply within_maximum_new.
      + intros _. unfold has_room, streams_at, limit_at. rewrite Ho.
        unfold Pool.with_new_session. cbn. rewrite lookup_insert_eq. cbn.
        apply Z.ltb_lt. lia. }
  pose proof (GetConn_within env s w1 Hw1 Hroom) as Hw2.
  destruct (GetConn_or_close env s w1) as [[cc|e|] w2]; cbn in Hw2; try done.
Qed.

Lemma session_dies_within p w :
  within_maximum MaxMWSSStreamCnt w →
  within_maximum MaxMWSSStreamCnt (session_dies p w).
Proof.
  intros Hw. by apply muxSession_Close_within.
Qed.

Lemma stream_closes_within p w :
  within_maximum MaxMWSSStreamCnt w →
  within_maximum MaxMWSSStreamCnt (stream_closes p w).
Proof.
  intros Hw. unfold stream_closes.
  destruct (objs w !! p) as [o|] eqn:Ho; [|done].
  destruct (Hw _ _ Ho) as (Hmax & m & Hm & Hb). rewrite Hm.
  destruct (Smux.IsClosed m) eqn:Hd; [done|]. cbn [orb].
  destruct (Z.leb_spec (Smux.streams m) 0); [done|].
  eapply within_maximum_write; [done|done|done|cbn; lia].
Qed.

Lemma reachable_within w :
  (1 ≤ MaxMWSSStreamCnt)%Z → reachable w →
  within_maximum MaxMWSSStreamCnt w.
Proof.
  intros Hmax. unfold Pool.reachable. revert w. apply rtc_ind_r.
  - intros p o. cbn. by rewrite lookup_empty.
  - intros w1 w2 Hre Hstep IH.
    destruct Hstep; [apply Dial_within;
                       [done|by apply (reachable_wf MaxMWSSStreamCnt growcap)|done]
                    |by apply session_dies_within|by apply stream_closes_within].
Qed.

Lemma streams_nonneg_objs w w' :
  objs w' = objs w → streams_nonneg w → streams_nonneg w'.
Proof. unfold streams_nonneg. by intros ->. Qed.

Lemma streams_nonneg_write w p o :
  streams_nonneg w →
  (∀ m, session o = Some m → (0 ≤ Smux.streams m)%Z) →
  streams_nonneg (write_obj p o w).
Proof.
  intros Hw Ho q o' m. cbn.
  destruct (decide (p = q)) as [->|Hne].
  - rewrite lookup_insert_eq. intros [= <-]. apply Ho.
  - rewrite lookup_insert_ne by done. apply Hw.
Qed.

Lemma muxSession_Close_nonneg ce p w :
  streams_nonneg w → streams_nonneg (muxSession_Close ce p w).2.
Proof.
  intros Hw.
  destruct (muxSession_Close_cases ce p w) as [->|(o & m & Ho & Hm & _ & ->)];
    [done|].
  cbn [snd]. eapply streams_nonneg_objs; [reflexivity|].
  apply streams_nonneg_write; [done|]. intros m' [= <-]. cbn.
  by apply (Hw _ _ _ Ho Hm).
Qed.

Lemma GetConn_nonneg env s w :
  streams_nonneg w → streams_nonneg (GetConn_or_close env s w).2.
Proof.
  intros Hw.
  assert (streams_nonneg (muxSession_GetConn (open_err env) s w).2) as Hg.
  { unfold muxSession_GetConn, bind, deref.
    destruct (objs w !! s) as [o|] eqn:Ho; [|done].
    destruct (session o) as [m|] eqn:Hm; [|done].
    unfold Smux.OpenStream. destruct (Smux.IsClosed m); [done|].
    destruct (open_err env) as [e|]; [done|]. cbn.
    apply streams_nonneg_write; [done|]. intros m' [= <-]. cbn.
    pose proof (Hw _ _ _ Ho Hm). lia. }
  unfold GetConn_or_close.
  destruct (muxSession_GetConn (open_err env) s w) as [[cc|e|] wg];
    cbn [snd] in *; [done| |done].
  pose proof (muxSession_Close_nonneg (close_err env) s wg Hg) as Hc.
  unfold bind. destruct (muxSession_Close (close_err env) s wg) as [[?|?|] wc];
    exact Hc.
Qed.

Lemma Dial_nonneg env addr w :
  wf w → streams_nonneg w → streams_nonneg (Dial env addr w).2.
Proof.
  intros Hwf Hw. unfold Pool.Dial, bind.
  destruct (choose env addr w) as [rc w1] eqn:Hch.
  destruct (choose_frame _ _ _ _ _ Hwf Hch) as (_ & _ & _ & Hr).
  assert (streams_nonneg w1) as Hw1.
  { destruct rc as [[sl s]|e|]; [|destruct Hr as [Ho _]|done].
    - destruct Hr as [Ho|Ho]; [by apply (streams_nonneg_objs w)|].
      apply (streams_nonneg_objs (with_new_session w)); [done|].
      unfold Pool.with_new_session. apply streams_nonneg_write.
      + by apply (streams_nonneg_objs w).
      + intros m [= <-]. done.
    - by apply (streams_nonneg_objs w). }
  destruct rc as [[sl s]|e|]; [|done|done].
  pose proof (GetConn_nonneg env s w1 Hw1) as Hw2.
  destruct (GetConn_or_close env s w1) as [[cc|e|] w2]; cbn in Hw2; try done.
Qed.

Lemma stream_closes_nonneg p w :
  streams_nonneg w → streams_nonneg (stream_closes p w).
Proof.
  intros Hw. unfold stream_closes.
  destruct (objs w !! p) as [o|] eqn:Ho; [|done].
  destruct (session o) as [m|] eqn:Hm; [|done].
  destruct (Smux.IsClosed m); [done|]. cbn [orb].
  destruct (Z.leb_spec (Smux.streams m) 0); [done|].
  apply streams_nonneg_write; [done|]. intros m' [= <-]. cbn. lia.
Qed.

Lemma reachable_nonneg w : reachable w → streams_nonneg w.
Proof.
  unfold Pool.reachable. revert w. apply rtc_ind_r.
  - intros p o m. cbn. by rewrite lookup_empty.
  - intros w1 w2 Hre Hstep IH.
    destruct Hstep; [apply Dial_nonneg;
                       [by apply (reachable_wf MaxMWSSStreamCnt growcap)|done]
                    |by apply muxSession_Close_nonneg
                    |by apply stream_closes_nonneg].
Qed.

(** Property X7.  With [MaxMWSSStreamCnt] at least 1, in every state of
    the pool a program can reach, every session wrapper has a multiplexer
    handle, has [MaxMWSSStreamCnt] as its maximum (line 174), and counts
    between 0 and [MaxMWSSStreamCnt] streams: [Dial] opens a stream only
    from a session the scan found below its maximum or from a new one. *)
Theorem stream_count_within_maximum w p :
  (1 ≤ MaxMWSSStreamCnt)%Z → reachable w → is_Some (objs w !! p) →
  live w p ∧ limit_at w p = MaxMWSSStreamCnt
  ∧ (0 ≤ streams_at w p ≤ MaxMWSSStreamCnt)%Z.
Proof.
  intros Hmax Hre [o Ho].
  destruct (reachable_within _ Hmax Hre _ _ Ho) as (Hlim & m & Hm & Hb).
  split; [by exists o, m|].
  unfold limit_at, streams_at. rewrite Ho, Hm. split; [done|].
  unfold Smux.NumStreams. destruct (Smux.IsClosed m); lia.
Qed.

End Frames.

Lemma two_addresses_wf : wf two_addresses.
Proof. apply Dial_wf, one_wf. Qed.

Lemma Dial_leaves_other_addresses_witness :
  wf two_addresses ∧ "y" ≠ "x"
  ∧ collection two_addresses "y" = [5]
  ∧ collection (dial 1 all_good two_addresses) "y" = [5].
Proof.
  split; [apply two_addresses_wf|]. split; [done|].
  assert (collection two_addresses "y" = [5]) as Hy by (vm_compute; reflexivity).
  split; [exact Hy|]. rewrite <- Hy.
  refine (proj2 (Dial_leaves_other_addresses 1 growcap_double all_good "x"
            two_addresses (Dial 1 growcap_double all_good "x" two_addresses).1
            _ "y" two_addresses_wf _ _)); [|done].
  unfold dial. by destruct (Dial 1 growcap_double all_good "x" two_addresses).
Defined.

Lemma failed_dial_without_eviction_keeps_pool_witness :
  wf one ∧ no_eviction one "x"
  ∧ Dial 1 growcap_double no_route "x" one
    = (Fail (Error 7 false), dial 1 no_route one)
  ∧ ∀ a, collection (dial 1 no_route one) a = collection one a.
Proof.
  assert (no_eviction one "x") as Hno.
  { intros s. vm_compute. discriminate. }
  assert (Dial 1 growcap_double no_route "x" one
          = (Fail (Error 7 false), dial 1 no_route one)) as HD
    by (vm_compute; reflexivity).
  split; [apply one_wf|]. split; [exact Hno|]. split; [exact HD|].
  exact (proj2 (failed_dial_without_eviction_keeps_pool 1 growcap_double no_route
                  "x" one _ _ one_wf Hno HD)).
Defined.

Lemma Dial_closes_at_most_one_connection_witness :
  wf first2
  ∧ Dial 2 growcap_double broken_pipe "x" first2
    = (Fail (Error 9 false), (Dial 2 growcap_double broken_pipe "x" first2).2)
  ∧ closed_conns (Dial 2 growcap_double broken_pipe "x" first2).2
    = 1 :: closed_conns first2.
Proof.
  assert (Dial 2 growcap_double broken_pipe "x" first2
          = (Fail (Error 9 false),
             (Dial 2 growcap_double broken_pipe "x" first2).2)) as HD
    by (vm_compute; reflexivity).
  split; [apply first2_wf|]. split; [exact HD|].
  destruct (proj2 (Dial_closes_at_most_one_connection 2 growcap_double broken_pipe
                     "x" first2 _ _ first2_wf HD))
    as [H|[(_ & e & _ & _ & _ & [Hws|[_ Hsm]] & _)|(e & s & c & _ & _ & H & _)]].
  - vm_compute in H. discriminate.
  - discriminate Hws.
  - discriminate Hsm.
  - rewrite H. f_equal. vm_compute in H. by injection H as <-.
Defined.

Lemma Dial_never_panics_witness :
  reachable 1 growcap_double two_first_dead
  ∧ Dial 1 growcap_double no_route "x" two_first_dead
    = (Fail (Error 7 false), duplicated)
  ∧ Some (Error 7 false) ∈ given_errors no_route.
Proof.
  assert (Dial 1 growcap_double no_route "x" two_first_dead
          = (Fail (Error 7 false), duplicated)) as HD by (vm_compute; reflexivity).
  split; [apply reach_two_first_dead|]. split; [exact HD|].
  exact (proj2 (Dial_never_panics 1 growcap_double no_route "x" two_first_dead _ _
                  reach_two_first_dead HD) _ eq_refl).
Defined.

Lemma eviction_drops_one_occurrence_witness :
  wf one_dead ∧ first_with_room one_dead (collection one_dead "x") = Some 2
  ∧ closed_at one_dead 2 = true
  ∧ Dial 1 growcap_double all_good "x" one_dead
    = (Ret {| Conn := 4; stream_owner := 5; stream_rank := 1 |},
       dial 1 all_good one_dead)
  ∧ ∃ i, collection one_dead "x" !! i = Some 2
         ∧ collection (dial 1 all_good one_dead) "x"
           ≡ₚ delete i (collection one_dead "x") ++ [5].
Proof.
  assert (first_with_room one_dead (collection one_dead "x") = Some 2) as Hf
    by (vm_compute; reflexivity).
  assert (closed_at one_dead 2 = true) as Hc by (vm_compute; reflexivity).
  assert (Dial 1 growcap_double all_good "x" one_dead
    = (Ret {| Conn := 4; stream_owner := 5; stream_rank := 1 |},
       dial 1 all_good one_dead)) as HD by (vm_compute; reflexivity).
  split; [apply one_dead_wf|]. split; [exact Hf|]. split; [exact Hc|].
  split; [exact HD|].
  destruct (eviction_drops_one_occurrence 1 growcap_double all_good "x" one_dead 2 _ _
              one_dead_wf Hf Hc HD) as (i & Hi & _ & _ & Hp).
  exists i. split; [exact Hi|exact Hp].
Defined.

Lemma reuse_needs_no_network_witness :
  wf first2 ∧ first_with_room first2 (collection first2 "x") = Some 2
  ∧ closed_at first2 2 = false ∧ open_err no_route = None
  ∧ ∃ cc w', Dial 2 growcap_double no_route "x" first2 = (Ret cc, w')
             ∧ stream_owner cc = 2 ∧ brk w' = brk first2.
Proof.
  assert (first_with_room first2 (collection first2 "x") = Some 2) as Hf
    by (vm_compute; reflexivity).
  assert (closed_at first2 2 = false) as Hc by (vm_compute; reflexivity).
  split; [apply first2_wf|]. split; [exact Hf|]. split; [exact Hc|].
  split; [reflexivity|].
  destruct (reuse_needs_no_network 2 growcap_double no_route "x" first2 2
              first2_wf Hf Hc eq_refl)
    as (cc & w' & HD & Ho & _ & _ & _ & _ & _ & Hb).
  exists cc, w'. split; [exact HD|]. split; [exact Ho|exact Hb].
Defined.

Lemma stream_count_within_maximum_witness :
  (1 ≤ 1)%Z ∧ reachable 1 growcap_double two ∧ is_Some (objs two !! 5)
  ∧ limit_at two 5 = 1%Z ∧ (0 ≤ streams_at two 5%nat ≤ 1)%Z.
Proof.
  assert (is_Some (objs two !! 5)) as Hs by (vm_compute; eauto).
  split; [lia|]. split; [apply reach_two|]. split; [exact Hs|].
  exact (proj2 (stream_count_within_maximum 1 growcap_double two 5
                  ltac:(lia) reach_two Hs)).
Defined.



Section HandlerFacts.
Variable MaxMWSSStreamCnt : Z.
Variable growcap : nat → nat.
Variable transport : muxStreamConn → ptr → World → World * bool.
Variable fin : option error.
Local Abbreviation Dial := (Dial MaxMWSSStreamCnt growcap).
Local Abbreviation reachable := (reachable MaxMWSSStreamCnt growcap).
Local Abbreviation handleTcpOverMWSS :=
  (handleTcpOverMWSS MaxMWSSStreamCnt growcap transport fin).

(** Property X9.  [handleTcpOverMWSS] (lines 299-310) closes the TCP
    connection it was given on every way out, whatever [transport] does,
    and returns what [Dial] gives: nil when [Dial] returns a stream, and
    exactly the error of [Dial] otherwise.  In a state of the pool a
    program can reach it does not panic ([transport] and the [Close] of
    the stream being taken to return).  When, in such a state, [transport]
    has left the sessions as they were and the stream open, the deferred
    [wsc.Close()] gives back the stream [Dial] took: every session then
    counts the streams it counted before the call. *)
Theorem handler_returns_its_stream env remote c w r w' :
  handleTcpOverMWSS env remote c w = (r, w') →
  c ∈ closed_conns w'
  ∧ match (Dial env (remote +:+ "/tcp/") w).1 with
    | Ret _ => r = Ret tt
    | Fail e => r = Fail e
    | Panic => r = Panic
    end
  ∧ (reachable w → r ≠ Panic)
  ∧ (reachable w → ∀ cc w1 w2,
       Dial env (remote +:+ "/tcp/") w = (Ret cc, w1) →
       transport cc c w1 = (w2, true) → objs w2 = objs w1 →
       ∀ p, streams_at w' p = streams_at w p).
Proof.
  unfold Handlers.handleTcpOverMWSS.
  destruct (Dial env (remote +:+ "/tcp/") w) as [rd w1] eqn:HD.
  assert (reachable w → rd ≠ Panic) as Hnp.
  { intros Hre ->. pose proof (reachable_wf _ _ _ Hre) as Hwf.
    by destruct (Dial_spec _ _ _ _ _ _ _ Hwf HD). }
  destruct rd as [cc|e|]; cbn [fst].
  2:{ intros [= <- <-]. split; [by left|]. split; [done|].
      split; [done|]. intros _ cc w1' w2 [=]. }
  2:{ intros [= <- <-]. split; [by left|]. split; [done|].
      split; [by intros []%Hnp|]. intros _ cc w1' w2 [=]. }
  destruct (transport cc c w1) as [wt open] eqn:Ht.
  intros [= <- <-]. split; [by left|]. split; [done|]. split; [done|].
  intros Hre cc' w1' w2 [= <- <-]. rewrite Ht. intros [= <- ->] Htr p.
  pose proof (reachable_wf _ _ _ Hre) as Hwf.
  pose proof (reachable_nonneg _ _ _ Hre) as Hnn.
  destruct (Dial_spec _ _ _ _ _ _ _ Hwf HD) as [_ Hrd]. cbn zeta in Hrd.
  destruct Hrd as (Hopen & _ & Hfr & Hcases).
  set (s := stream_owner cc) in *.
  change (streams_at (note_closed c (muxStreamConn_Close true fin cc wt).2) p)
    with (streams_at (stream_closes s wt) p).
  assert (∃ o n, objs w1 !! s = Some o
                 ∧ session o = Some {| Smux.die := false; Smux.streams := n |}
                 ∧ n = (streams_at w s + 1)%Z ∧ (0 ≤ streams_at w s)%Z)
    as (o & n & Ho & Hm & Hn & Hpos).
  { assert (streams_at w1 s = (streams_at w s + 1)%Z ∧ (0 ≤ streams_at w s)%Z)
      as [Hst Hpos].
    { destruct Hcases as [(_ & _ & _ & Hst & _)|(_ & _ & Hnone & Hst & _)].
      - split; [done|]. unfold streams_at.
        destruct (objs w !! s) as [o|] eqn:Ho; [|done].
        destruct (session o) as [m|] eqn:Hm; [|done].
        pose proof (Hnn _ _ _ Ho Hm).
        unfold Smux.NumStreams. destruct (Smux.IsClosed m); lia.
      - unfold streams_at at 2 3. rewrite Hnone. split; [done|lia]. }
    unfold closed_at in Hopen. unfold streams_at at 1 in Hst.
    destruct (objs w1 !! s) as [o|] eqn:Ho; [|done].
    destruct (session o) as [[d n]|] eqn:Hm; [|done].
    unfold Smux.NumStreams in Hst. cbn in Hopen, Hst. subst d. cbn in Hst.
    exists o, n. done. }
  unfold stream_closes. rewrite Htr, Ho, Hm.
  cbn [Smux.IsClosed Smux.die orb Smux.streams].
  destruct (Z.leb_spec n 0); [lia|].
  unfold streams_at at 1. cbn. rewrite Htr.
  destruct (decide (s = p)) as [<-|Hne].
  - rewrite lookup_insert_eq. cbn. unfold Smux.NumStreams. cbn. lia.
  - rewrite lookup_insert_ne by done. rewrite Hfr by done. done.
Qed.

End HandlerFacts.

Lemma handler_returns_its_stream_witness :
  reachable 1 growcap_double one
  ∧ ∃ w', handleTcpOverMWSS 1 growcap_double quiet_transport None all_good "x" 9 one
          = (Ret tt, w')
          ∧ 9 ∈ closed_conns w'
          ∧ ∀ p, streams_at w' p = streams_at one p.
Proof.
  split; [apply reach_one|].
  eexists. split; [vm_compute; reflexivity|].
  refine ((λ H, conj (proj1 H)
                  (proj2 (proj2 (proj2 H)) reach_one _ _ _ _ eq_refl eq_refl))
            (handler_returns_its_stream 1 growcap_double quiet_transport None
               all_good "x" 9 one (Ret tt) _ _)).
  - vm_compute. reflexivity.
  - vm_compute. reflexivity.
Defined.

Section Registered.
Variable MaxMWSSStreamCnt : Z.
Variable growcap : nat → nat.
Local Abbreviation Dial := (Dial MaxMWSSStreamCnt growcap).

(** Property X19.  A call of [Dial] that returns a stream has added one
    stream to one session, the one the stream belongs to; that session is
    open and is an element of the collection stored for the address, and
    no other session object has changed. *)
Theorem returned_stream_session_is_registered env addr w cc w' :
  wf w → Dial env addr w = (Ret cc, w') →
  (∃ sl, sessions w' !! addr = Some sl ∧ 0 < len sl)
  ∧ stream_owner cc ∈ collection w' addr
  ∧ live w' (stream_owner cc)
  ∧ closed_at w' (stream_owner cc) = false
  ∧ streams_at w' (stream_owner cc) = (streams_at w (stream_owner cc) + 1)%Z
  ∧ ∀ p, p ≠ stream_owner cc → objs w' !! p = objs w !! p.
Proof.
  intros Hwf HD.
  destruct (Dial_spec _ _ _ _ _ _ _ Hwf HD) as [Hwf' (Hopen & _ & Hfr & Hcases)].
  assert (stream_owner cc ∈ collection w' addr
          ∧ streams_at w' (stream_owner cc)
            = (streams_at w (stream_owner cc) + 1)%Z) as [Hin Hst].
  { destruct Hcases
      as [(Hf & _ & -> & Hst & _)|(_ & _ & Hnew & Hst & _ & [[_ ->]|Hev])].
    - split; [by destruct (first_with_room_elem _ _ _ Hf)|done].
    - split; [apply elem_of_app; right; by left|].
      rewrite Hst. unfold streams_at. by rewrite Hnew.
    - destruct Hev as (? & ? & ? & _ & _ & _ & _ & ->).
      split; [apply elem_of_app; right; by left|].
      rewrite Hst. unfold streams_at. by rewrite Hnew. }
  split.
  { destruct (sessions w' !! addr) as [sl|] eqn:Hs.
    - exists sl. split; [done|]. by destruct (wf_slices _ Hwf' _ _ Hs).
    - unfold collection in Hin. rewrite Hs in Hin. cbn in Hin.
      unfold elems in Hin. cbn in Hin. by apply elem_of_nil in Hin. }
  split; [done|]. split; [|done].
  pose proof (collection_live w' addr Hwf') as Hl.
  rewrite Forall_forall in Hl. by apply Hl.
Qed.

End Registered.

Lemma returned_stream_session_is_registered_witness :
  wf one
  ∧ Dial 1 growcap_double all_good "x" one
    = (Ret {| Conn := 4; stream_owner := 5; stream_rank := 1 |}, two)
  ∧ 5 ∈ collection two "x" ∧ closed_at two 5 = false.
Proof.
  assert (Dial 1 growcap_double all_good "x" one
          = (Ret {| Conn := 4; stream_owner := 5; stream_rank := 1 |}, two)) as HD
    by (vm_compute; reflexivity).
  split; [apply one_wf|]. split; [exact HD|].
  destruct (returned_stream_session_is_registered 1 growcap_double all_good "x" one
              _ _ one_wf HD) as (_ & Hin & _ & Hc & _ & _).
  split; [exact Hin|exact Hc].
Defined.

End PoolExtras.

(** ** Concurrent calls *)

Module ConcurrentFacts.

Import Pool Scenario PoolFacts Concurrent.
Section Facts.
Variable MaxMWSSStreamCnt : Z.
Variable growcap : nat → nat.
Local Abbreviation Dial := (Dial MaxMWSSStreamCnt growcap).
Local Abbreviation advance := (advance MaxMWSSStreamCnt growcap).
Local Abbreviation rest := (rest MaxMWSSStreamCnt growcap).
Local Abbreviation cstep := (cstep MaxMWSSStreamCnt growcap).
Local Abbreviation serial := (serial MaxMWSSStreamCnt growcap).

Lemma bind_assoc {A B C} (m : M A) (f : A → M B) (g : B → M C) w :
  bind (bind m f) g w = bind m (λ x, bind (f x) g) w.
Proof. unfold bind. by destruct (m w) as [[a|e|] w1]. Qed.

Lemma rest_Scanning env addr w :
  rest env addr Scanning w
  = bind (scan (elems w (default nil_slice (sessions w !! addr)))
            (bool_decide (is_Some (sessions w !! addr))))
      (λ '(s, ok), rest env addr
                     (Evicting (default nil_slice (sessions w !! addr)) s ok)) w.
Proof.
  cbn [Concurrent.rest]. unfold Pool.Dial, choose, bind, get.
  destruct (scan _ _ w) as [[[s ok]|e|] w1]; [|done|done].
  by destruct (evict _ s ok w1) as [[[sl1 ok1]|e|] w2].
Qed.

Lemma advance_rest env addr p w p' w' :
  advance env addr p w = Some (p', w') →
  rest env addr p w = rest env addr p' w'.
Proof.
  destruct p as [| |sl s ok|sl s ok|sl s|sl cc|r|r]; cbn [Concurrent.advance]; try done.
  - intros [= H]. revert H. rewrite rest_Scanning. unfold bind, next.
    destruct (scan _ _ w) as [[[s ok]|e|] w1]; intros [= <- <-]; done.
  - intros [= H]. revert H.
    unfold Concurrent.rest at 1, bind, next.
    destruct (evict sl s ok w) as [[[sl1 ok1]|e|] w1]; intros [= <- <-]; done.
  - intros [= H]. revert H.
    unfold Concurrent.rest at 1, bind, next.
    destruct (create _ _ env sl s ok w) as [[[sl1 s1]|e|] w1]; intros [= <- <-]; done.
  - intros [= H]. revert H.
    unfold Concurrent.rest at 1, bind, next.
    destruct (GetConn_or_close env s w) as [[cc|e|] w1]; intros [= <- <-]; done.
  - intros [= <- <-]. done.
Qed.

Lemma advance_holding env addr p w p' w' :
  advance env addr p w = Some (p', w') → holding p = true ∧ holding p' = true.
Proof.
  destruct p as [| |sl s ok|sl s ok|sl s|sl cc|r|r]; cbn [Concurrent.advance]; try done;
    unfold next.
  - destruct (scan _ _ w) as [[[s ok]|e|] w1]; intros [= <- <-]; done.
  - destruct (evict sl s ok w) as [[[sl1 ok1]|e|] w1]; intros [= <- <-]; done.
  - destruct (create _ _ env sl s ok w) as [[[sl1 s1]|e|] w1]; intros [= <- <-]; done.
  - destruct (GetConn_or_close env s w) as [[cc|e|] w1]; intros [= <- <-]; done.
  - intros [= <- <-]; done.
Qed.

Lemma advance_total env addr p w :
  holding p = true → (∃ r, p = Leaving r) ∨ is_Some (advance env addr p w).
Proof. destruct p; cbn; try done; eauto. Qed.

Section Run.
Variable calls : list (Env * string).
Variable w0 : World.

Local Abbreviation ran := (ran MaxMWSSStreamCnt growcap calls w0).
Local Abbreviation done_in := (done_in MaxMWSSStreamCnt growcap calls w0).
Local Abbreviation inv := (inv MaxMWSSStreamCnt growcap calls w0).

Lemma serial_snoc o i env addr w :
  calls !! i = Some (env, addr) →
  serial calls (o ++ [i]) w = (Dial env addr (serial calls o w)).2.
Proof.
  intros Hi. revert w. induction o as [|j o IH]; intros w; cbn.
  - by rewrite Hi.
  - destruct (calls !! j) as [[e a]|]; apply IH.
Qed.

Lemma ran_snoc o i j r : ran o j r → ran (o ++ [i]) j r.
Proof.
  intros (o1 & o2 & env & addr & -> & Hc & Hr).
  exists o1, (o2 ++ [i]), env, addr. rewrite <- app_assoc. done.
Qed.

Lemma done_in_update c o i p w l :
  i ∉ o → done_in c o →
  done_in {| world := w; locked := l; pcs := <[i := p]> (pcs c) |} o.
Proof.
  intros Hi Hd j Hj. destruct (Hd j Hj) as (r & Hp & Hr).
  exists r. split; [|done]. cbn. rewrite list_lookup_insert_ne; [done|].
  intros ->. done.
Qed.

Lemma inv_init : inv (init (length calls) w0) [].
Proof.
  split; [constructor|]. split; [cbn; by rewrite length_replicate|].
  split; [intros i Hi; by apply elem_of_nil in Hi|].
  split.
  - intros i Hi _. cbn. by apply lookup_replicate_2.
  - cbn. split; [done|]. intros j Hj. by apply elem_of_nil in Hj.
Qed.

(** When the lock is free every goroutine waits for it or has
    returned. *)
Lemma unlocked_pc c order i p :
  inv c order → locked c = false → pcs c !! i = Some p → holding p = false.
Proof.
  intros (Hnd & Hlen & Hlt & Hout & Hl) Hfree Hp. rewrite Hfree in Hl.
  destruct Hl as [_ Hd].
  destruct (decide (i ∈ order)) as [Hin|Hnin].
  - destruct (Hd i Hin) as (r & Hr & _). rewrite Hp in Hr. by injection Hr as ->.
  - apply lookup_lt_Some in Hp as Hi. rewrite Hlen in Hi.
    rewrite (Hout i Hi Hnin) in Hp. by injection Hp as <-.
Qed.

(** When the lock is taken, the goroutine that is inside [Dial] is the
    last one of [order]. *)
Lemma locked_holder c o' k n x :
  inv c (o' ++ [k]) → locked c = true →
  pcs c !! n = Some x → holding x = true → n = k.
Proof.
  intros (Hnd & Hlen & Hlt & Hout & Hl) Hlk Hx Hhx. rewrite Hlk in Hl.
  destruct Hl as (o & k' & env & addr & q & Ho & _ & _ & _ & _ & Hd).
  apply app_inj_tail in Ho as [<- <-].
  destruct (decide (n = k)) as [|Hne]; [done|]. exfalso.
  destruct (decide (n ∈ o')) as [Hin|Hnin].
  - destruct (Hd n Hin) as (r' & Hr & _). rewrite Hx in Hr.
    injection Hr as ->. done.
  - apply lookup_lt_Some in Hx as Hn. rewrite Hlen in Hn.
    rewrite Hout in Hx; [injection Hx as <-; done|done|].
    rewrite elem_of_app, list_elem_of_singleton. by intros [?|?].
Qed.

Lemma inv_step c order c' :
  inv c order → cstep calls c c' → ∃ order', inv c' order'.
Proof.
  intros Hinv Hstep. pose proof Hinv as (Hnd & Hlen & Hlt & Hout & Hl).
  destruct Hstep as [i Hp Hfree|i p env addr p' w' Hp Hc Hadv|i r Hp].
  - (* Lock *)
    rewrite Hfree in Hl. destruct Hl as [Hw Hd].
    assert (i ∉ order) as Hnin.
    { intros Hin. destruct (Hd i Hin) as (r & Hr & _). congruence. }
    apply lookup_lt_Some in Hp as Hi. rewrite Hlen in Hi.
    destruct (lookup_lt_is_Some_2 calls i Hi) as [[env addr] Hc].
    exists (order ++ [i]).
    split. { apply NoDup_app. split; [done|]. split.
             - intros x Hx Hx'. apply list_elem_of_singleton in Hx' as ->. done.
             - apply NoDup_singleton. }
    split; [cbn; by rewrite length_insert|].
    split. { intros j Hj. apply elem_of_app in Hj as [Hj|Hj]; [by apply Hlt|].
             apply list_elem_of_singleton in Hj as ->. done. }
    split. { intros j Hj Hnj. cbn. rewrite list_lookup_insert_ne.
             - apply Hout; [done|]. intros ?. apply Hnj, elem_of_app. by left.
             - intros ->. apply Hnj, elem_of_app. right. by apply list_elem_of_singleton. }
    cbn. exists order, i, env, addr, Scanning.
    split; [done|]. split; [done|].
    split; [apply list_lookup_insert_eq; by rewrite Hlen|].
    split; [done|]. split; [by rewrite Hw|].
    by apply done_in_update.
  - (* a step under the lock *)
    destruct (advance_holding _ _ _ _ _ _ Hadv) as [Hh Hh'].
    destruct (locked c) eqn:Hlk.
    2:{ pose proof (unlocked_pc _ _ _ _ Hinv Hlk Hp). congruence. }
    destruct Hl as (o' & k & env' & addr' & q & -> & Hck & Hq & Hhq & Hrest & Hd).
    assert (i = k) as -> by by eapply locked_holder.
    assert (q = p) as -> by congruence.
    assert (env' = env ∧ addr' = addr) as [-> ->] by (split; congruence).
    exists (o' ++ [k]).
    split; [done|]. split; [cbn; by rewrite length_insert|].
    split; [done|].
    split. { intros j Hj Hnj. cbn. rewrite list_lookup_insert_ne; [by apply Hout|].
             intros ->. apply Hnj, elem_of_app. right. by apply list_elem_of_singleton. }
    cbn. exists o', k, env, addr, p'.
    split; [done|]. split; [done|].
    split. { apply list_lookup_insert_eq. by eapply lookup_lt_Some. }
    split; [done|]. split; [by rewrite <- (advance_rest _ _ _ _ _ _ Hadv)|].
    apply done_in_update; [|done].
    apply NoDup_app in Hnd as (_ & Hnd & _). intros Hin. apply (Hnd k Hin).
    by apply list_elem_of_singleton.
  - (* Unlock *)
    destruct (locked c) eqn:Hlk.
    2:{ pose proof (unlocked_pc _ _ _ _ Hinv Hlk Hp). done. }
    destruct Hl as (o' & k & env & addr & q & -> & Hck & Hq & Hhq & Hrest & Hd).
    assert (i = k) as -> by by eapply locked_holder.
    assert (q = Leaving r) as -> by congruence. cbn in Hrest.
    assert (k ∉ o') as Hko.
    { apply NoDup_app in Hnd as (_ & Hnd & _). intros Hin. apply (Hnd k Hin).
      by apply list_elem_of_singleton. }
    exists (o' ++ [k]).
    split; [done|]. split; [cbn; by rewrite length_insert|].
    split; [done|].
    split. { intros j Hj Hnj. cbn. rewrite list_lookup_insert_ne; [by apply Hout|].
             intros ->. apply Hnj, elem_of_app. right. by apply list_elem_of_singleton. }
    cbn. split.
    { rewrite (serial_snoc _ _ _ _ _ Hck), <- Hrest. done. }
    intros j Hj. apply elem_of_app in Hj as [Hj|Hj].
    + destruct (Hd j Hj) as (r' & Hr' & Hran). exists r'. split.
      * cbn. rewrite list_lookup_insert_ne; [done|]. intros ->. done.
      * by apply ran_snoc.
    + apply list_elem_of_singleton in Hj as ->. exists r. split.
      * cbn. apply list_lookup_insert_eq. by eapply lookup_lt_Some.
      * exists o', [], env, addr. split; [done|]. split; [done|].
        by rewrite <- Hrest.
Qed.

Lemma inv_reachable c :
  rtc (cstep calls) (init (length calls) w0) c → ∃ order, inv c order.
Proof.
  revert c. apply rtc_ind_r.
  - exists []. apply inv_init.
  - intros c c' _ Hstep [order Hinv]. by eapply inv_step.
Qed.

(** At most one goroutine is inside [Dial]. *)
Lemma inv_exclusion c order i j p q :
  inv c order →
  pcs c !! i = Some p → pcs c !! j = Some q →
  holding p = true → holding q = true → i = j.
Proof.
  intros Hinv Hp Hq Hhp Hhq. pose proof Hinv as (Hnd & Hlen & Hlt & Hout & Hl).
  destruct (locked c) eqn:Hlk.
  2:{ pose proof (unlocked_pc _ _ _ _ Hinv Hlk Hp). congruence. }
  destruct Hl as (o' & k & env & addr & q0 & -> & _).
  by rewrite (locked_holder _ _ _ _ _ Hinv Hlk Hp Hhp),
             (locked_holder _ _ _ _ _ Hinv Hlk Hq Hhq).
Qed.

(** No deadlock: a configuration where someone has not returned can
    move. *)
Lemma inv_progress c order :
  inv c order →
  Forall (λ p, is_finished p = true) (pcs c) ∨ ∃ c', cstep calls c c'.
Proof.
  intros Hinv. pose proof Hinv as (Hnd & Hlen & Hlt & Hout & Hl).
  destruct (locked c) eqn:Hlk.
  - right. destruct Hl as (o' & k & env & addr & p & -> & Hck & Hp & Hh & _).
    destruct (advance_total env addr p (world c) Hh) as [[r ->]|[[p' w'] Hadv]].
    + eexists. by eapply c_unlock.
    + eexists. by eapply c_run.
  - destruct (decide (Forall (λ p, is_finished p = true) (pcs c)))
      as [Hall|Hex]; [by left|right].
    apply not_Forall_Exists in Hex; [|apply _].
    apply Exists_exists in Hex as (p & Hin & Hnf). cbn in Hnf.
    apply list_elem_of_lookup in Hin as [i Hi].
    pose proof (unlocked_pc _ _ _ _ Hinv Hlk Hi) as Hh.
    destruct p; try done. eexists. by eapply c_lock.
Qed.

(** When all have returned, the pool is what the calls leave when
    made one after the other in the order the lock was taken. *)
Lemma inv_finished c order :
  inv c order →
  Forall (λ p, is_finished p = true) (pcs c) →
  world c = serial calls order w0
  ∧ order ≡ₚ seq 0 (length calls)
  ∧ done_in c order.
Proof.
  intros (Hnd & Hlen & Hlt & Hout & Hl) Hall.
  rewrite Forall_lookup in Hall.
  destruct (locked c) eqn:Hlk.
  { destruct Hl as (o' & k & env & addr & p & -> & Hck & Hp & Hh & _).
    specialize (Hall _ _ Hp). by destruct p. }
  destruct Hl as [Hw Hd]. split; [done|]. split; [|done].
  apply NoDup_Permutation; [done|apply NoDup_seq|].
  intros i. rewrite elem_of_seq. split; [intros Hi; apply Hlt in Hi; lia|].
  intros [_ Hi]. destruct (decide (i ∈ order)) as [|Hnin]; [done|].
  cbn in Hi. specialize (Hall _ _ (Hout i Hi Hnin)). done.
Qed.
End Run.
End Facts.

Section Sched.
Variable MaxMWSSStreamCnt : Z.
Variable growcap : nat → nat.
Variable calls : list (Env * string).

Local Abbreviation try_step := (try_step MaxMWSSStreamCnt growcap calls).
Local Abbreviation schedule := (schedule MaxMWSSStreamCnt growcap calls).


Lemma try_step_sound i c :
  rtc (cstep MaxMWSSStreamCnt growcap calls) c (try_step i c).
Proof.
  unfold Concurrent.try_step. destruct (pcs c !! i) as [p|] eqn:Hp; [|done].
  assert (∀ q, pcs c !! i = Some q →
    rtc (cstep MaxMWSSStreamCnt growcap calls) c
      match calls !! i with
      | Some (env, addr) =>
          match advance MaxMWSSStreamCnt growcap env addr q (world c) with
          | Some (p', w') => {| world := w'; locked := locked c;
                                pcs := <[i := p']> (pcs c) |}
          | None => c
          end
      | None => c
      end) as Hrun.
  { intros q Hq. destruct (calls !! i) as [[env addr]|] eqn:Hc; [|done].
    destruct (advance _ _ env addr q (world c)) as [[p' w']|] eqn:Ha; [|done].
    apply rtc_once. by eapply c_run. }
  destruct p; try (by apply Hrun).
  - destruct (locked c) eqn:Hl; [done|]. apply rtc_once. by apply c_lock.
  - apply rtc_once. by apply c_unlock.
Qed.

Lemma schedule_sound order : ∀ c,
  rtc (cstep MaxMWSSStreamCnt growcap calls) c (schedule order c).
Proof.
  induction order as [|i order IH]; intros c; [done|].
  cbn. eapply rtc_trans; [apply try_step_sound|apply IH].
Qed.
End Sched.

Section SerialFill.
Variable MaxMWSSStreamCnt : Z.
Variable growcap : nat → nat.

Local Abbreviation again := (again MaxMWSSStreamCnt growcap).

Lemma serial_replicate N env addr order : ∀ w,
  (∀ i, i ∈ order → i < N) →
  serial MaxMWSSStreamCnt growcap (replicate N (env, addr)) order w
  = Nat.iter (length order) (again env addr) w.
Proof.
  induction order as [|i order IH]; intros w Hlt; [done|].
  cbn [serial length]. rewrite lookup_replicate_2 by (apply Hlt; by left).
  rewrite IH by (intros j Hj; apply Hlt; by right).
  by rewrite Nat.iter_succ_r.
Qed.
End SerialFill.

(** Calls that find the address unused and a network that answers, made
    one after the other in any order: one session, [N] streams. *)
Lemma serial_first_dials max growcap N env addr w0 order :
  wf w0 → sessions w0 !! addr = None →
  creation_ok env → open_err env = None →
  0 < N → (Z.of_nat N ≤ max)%Z →
  order ≡ₚ seq 0 N →
  let w := serial max growcap (replicate N (env, addr)) order w0 in
  collection w addr = [S (brk w0)]
  ∧ streams_at w (S (brk w0)) = Z.of_nat N
  ∧ (∀ p, p ≠ S (brk w0) → objs w !! p = objs w0 !! p)
  ∧ ∀ i r, ran max growcap (replicate N (env, addr)) w0 order i r →
           ∃ cc, r = Ret cc ∧ stream_owner cc = S (brk w0).
Proof.
  intros Hwf Hnone Hc Ho Hpos HN Hperm. cbn zeta.
  assert (∀ i, i ∈ order → i < N) as Hlt.
  { intros i Hi. rewrite Hperm in Hi. apply elem_of_seq in Hi. lia. }
  assert (length order = N) as Hlo by by rewrite Hperm, length_seq.
  rewrite (serial_replicate max growcap N env addr order w0 Hlt), Hlo.
  destruct N as [|k]; [lia|].
  destruct (iter_dials max growcap env addr w0 Hwf Hnone Hc Ho k) as [_ Hfill]; [lia|].
  destruct Hfill as (_ & Hcol & _ & Hst & _ & Hfr).
  split; [done|]. split; [done|]. split; [done|].
  intros i r (o1 & o2 & env' & addr' & Ho1 & Hci & Hres).
  rewrite lookup_replicate in Hci. destruct Hci as [[= -> ->] _].
  assert (length o1 < S k) as Hl1.
  { rewrite <- Hlo, Ho1, length_app. cbn. lia. }
  rewrite serial_replicate in Hres.
  2:{ intros j Hj. apply Hlt. rewrite Ho1. apply elem_of_app. by left. }
  destruct (iter_dials max growcap env addr w0 Hwf Hnone Hc Ho (length o1))
    as [(cc & HD & Hown) _]; [lia|].
  rewrite HD in Hres. cbn in Hres. by exists cc.
Qed.

(** The calls made one after the other keep the invariant of the pool,
    and each creates at most one session object. *)
Lemma serial_wf max growcap calls order : ∀ w,
  wf w → wf (serial max growcap calls order w).
Proof.
  induction order as [|i order IH]; intros w Hwf; [done|].
  cbn [serial]. destruct (calls !! i) as [[env addr]|]; [|by apply IH].
  apply IH. by apply Dial_wf.
Qed.

Lemma serial_size max growcap calls order : ∀ w,
  wf w →
  size (objs (serial max growcap calls order w)) ≤ size (objs w) + length order.
Proof.
  induction order as [|i order IH]; intros w Hwf; cbn [serial length]; [lia|].
  destruct (calls !! i) as [[env addr]|].
  - pose proof (PoolExtras.Dial_objs_size max growcap env addr w Hwf) as H1.
    pose proof (IH _ (Dial_wf max growcap env addr w Hwf)) as H2. lia.
  - pose proof (IH w Hwf). lia.
Qed.

(** Calls that find the address unused and a network that answers, made
    one after the other in any order, with any maximum that is at least
    1: the sessions are filled one after the other. *)
Lemma serial_packed max growcap N env addr w0 order :
  (1 ≤ max)%Z → wf w0 → sessions w0 !! addr = None →
  creation_ok env → open_err env = None →
  0 < N → order ≡ₚ seq 0 N →
  let w := serial max growcap (replicate N (env, addr)) order w0 in
  packed max w0 w addr N
  ∧ ∀ i r, ran max growcap (replicate N (env, addr)) w0 order i r →
           ∃ cc, r = Ret cc ∧ stream_owner cc ∈ collection w addr.
Proof.
  intros Hmax Hwf Hnone Hc Ho Hpos Hperm. cbn zeta.
  assert (∀ i, i ∈ order → i < N) as Hlt.
  { intros i Hi. rewrite Hperm in Hi. apply elem_of_seq in Hi. lia. }
  assert (length order = N) as Hlo by by rewrite Hperm, length_seq.
  rewrite (serial_replicate max growcap N env addr order w0 Hlt), Hlo.
  destruct N as [|k]; [lia|].
  destruct (iter_packed max growcap Hmax env addr w0 Hwf Hnone Hc Ho k)
    as [Hp Hj].
  split; [done|].
  intros i r (o1 & o2 & env' & addr' & Ho1 & Hci & Hres).
  rewrite lookup_replicate in Hci. destruct Hci as [[= -> ->] _].
  assert (length o1 ≤ k) as Hl1.
  { assert (length order = length o1 + S (length o2)) as Hl.
    { rewrite Ho1, length_app. reflexivity. }
    lia. }
  rewrite serial_replicate in Hres.
  2:{ intros j Hj'. apply Hlt. rewrite Ho1. apply elem_of_app. by left. }
  destruct (Hj (length o1) Hl1) as (cc & HD & Hin).
  rewrite HD in Hres. cbn in Hres. by exists cc.
Qed.




End ConcurrentFacts.

(** ** The server *)

Module ServerFacts.

Import Server.

Lemma mux_iter_not_blocked st ev : mux_iter st ev ≠ Blocked.
Proof.
  unfold mux_iter, select_send. destruct ev as [e|cc]; [done|].
  by destruct (try_send _ _).
Qed.

Lemma mux_loop_not_blocked evs : ∀ st, mux_loop st evs ≠ Blocked.
Proof.
  induction evs as [|ev evs IH]; intros st; simpl; [done|].
  destruct (mux_iter st ev) eqn:E; [apply IH|done|].
  by apply mux_iter_not_blocked in E.
Qed.

Lemma try_send_full {A} (ch : chan A) v :
  length (buf ch) = capacity ch → try_send ch v = None.
Proof. intros H. unfold try_send. case_decide; [lia|done]. Qed.

(** Claim C6.  When the intake queue is at capacity, the stream [mux]
    has just accepted is closed and the queue is left as it was, contents
    and length; and whatever streams a session accepts, its loop never
    waits on the queue. *)
Theorem intake_backpressure st cc evs :
  full st →
  mux_iter st (inr cc)
    = Continue {| srv := srv st; dropped := cc :: dropped st |}
  ∧ mux_loop st evs ≠ Blocked.
Proof.
  intros Hfull. split; [|apply mux_loop_not_blocked].
  unfold mux_iter, select_send. by rewrite (try_send_full _ _ Hfull).
Qed.

Lemma intake_backpressure_witness :
  full full_server ∧
  mux_iter full_server (inr (a_stream 2))
    = Continue {| srv := srv full_server; dropped := [a_stream 2] |}
  ∧ mux_loop full_server [inr (a_stream 2); inr (a_stream 3)] ≠ Blocked.
Proof.
  split; [reflexivity|].
  apply (intake_backpressure full_server (a_stream 2)). reflexivity.
Defined.

Lemma wrap64_small z : (- 2 ^ 63 ≤ z < 2 ^ 63)%Z → wrap64 z = z.
Proof. intros H. unfold wrap64. rewrite Z.mod_small; lia. Qed.

Lemma backoff_bounds d : (0 ≤ d ≤ Second)%Z → (0 < backoff d ≤ Second)%Z ∧ (d ≤ backoff d)%Z.
Proof.
  intros H. unfold backoff, Millisecond, Second in *.
  destruct (Z.eqb_spec d 0) as [->|Hd]; simpl; [lia|].
  rewrite wrap64_small by lia.
  destruct (Z.gtb_spec (d * 2) (1 * 1000000000)); lia.
Qed.

Lemma delay_bounds k : (0 ≤ delay k ≤ Second)%Z.
Proof.
  induction k as [|k IH]; [unfold delay, Second; simpl; lia|].
  change (delay (S k)) with (backoff (delay k)).
  pose proof (backoff_bounds _ IH). lia.
Qed.

Lemma delay_closed_form k :
  delay (S k) = Z.min (5 * Millisecond * 2 ^ Z.of_nat k) Second.
Proof.
  induction k as [|k IH].
  - reflexivity.
  - change (delay (S (S k))) with (backoff (delay (S k))). rewrite IH.
    assert (0 < 2 ^ Z.of_nat k)%Z by (apply Z.pow_pos_nonneg; lia).
    replace (Z.of_nat (S k)) with (Z.of_nat k + 1)%Z by lia.
    rewrite Z.pow_add_r, Z.pow_1_r by lia.
    unfold backoff, Millisecond, Second in *.
    destruct (Z.eqb_spec (Z.min (5 * 1000000 * 2 ^ Z.of_nat k) 1000000000) 0); [lia|].
    rewrite wrap64_small by lia.
    destruct (Z.gtb_spec (Z.min (5 * 1000000 * 2 ^ Z.of_nat k) 1000000000 * 2) (1 * 1000000000)); lia.
Qed.

Lemma iter_backoff_shift n d :
  Nat.iter n backoff (backoff d) = backoff (Nat.iter n backoff d).
Proof. induction n as [|n IH]; simpl; [done|by rewrite IH]. Qed.

Lemma serve_loop_transient codes : ∀ st,
  serve_loop st (transient codes)
  = Looping {| tempDelay := Nat.iter (length codes) backoff (tempDelay st);
               slept := slept st ++ map (λ i, Nat.iter (S i) backoff (tempDelay st)) (seq 0 (length codes));
               handled := handled st |}.
Proof.
  induction codes as [|c codes IH]; intros st.
  - simpl. rewrite app_nil_r. by destruct st.
  - cbn [transient map serve_loop serve_iter snd err_temporary length].
    fold (transient codes). rewrite IH.
    cbn [tempDelay slept handled seq map]. f_equal. f_equal.
    + apply iter_backoff_shift.
    + rewrite <- app_assoc. cbn [app]. do 2 f_equal.
      rewrite <- seq_shift, map_map. apply map_ext. intros i.
      rewrite iter_backoff_shift. done.
Qed.

(** Claim C7.  After [k] transient accept errors in a row the loop has
    slept [delay 1, ..., delay k], where [delay (k+1)] is 5ms doubled [k]
    times and capped at 1s; the delays never decrease and never exceed
    1s; an accept that returns no error sets the delay back to zero. *)
Theorem backoff_sequence codes k c :
  serve_loop loop_start (transient codes)
    = Looping {| tempDelay := delay (length codes);
                 slept := map (λ i, delay (S i)) (seq 0 (length codes));
                 handled := [] |}
  ∧ delay (S k) = Z.min (5 * Millisecond * 2 ^ Z.of_nat k) Second
  ∧ (delay k ≤ delay (S k) ≤ 1 * Second)%Z
  ∧ ∀ st, serve_iter st (c, None)
          = Looping {| tempDelay := 0; slept := slept st;
                       handled := handled st ++ [c] |}.
Proof.
  split; [|split; [|split]].
  - by rewrite serve_loop_transient.
  - apply delay_closed_form.
  - pose proof (delay_bounds k) as Hk. pose proof (delay_bounds (S k)).
    pose proof (backoff_bounds _ Hk). change (delay (S k)) with (backoff (delay k)) in *. lia.
  - done.
Qed.

Lemma serve_loop_app rs1 : ∀ st rs2,
  serve_loop st (rs1 ++ rs2)
  = match serve_loop st rs1 with
    | Looping st' => serve_loop st' rs2
    | Returned e st' => Returned e st'
    end.
Proof.
  induction rs1 as [|r rs1 IH]; intros st rs2; [done|].
  cbn [app serve_loop]. by destruct (serve_iter st r).
Qed.

Lemma serve_iter_nonfatal st r :
  fatal r = false → ∃ st', serve_iter st r = Looping st'.
Proof.
  unfold fatal, serve_iter. destruct r as [c [e|]]; cbn; [|eauto].
  destruct (err_temporary e); [eauto|done].
Qed.

Lemma serve_loop_nonfatal rs : ∀ st,
  Forall (λ r, fatal r = false) rs → ∃ st', serve_loop st rs = Looping st'.
Proof.
  induction rs as [|r rs IH]; intros st Hrs; [by exists st|].
  inversion_clear Hrs as [|?? Hr Hrs'].
  destruct (serve_iter_nonfatal st r Hr) as [st1 H1].
  cbn [serve_loop]. rewrite H1. by apply IH.
Qed.

Lemma serve_loop_Returned rs : ∀ st e st',
  serve_loop st rs = Returned e st' →
  err_temporary e = false ∧ ∃ c, (c, Some e) ∈ rs.
Proof.
  induction rs as [|r rs IH]; intros st e st'; [done|].
  cbn [serve_loop]. destruct (serve_iter st r) as [st1|e1 st1] eqn:Hit.
  - intros H. destruct (IH _ _ _ H) as [? [c ?]]. split; [done|].
    exists c. by right.
  - intros [= -> ->]. unfold serve_iter in Hit. destruct r as [c [e0|]]; cbn in Hit; [|done].
    destruct (err_temporary e0) eqn:Ht; [done|]. injection Hit as -> _.
    split; [done|]. exists c. by left.
Qed.

(** Claim C8.  Transient accept errors and accepted connections keep the
    loop going; the first error that is not transient ends it and is the
    value [RunLocalMWSSServer] returns.  The loop returns nothing but
    such an error. *)
Theorem fatal_accept_error_returned st pre c e post :
  Forall (λ r, fatal r = false) pre →
  err_temporary e = false →
  ∃ st', serve_loop st pre = Looping st'
         ∧ serve_loop st (pre ++ (c, Some e) :: post) = Returned e st'
         ∧ ∀ rs e1 st1, serve_loop st rs = Returned e1 st1 →
             err_temporary e1 = false ∧ ∃ c1, (c1, Some e1) ∈ rs.
Proof.
  intros Hpre He. destruct (serve_loop_nonfatal pre st Hpre) as [st' Hst'].
  exists st'. split; [done|]. split.
  - rewrite serve_loop_app, Hst'. cbn. unfold serve_iter. cbn. by rewrite He.
  - intros rs e1 st1. apply serve_loop_Returned.
Qed.

Lemma fatal_accept_error_returned_witness :
  Forall (λ r, fatal r = false)
    [(None, Some econnaborted); (Some (a_stream 1), None); (None, Some econnaborted)]
  ∧ err_temporary listener_closed = false
  ∧ ∃ st',
      serve_loop loop_start
        ([(None, Some econnaborted); (Some (a_stream 1), None); (None, Some econnaborted)]
         ++ (None, Some listener_closed) :: [(Some (a_stream 2), None)])
      = Returned listener_closed st'.
Proof.
  assert (Forall (λ r, fatal r = false)
    [(None, Some econnaborted); (Some (a_stream 1), None); (None, Some econnaborted)]) as H
    by (repeat constructor).
  split; [exact H|]. split; [reflexivity|].
  destruct (fatal_accept_error_returned loop_start _ None listener_closed
              [(Some (a_stream 2), None)] H eq_refl) as (st' & _ & Hr & _).
  by exists st'.
Defined.

(** A server can stop with a stream left in its queue. *)
Lemma stopped_with_backlog_reached :
  mux_iter {| srv := new_server; dropped := [] |} (inr (a_stream 1))
    = Continue {| srv := with_backlog; dropped := [] |}
  ∧ serve_exit (Some listener_closed) with_backlog = Some stopping_with_backlog
  ∧ Accept stopping_with_backlog (None, Some listener_closed) stopped_with_backlog.
Proof.
  split; [reflexivity|]. split; [reflexivity|].
  exact (Accept_err stopping_with_backlog (Some listener_closed)
           {| buf := []; capacity := 1; closed := true |} eq_refl).
Qed.

(** Claim C10 as stated fails: with a stream left in the queue, [Accept]
    may return it. *)
Lemma Accept_after_exit_may_return_stream :
  ¬ (∀ s r s', drained s → Accept s r s' → r = (None, None)).
Proof.
  intros H.
  assert ((Some (a_stream 1), @None error) = (None, None)) as Habs; [|done].
  eapply (H stopped_with_backlog); [done|].
  apply (Accept_conn stopped_with_backlog (Some (a_stream 1))
           {| buf := []; capacity := 1024; closed := false |}). reflexivity.
Qed.

Lemma try_recv_drained {A} (ch : chan A) :
  buf ch = [] → closed ch = true → try_recv ch = Some (None, ch).
Proof. intros Hb Hc. unfold try_recv. by rewrite Hb, Hc. Qed.

(** Claim C10, as amended.  Once the error channel is closed and its
    value received, [Accept] never waits: it can always return a nil
    connection with a nil error.  Every result it returns has a nil
    error; the connection is nil too when the queue is empty, and
    otherwise may be the stream at the head of the queue. *)
Theorem Accept_after_exit s :
  drained s →
  Accept s (None, None) s
  ∧ ∀ r s', Accept s r s' →
      r.2 = None
      ∧ (buf (connChan s) = [] → r = (None, None) ∧ s' = s)
      ∧ (∀ cc, r.1 = Some cc → ∃ q, buf (connChan s) = cc :: q
                                    ∧ buf (connChan s') = q).
Proof.
  intros [Hb Hc]. split.
  - destruct s as [cch ech]. cbn in *.
    apply (Accept_err {| connChan := cch; errChan := ech |} None ech).
    by apply try_recv_drained.
  - intros r s' HA. destruct HA as [v ch Hrecv|v ch Hrecv].
    + split; [done|]. unfold try_recv in Hrecv. split.
      * intros Hq. rewrite Hq in Hrecv. destruct (closed (connChan s)); [|done].
        injection Hrecv as <- <-. by destruct s.
      * intros cc [= ->]. destruct (buf (connChan s)) as [|x q] eqn:Hq.
        -- by destruct (closed (connChan s)).
        -- injection Hrecv as -> <-. by exists q.
    + rewrite (try_recv_drained _ Hb Hc) in Hrecv. injection Hrecv as <- <-.
      split; [done|]. split; [by destruct s|]. done.
Qed.

Lemma Accept_after_exit_witness :
  drained stopped_with_backlog
  ∧ Accept stopped_with_backlog (None, None) stopped_with_backlog.
Proof.
  assert (drained stopped_with_backlog) as H by done.
  split; [exact H|]. exact (proj1 (Accept_after_exit stopped_with_backlog H)).
Defined.

End ServerFacts.

(** ** More on concurrent calls *)

Module ConcurrentExtras.

Import Pool Scenario Concurrent ConcurrentFacts.

(** Property X10.  In every run of concurrent calls of [Dial], the mutex
    is held exactly when some call is between its [Lock] (line 88) and its
    deferred [Unlock] (line 89); once every call has returned, with a
    stream, an error or a panic, the mutex is free. *)
Theorem lock_held_iff_call_in_progress max growcap calls w0 c :
  rtc (cstep max growcap calls) (init (length calls) w0) c →
  (locked c = true ↔ ∃ i p, pcs c !! i = Some p ∧ holding p = true)
  ∧ (Forall (λ p, is_finished p = true) (pcs c) → locked c = false).
Proof.
  intros Hrun.
  destruct (inv_reachable _ _ _ _ _ Hrun) as [order Hinv].
  assert (locked c = true ↔ ∃ i p, pcs c !! i = Some p ∧ holding p = true) as Hiff.
  { split.
    - intros Hl. destruct Hinv as (_ & _ & _ & _ & Hlk). rewrite Hl in Hlk.
      destruct Hlk as (o' & i & env & addr & p & _ & _ & Hp & Hh & _). eauto.
    - intros (i & p & Hp & Hh). destruct (locked c) eqn:Hl; [done|].
      rewrite (unlocked_pc _ _ _ _ _ _ _ _ Hinv Hl Hp) in Hh. done. }
  split; [exact Hiff|].
  intros Hall. destruct (locked c) eqn:Hl; [|done].
  destruct (proj1 Hiff eq_refl) as (i & p & Hp & Hh).
  rewrite Forall_lookup in Hall. specialize (Hall _ _ Hp).
  destruct p; done.
Qed.

Lemma lock_held_iff_call_in_progress_witness :
  rtc (cstep 2 growcap_double (replicate 2 (all_good, "x")))
    (init 2 NewMWSSTransporter) two_racers
  ∧ Forall (λ p, is_finished p = true) (pcs two_racers)
  ∧ locked two_racers = false.
Proof.
  assert (rtc (cstep 2 growcap_double (replicate 2 (all_good, "x")))
            (init 2 NewMWSSTransporter) two_racers) as Hrun.
  { apply schedule_sound. }
  assert (Forall (λ p, is_finished p = true) (pcs two_racers)) as Hfin.
  { vm_compute. repeat constructor. }
  split; [exact Hrun|]. split; [exact Hfin|].
  exact (proj2 (lock_held_iff_call_in_progress 2 growcap_double
                  (replicate 2 (all_good, "x")) NewMWSSTransporter two_racers Hrun)
           Hfin).
Defined.

End ConcurrentExtras.

(** ** More on the server *)

Module ServerExtras.

Import Server ServerFacts ServerRuns.

(** Property X11.  Over a stretch of iterations of the loop of [mux]
    (lines 264-278) during which nothing is received from the intake
    queue, the streams [AcceptStream] gives are appended to the queue in
    the order of arrival as long as the queue has room, and the later ones
    of the stretch are closed by [mux] itself; none is lost and the error
    channel is not touched.  The next stretch starts from the queue as
    [Accept] has left it. *)
Theorem mux_queues_in_order_then_closes ccs : ∀ st,
  closed (connChan (srv st)) = false →
  mux_loop st (map inr ccs)
  = Continue
      {| srv := {| connChan :=
                     {| buf := buf (connChan (srv st))
                               ++ take (capacity (connChan (srv st))
                                        - length (buf (connChan (srv st)))) ccs;
                        capacity := capacity (connChan (srv st));
                        closed := false |};
                   errChan := errChan (srv st) |};
         dropped := rev (drop (capacity (connChan (srv st))
                               - length (buf (connChan (srv st)))) ccs)
                    ++ dropped st |}.
Proof.
  induction ccs as [|cc ccs IH]; intros [[[b n c] ech] dr];
    cbn [srv connChan buf capacity closed errChan dropped]; intros ->;
    cbn [map mux_loop].
  - rewrite take_nil, drop_nil, app_nil_r. reflexivity.
  - unfold mux_iter, select_send, try_send.
    cbn [srv connChan buf capacity closed errChan dropped].
    case_decide as Hlt.
    + rewrite IH by reflexivity.
      cbn [srv connChan buf capacity closed errChan dropped].
      rewrite length_app. cbn [length].
      replace (n - length b) with (S (n - (length b + 1))) by lia.
      cbn [take drop]. rewrite <- app_assoc. done.
    + rewrite IH by reflexivity.
      cbn [srv connChan buf capacity closed errChan dropped].
      replace (n - length b) with 0 by lia.
      rewrite take_0, !drop_0. cbn [rev]. by rewrite <- app_assoc.
Qed.

Lemma mux_queues_in_order_then_closes_witness :
  closed (connChan (srv full_server)) = false
  ∧ mux_loop full_server (map inr [a_stream 2; a_stream 3])
    = Continue {| srv := srv full_server;
                  dropped := [a_stream 3; a_stream 2] |}.
Proof.
  split; [reflexivity|].
  rewrite (mux_queues_in_order_then_closes [a_stream 2; a_stream 3]
             full_server eq_refl).
  vm_compute. reflexivity.
Defined.

Lemma mux_loop_app evs1 : ∀ st evs2,
  mux_loop st (evs1 ++ evs2)
  = match mux_loop st evs1 with
    | Continue st' => mux_loop st' evs2
    | r => r
    end.
Proof.
  induction evs1 as [|ev evs1 IH]; intros st evs2; [done|].
  cbn [app mux_loop]. by destruct (mux_iter st ev).
Qed.

(** An iteration on a stream goes on to the next one, and the stream is
    then in the queue or among the closed ones. *)
Lemma mux_iter_stream st cc :
  ∃ st', mux_iter st (inr cc) = Continue st'
         ∧ errChan (srv st') = errChan (srv st)
         ∧ closed (connChan (srv st')) = closed (connChan (srv st))
         ∧ length (buf (connChan (srv st'))) + length (dropped st')
           = S (length (buf (connChan (srv st))) + length (dropped st)).
Proof.
  unfold mux_iter, select_send, try_send. case_decide.
  - eexists. split; [reflexivity|]. cbn. rewrite length_app. cbn.
    split; [done|]. split; [done|]. lia.
  - eexists. split; [reflexivity|]. cbn. done.
Qed.

Lemma mux_loop_conserves ccs : ∀ st,
  ∃ st', mux_loop st (map inr ccs) = Continue st'
         ∧ errChan (srv st') = errChan (srv st)
         ∧ length (buf (connChan (srv st'))) + length (dropped st')
           = length (buf (connChan (srv st))) + length (dropped st)
             + length ccs.
Proof.
  induction ccs as [|cc ccs IH]; intros st; cbn [map mux_loop length].
  - exists st. split; [done|]. split; [done|]. lia.
  - destruct (mux_iter_stream st cc) as (st1 & -> & He & _ & Hn).
    destruct (IH st1) as (st' & -> & He' & Hn').
    exists st'. split; [done|]. split; [congruence|]. lia.
Qed.

(** Property X12.  The loop of [mux] returns at the first error of
    [AcceptStream] (lines 265-269), whatever would follow it; it leaves
    the queue as the streams accepted before the error made it, each of
    them either queued or closed. *)
Theorem mux_stops_at_first_error st ccs e evs :
  closed (connChan (srv st)) = false →
  ∃ st', mux_loop st (map inr ccs) = Continue st'
         ∧ mux_loop st (map inr ccs ++ inl e :: evs) = Stop st'
         ∧ errChan (srv st') = errChan (srv st)
         ∧ length (buf (connChan (srv st'))) + length (dropped st')
           = length (buf (connChan (srv st))) + length (dropped st)
             + length ccs.
Proof.
  intros _. destruct (mux_loop_conserves ccs st) as (st' & Hl & He & Hn).
  exists st'. split; [exact Hl|]. split; [|done].
  rewrite mux_loop_app, Hl. reflexivity.
Qed.

Lemma mux_stops_at_first_error_witness :
  closed (connChan (srv {| srv := new_server; dropped := [] |})) = false
  ∧ ∃ st', mux_loop {| srv := new_server; dropped := [] |}
             (map inr [a_stream 1] ++ [inl listener_closed; inr (a_stream 2)])
           = Stop st'
           ∧ buf (connChan (srv st')) = [a_stream 1].
Proof.
  split; [reflexivity|].
  destruct (mux_stops_at_first_error {| srv := new_server; dropped := [] |}
              [a_stream 1] listener_closed [inr (a_stream 2)] eq_refl)
    as (st' & H1 & H2 & _).
  exists st'. split; [exact H2|].
  vm_compute in H1. injection H1 as <-. reflexivity.
Defined.

Lemma try_send_Some {A} (ch : chan A) v ch' :
  try_send ch v = Some ch' →
  buf ch' = buf ch ++ [v] ∧ capacity ch' = capacity ch ∧ closed ch' = closed ch
  ∧ length (buf ch) < capacity ch.
Proof. unfold try_send. case_decide; [|done]. by intros [= <-]. Qed.

Lemma try_recv_Some {A} (ch : chan A) v ch' :
  try_recv ch = Some (v, ch') →
  capacity ch' = capacity ch ∧ closed ch' = closed ch
  ∧ length (buf ch') ≤ length (buf ch)
  ∧ ((∃ x, v = Some x ∧ buf ch = x :: buf ch')
     ∨ (v = None ∧ buf ch = [] ∧ closed ch = true ∧ ch' = ch)).
Proof.
  unfold try_recv. destruct (buf ch) as [|x q] eqn:Hb.
  - destruct (closed ch) eqn:Hc; [|done]. intros [= <- <-].
    rewrite Hb, Hc. repeat split; try done. right. done.
  - intros [= <- <-]. cbn. repeat split; try done; [lia|]. left. eauto.
Qed.

Lemma sstep_bounded st st' : bounded st → sstep st st' → bounded st'.
Proof.
  intros (Hc & He & Hl & Hle & Hcl) Hstep.
  destruct Hstep as [ev st' Hit|r s' HA|err s' Hopen Hex].
  - unfold mux_iter, select_send in Hit. destruct ev as [e|cc]; [done|].
    destruct (try_send _ cc) as [ch|] eqn:Hs.
    + injection Hit as <-. apply try_send_Some in Hs as (Hb & Hcap & Hclo & Hlt).
      unfold bounded. cbn. rewrite Hb, Hcap, Hclo, length_app. cbn.
      repeat split; try done. lia.
    + injection Hit as <-. done.
  - destruct HA as [v ch Hr|v ch Hr];
      apply try_recv_Some in Hr as (Hcap & Hclo & Hlen & _);
      unfold bounded; cbn; rewrite ?Hcap, ?Hclo; repeat split; try done; lia.
  - unfold serve_exit in Hex. destruct err as [e|].
    + destruct (try_send _ e) as [ch|] eqn:Hs; [|done]. injection Hex as <-.
      apply try_send_Some in Hs as (Hb & Hcap & Hclo & Hlt).
      unfold bounded. cbn. rewrite Hb, Hcap, length_app. cbn.
      repeat split; try done. lia.
    + injection Hex as <-. done.
Qed.

(** Property X13.  In every run of the server built by lines 179-184
    (iterations of [mux], calls of [Accept], the exit of the goroutine of
    lines 202-208), the intake queue holds at most 1024 streams and the
    error channel at most one error. *)
Theorem queue_stays_within_capacity st :
  rtc sstep {| srv := new_server; dropped := [] |} st →
  capacity (connChan (srv st)) = 1024
  ∧ length (buf (connChan (srv st))) ≤ 1024
  ∧ length (buf (errChan (srv st))) ≤ 1.
Proof.
  intros Hrun.
  assert (bounded st) as (? & ? & ? & ? & ?); [|done].
  revert st Hrun. apply rtc_ind_r.
  - repeat split; cbn; lia.
  - intros st st' _ Hstep IH. by eapply sstep_bounded.
Qed.

Lemma queue_stays_within_capacity_witness :
  rtc sstep {| srv := new_server; dropped := [] |}
    {| srv := with_backlog; dropped := [] |}
  ∧ length (buf (connChan with_backlog)) ≤ 1024.
Proof.
  assert (rtc sstep {| srv := new_server; dropped := [] |}
            {| srv := with_backlog; dropped := [] |}) as H.
  { apply rtc_once. by apply (sstep_mux _ (inr (a_stream 1))). }
  split; [exact H|].
  exact (proj1 (proj2 (queue_stays_within_capacity _ H))).
Defined.

(** Property X14.  While [server.Serve] runs (the error channel is empty
    and open), [Accept] (lines 281-287) has no result when no stream is
    queued: it waits; with a stream queued it returns the oldest one, with
    a nil error, and removes only that one from the queue. *)
Theorem Accept_waits_or_takes_the_head s :
  buf (errChan s) = [] → closed (errChan s) = false →
  closed (connChan s) = false →
  (buf (connChan s) = [] → ∀ r s', ¬ Accept s r s')
  ∧ (∀ cc q, buf (connChan s) = cc :: q →
       Accept s (Some cc, None)
         {| connChan := {| buf := q; capacity := capacity (connChan s);
                           closed := closed (connChan s) |};
            errChan := errChan s |}
       ∧ ∀ r s', Accept s r s' →
           r = (Some cc, None) ∧ buf (connChan s') = q
           ∧ errChan s' = errChan s).
Proof.
  intros Heb Hec Hcc. split.
  - intros Hcb r s' HA. destruct HA as [v ch Hr|v ch Hr];
      unfold try_recv in Hr; rewrite ?Hcb, ?Hcc, ?Heb, ?Hec in Hr; done.
  - intros cc q Hq. split.
    + apply Accept_conn. unfold try_recv. by rewrite Hq.
    + intros r s' HA. destruct HA as [v ch Hr|v ch Hr];
        unfold try_recv in Hr; rewrite ?Hq, ?Heb, ?Hec in Hr; [|done].
      by injection Hr as <- <-.
Qed.

Lemma Accept_waits_or_takes_the_head_witness :
  (∀ r s', ¬ Accept new_server r s')
  ∧ Accept with_backlog (Some (a_stream 1), None) new_server.
Proof.
  split.
  - exact (proj1 (Accept_waits_or_takes_the_head new_server eq_refl eq_refl eq_refl) eq_refl).
  - exact (proj1 (proj2 (Accept_waits_or_takes_the_head with_backlog eq_refl eq_refl eq_refl)
                    (a_stream 1) [] eq_refl)).
Defined.

Lemma serve_loop_consumed rs : ∀ st,
  final (serve_loop st rs) = final (serve_loop st (consumed rs))
  ∧ ∃ st', serve_loop st (consumed rs) = Looping st'.
Proof.
  induction rs as [|r rs IH]; intros st; cbn [consumed serve_loop]; [eauto|].
  destruct r as [c [[code t]|]]; [destruct t|];
    unfold fatal, serve_iter; cbn [snd fst err_temporary negb serve_loop final];
    unfold serve_iter; cbn [snd fst err_temporary];
    first [apply IH | eauto].
Qed.

Lemma serve_loop_handled rs : ∀ st st',
  Forall (λ r, fatal r = false) rs →
  serve_loop st rs = Looping st' →
  handled st' = handled st ++ map fst (List.filter no_error rs)
  ∧ length (slept st') = length (slept st) + length (List.filter transient_error rs).
Proof.
  induction rs as [|r rs IH]; intros st st' Hnf.
  - intros [= <-]. cbn. rewrite app_nil_r. split; [done|lia].
  - inversion_clear Hnf as [|?? Hr Hrs]. cbn [serve_loop].
    destruct r as [c [[code t]|]]; [destruct t; [|done]|];
      unfold serve_iter; cbn [snd fst err_temporary]; intros H;
      destruct (IH _ _ Hrs H) as [Hh Hs]; cbn [handled slept] in Hh, Hs.
    + split; [exact Hh|]. rewrite Hs, length_app.
      change (List.filter transient_error ((c, Some (Error code true)) :: rs))
        with ((c, Some (Error code true)) :: List.filter transient_error rs).
      cbn [length]. lia.
    + split; [|exact Hs]. rewrite Hh, <- app_assoc. reflexivity.
Qed.

Lemma consumed_nonfatal rs : Forall (λ r, fatal r = false) (consumed rs).
Proof.
  induction rs as [|r rs IH]; cbn; [constructor|].
  destruct (fatal r) eqn:Hf; [constructor|]. by constructor.
Qed.

(** Property X15.  The accept loop of [RunLocalMWSSServer] (lines 210-232)
    hands to a handler, in the order [Accept] gave them, the connections of
    all results without an error up to the first error that is not
    transient, and no other; it sleeps exactly once for each transient
    error before that point. *)
Theorem accepted_connections_dispatched_in_order st rs :
  handled (final (serve_loop st rs))
  = handled st ++ map fst (List.filter no_error (consumed rs))
  ∧ length (slept (final (serve_loop st rs)))
    = length (slept st) + length (List.filter transient_error (consumed rs)).
Proof.
  destruct (serve_loop_consumed rs st) as [-> [st' Hst']].
  rewrite Hst'. cbn [final].
  by apply serve_loop_handled; [apply consumed_nonfatal|].
Qed.


Lemma backoff_range d :
  delay_ok d → (5 * Millisecond ≤ backoff d ≤ 1 * Second)%Z.
Proof.
  unfold delay_ok, backoff, Millisecond, Second.
  intros [->|H]; [vm_compute; split; discriminate|].
  destruct (Z.eqb_spec d 0) as [->|Hd]; [lia|].
  rewrite wrap64_small by lia.
  destruct (Z.gtb_spec (d * 2) (1 * 1000000000)); lia.
Qed.

Lemma serve_loop_sleeps rs : ∀ st,
  delay_ok (tempDelay st) →
  ∃ ds, slept (final (serve_loop st rs)) = slept st ++ ds
        ∧ Forall (λ d, 5 * Millisecond ≤ d ≤ 1 * Second)%Z ds
        ∧ delay_ok (tempDelay (final (serve_loop st rs))).
Proof.
  induction rs as [|r rs IH]; intros st Hd.
  - exists []. cbn. by rewrite app_nil_r.
  - cbn [serve_loop]. unfold serve_iter. destruct r as [c [e|]]; cbn [snd fst].
    + destruct (err_temporary e).
      * pose proof (backoff_range _ Hd) as Hb.
        destruct (IH {| tempDelay := backoff (tempDelay st);
                        slept := slept st ++ [backoff (tempDelay st)];
                        handled := handled st |}) as (ds & Hs & Hds & Hd').
        { right. exact Hb. }
        exists (backoff (tempDelay st) :: ds). cbn [slept] in Hs.
        rewrite Hs, <- app_assoc. split; [done|]. split; [by constructor|done].
      * exists []. cbn. by rewrite app_nil_r.
    + destruct (IH {| tempDelay := 0; slept := slept st;
                      handled := handled st ++ [c] |}) as (ds & Hs & Hds & Hd').
      { by left. }
      exists ds. done.
Qed.

(** Property X16.  Whatever [Accept] returns and in whatever order, every
    argument the accept loop gives to [time.Sleep] (line 224) lies between
    5 milliseconds and 1 second. *)
Theorem every_sleep_between_5ms_and_1s rs :
  Forall (λ d, 5 * Millisecond ≤ d ≤ 1 * Second)%Z
    (slept (final (serve_loop loop_start rs))).
Proof.
  destruct (serve_loop_sleeps rs loop_start) as (ds & Hs & Hds & _); [by left|].
  by rewrite Hs.
Qed.

(** What an [Accept] returns once the goroutine of lines 202-208 has
    queued the error and closed the channel. *)
Lemma Accept_after_error e s r s' :
  pending e s ∨ drained s → Accept s r s' →
  match r.2 with
  | Some e' => e' = e ∧ r.1 = None ∧ pending e s ∧ drained s'
               ∧ connChan s' = connChan s
  | None => errChan s' = errChan s
  end.
Proof.
  intros Hs HA. destruct HA as [v ch Hr|v ch Hr]; cbn [fst snd]; [done|].
  unfold try_recv in Hr.
  destruct Hs as [[Hb Hc]|[Hb Hc]]; rewrite Hb, ?Hc in Hr;
    injection Hr as <- <-; [|done].
  split; [done|]. split; [done|]. split; [done|]. split; [|done].
  split; [done|]. cbn. first [reflexivity | exact Hc].
Qed.

Lemma sstep_errChan e st st' :
  pending e (srv st) ∨ drained (srv st) → sstep st st' →
  (pending e (srv st') ∨ drained (srv st'))
  ∧ (drained (srv st) → drained (srv st')).
Proof.
  intros Hs Hstep. destruct Hstep as [ev st' Hit|r s' HA|err s' Hopen Hex].
  - destruct ev as [x|cc]; [done|].
    destruct (mux_iter_stream st cc) as (st1 & Hit1 & He & _).
    rewrite Hit1 in Hit. injection Hit as <-.
    unfold pending, drained. rewrite He. done.
  - pose proof (Accept_after_error _ _ _ _ Hs HA) as Hr. cbn [srv].
    destruct r as [c [e'|]]; cbn [fst snd] in Hr.
    + destruct Hr as (_ & _ & [Hb _] & Hd & _). split; [by right|].
      intros [Hb' _]. congruence.
    + unfold pending, drained. rewrite Hr. done.
  - exfalso. destruct Hs as [[_ Hc]|[_ Hc]]; congruence.
Qed.

(** Property X17.  When [server.Serve] returns an error while the error
    channel is empty, the goroutine of lines 202-208 queues it without
    waiting and closes the channel.  From then on, whatever [mux] and
    [Accept] do in between, an [Accept] returns an error only if it is that
    error and it has not been received yet, and receiving it empties the
    channel for good: the error is returned by at most one [Accept], and
    every other one returns a nil error, with a queued stream or nil.  As
    long as the error is queued, the [Accept] that returns it is possible;
    the accept loop returns the error when it is not transient (line
    227). *)
Theorem terminal_error_delivered_once s e d :
  buf (errChan s) = [] → closed (errChan s) = false →
  0 < capacity (errChan s) →
  ∃ s1, serve_exit (Some e) s = Some s1 ∧ connChan s1 = connChan s
    ∧ pending e s1
    ∧ (∀ st, rtc sstep {| srv := s1; dropped := d |} st →
         (pending e (srv st) ∨ drained (srv st))
         ∧ (∀ r s', Accept (srv st) r s' →
              match r.2 with
              | Some e' => e' = e ∧ r.1 = None ∧ pending e (srv st)
                           ∧ drained s' ∧ connChan s' = connChan (srv st)
              | None => errChan s' = errChan (srv st)
              end)
         ∧ (pending e (srv st) → ∃ s', Accept (srv st) (None, Some e) s')
         ∧ (drained (srv st) → ∀ st', rtc sstep st st' → drained (srv st')))
    ∧ (err_temporary e = false →
       ∀ l, serve_iter l (None, Some e) = Returned e l).
Proof.
  intros Heb Hec Hcap.
  destruct s as [cch [eb ecap ecl]]. cbn in *. subst eb ecl.
  eexists. split.
  { unfold serve_exit, try_send. cbn. rewrite decide_True by done. reflexivity. }
  split; [done|]. split; [done|]. split.
  2:{ intros He l. unfold serve_iter. cbn. by rewrite He. }
  intros st Hrun.
  assert (pending e (srv st) ∨ drained (srv st)) as Hs.
  { revert st Hrun. apply rtc_ind_r; [by left|].
    intros st st' _ Hstep IH. by destruct (sstep_errChan _ _ _ IH Hstep). }
  split; [exact Hs|]. split.
  { intros r s' HA. by apply Accept_after_error. }
  split.
  { intros [Hb Hc]. eexists.
    apply (Accept_err (srv st) (Some e)
             {| buf := []; capacity := capacity (errChan (srv st));
                closed := closed (errChan (srv st)) |}).
    unfold try_recv. by rewrite Hb. }
  intros Hd st'. revert st'. apply rtc_ind_r; [done|].
  intros st1 st2 _ Hstep IH.
  destruct (sstep_errChan e _ _ (or_intror IH) Hstep) as [_ H]. by apply H.
Qed.

Lemma terminal_error_delivered_once_witness :
  buf (errChan new_server) = [] ∧ closed (errChan new_server) = false
  ∧ 0 < capacity (errChan new_server)
  ∧ ∃ s1, serve_exit (Some listener_closed) new_server = Some s1
          ∧ pending listener_closed s1
          ∧ ∃ s', Accept s1 (None, Some listener_closed) s'.
Proof.
  assert (0 < capacity (errChan new_server)) as Hc by (cbn; lia).
  split; [reflexivity|]. split; [reflexivity|]. split; [exact Hc|].
  destruct (terminal_error_delivered_once new_server listener_closed []
              eq_refl eq_refl Hc) as (s1 & H1 & _ & H2 & H3 & _).
  exists s1. split; [exact H1|]. split; [exact H2|].
  destruct (H3 {| srv := s1; dropped := [] |} (rtc_refl _ _)) as (_ & _ & H4 & _).
  exact (H4 H2).
Defined.

Lemma serve_iter_dispatched l r :
  dispatched (final (serve_iter l r))
  = dispatched l ++ match r with
                    | (Some c, None) => [c]
                    | _ => []
                    end.
Proof.
  unfold serve_iter, dispatched. destruct r as [[c|] [e|]]; cbn [fst snd];
    try destruct (err_temporary e); cbn [final handled];
    rewrite ?omap_app, ?app_nil_r; reflexivity.
Qed.

(** Property X18.  In every run of the server as a whole, the connections
    handed to handlers, followed by the streams still in the intake queue,
    are in this order the streams [mux] has sent on the queue: handlers
    get the streams in the order they were queued, none twice and none
    skipped.  Every stream [AcceptStream] has given was queued or closed
    by [mux]. *)
Theorem streams_reach_handlers_in_order s :
  rtc sys_step sys_start s →
  dispatched (loop s) ++ buf (connChan (srv (mstate s))) = queued s
  ∧ arrived s ≡ₚ queued s ++ dropped (mstate s).
Proof.
  revert s. apply rtc_ind_r; [done|].
  intros s s' _ Hstep [IH1 IH2].
  destruct Hstep as [cc st' Hit|r srv' Hrun HA|err srv' Hopen Hex];
    cbn [mstate loop arrived queued srv dropped].
  - unfold mux_iter in Hit.
    destruct (select_send true (connChan (srv (mstate s))) cc) as [ch| |] eqn:Hsel;
      [|injection Hit as <-|done].
    + injection Hit as <-. cbn [srv connChan dropped].
      unfold select_send in Hsel.
      destruct (try_send _ cc) as [ch'|] eqn:Hs; [|done]. injection Hsel as ->.
      apply try_send_Some in Hs as (Hb & _). rewrite Hb. split.
      * by rewrite app_assoc, IH1.
      * rewrite IH2. rewrite <- !app_assoc. f_equiv. apply Permutation_app_comm.
    + split; [done|]. rewrite IH2. rewrite <- app_assoc. f_equiv.
      by rewrite Permutation_app_comm.
  - rewrite serve_iter_dispatched. split; [|done].
    destruct HA as [v ch Hr|v ch Hr]; cbn [connChan].
    + apply try_recv_Some in Hr as (_ & _ & _ & [(x & -> & Hb)|(-> & Hb & _ & ->)]).
      * rewrite <- IH1, Hb, <- app_assoc. done.
      * by rewrite app_nil_r.
    + by rewrite app_nil_r.
  - split; [|done]. rewrite <- IH1. f_equal.
    unfold serve_exit in Hex. destruct err as [e|].
    + destruct (try_send _ e); [|done]. by injection Hex as <-.
    + by injection Hex as <-.
Qed.

Lemma streams_reach_handlers_in_order_witness :
  rtc sys_step sys_start one_served
  ∧ dispatched (loop one_served) ++ buf (connChan (srv (mstate one_served)))
    = [a_stream 1].
Proof.
  assert (rtc sys_step sys_start one_served) as Hrun.
  { assert (sys_step sys_start one_arrived) as H1
      by exact (sys_mux sys_start (a_stream 1) _ eq_refl).
    assert (sys_step one_arrived one_served) as H2
      by exact (sys_accept one_arrived (Some (a_stream 1), None) new_server eq_refl
                  (Accept_conn with_backlog (Some (a_stream 1)) (make 1024) eq_refl)).
    eapply rtc_l; [exact H1|]. by apply rtc_once. }
  split; [exact Hrun|].
  exact (proj1 (streams_reach_handlers_in_order one_served Hrun)).
Defined.

End ServerExtras.
